(** * Breach Protocol solver: a shallow embedding of [cp2077solver/solver.py]

    The data classes of the solver become records, Python exceptions become
    an error monad, the explicit DFS stack of [_solve_internal] becomes a
    step function on a loop state, and the recursion of [solve] over
    relaxed specifications is kept as it is. *)

From Stdlib Require Import String Ascii.
From Stdlib Require Import List ZArith Bool Arith Lia Permutation Sorted.
From Stdlib Require Import DecimalString.
Import ListNotations.

Local Open Scope Z_scope.

(** ** Python exceptions as an error monad *)

Inductive exception : Type :=
| IndexError
| ValueError.

Inductive result (A : Type) : Type :=
| OK (a : A)
| Raise (e : exception).

Arguments OK {A} a.
Arguments Raise {A} e.

Definition bind {A B : Type} (r : result A) (k : A -> result B) : result B :=
  match r with
  | OK a => k a
  | Raise e => Raise e
  end.

Notation "x <- r ;; k" := (bind r (fun x => k))
  (at level 61, r at next level, right associativity).

(** A comprehension whose body may raise: the first failure aborts it. *)
Fixpoint mapM {A B : Type} (f : A -> result B) (l : list A) : result (list B) :=
  match l with
  | [] => OK []
  | x :: l' => y <- f x ;; ys <- mapM f l' ;; OK (y :: ys)
  end.

(** ** Python built-ins used by the solver *)

(** [l[i]] with Python's negative indices. *)
Definition py_getitem {A : Type} (l : list A) (i : Z) : result A :=
  let n := Z.of_nat (length l) in
  let j := if i <? 0 then i + n else i in
  if (j <? 0) || (n <=? j) then Raise IndexError
  else match nth_error l (Z.to_nat j) with
       | Some x => OK x
       | None => Raise IndexError
       end.

(** [enumerate(l)] *)
Definition enumerate {A : Type} (l : list A) : list (nat * A) :=
  combine (seq 0 (length l)) l.

(** [sum(l)] *)
Definition py_sum (l : list Z) : Z := fold_right Z.add 0 l.

(** [max(l)]; raises [ValueError] on an empty list. *)
Definition py_max (l : list Z) : result Z :=
  match l with
  | [] => Raise ValueError
  | x :: l' => OK (fold_left Z.max l' x)
  end.

(** [sorted(l, key=key)]: Python's sort is stable, so it is determined by
    its specification; it is embedded as a stable insertion sort. *)
Section Sorted.
Context {A : Type} (key : A -> Z).

Fixpoint insert_by (x : A) (l : list A) : list A :=
  match l with
  | [] => [x]
  | y :: l' => if key x <=? key y then x :: y :: l' else y :: insert_by x l'
  end.

Fixpoint sorted_by (l : list A) : list A :=
  match l with
  | [] => []
  | x :: l' => insert_by x (sorted_by l')
  end.

End Sorted.

(** [list(set(l))] up to the order of iteration, which the caller sorts away. *)
Definition py_set (l : list Z) : list Z := nodup Z.eq_dec l.

(** ** The data classes *)

Definition CellValueType : Type := string.

Module CodeMatrix.

Record t : Type := mk { cells : list (list CellValueType) }.

(** The generated constructor of the frozen dataclass stores its argument;
    the class defines no [__post_init__]. *)
Definition init (rows : list (list CellValueType)) : result t :=
  OK (mk rows).

Definition size (m : t) : nat := length (cells m).

Definition getitem (m : t) (coords : nat * nat) : result CellValueType :=
  row <- py_getitem (cells m) (Z.of_nat (fst coords)) ;;
  py_getitem row (Z.of_nat (snd coords)).

Definition iterate_row (m : t) (row_idx : nat)
  : result (list (nat * CellValueType)) :=
  row <- py_getitem (cells m) (Z.of_nat row_idx) ;;
  OK (enumerate row).

(** The generator [row[col_idx] for row in self.cells] is consumed whole by
    the comprehension that iterates it, so a short row raises before any
    element is used. *)
Definition iterate_col (m : t) (col_idx : nat)
  : result (list (nat * CellValueType)) :=
  col <- mapM (fun row => py_getitem row (Z.of_nat col_idx)) (cells m) ;;
  OK (enumerate col).

(** Every row has as many entries as there are rows. *)
Definition square (m : t) : Prop :=
  Forall (fun row => length row = size m) (cells m).

End CodeMatrix.

(** The methods of [CodeMatrix] at any Python [int]: a negative index counts
    from the end, as [list.__getitem__] has it.  The solver calls the methods
    with indices that [enumerate] produced, which are never negative; the
    definitions of [CodeMatrix] above are these at such an index (lemma
    [CodeMatrix_at_nat]). *)
Module CodeMatrixInt.

Definition getitem (m : CodeMatrix.t) (coords : Z * Z)
  : result CellValueType :=
  row <- py_getitem (CodeMatrix.cells m) (fst coords) ;;
  py_getitem row (snd coords).

Definition iterate_row (m : CodeMatrix.t) (row_idx : Z)
  : result (list (nat * CellValueType)) :=
  row <- py_getitem (CodeMatrix.cells m) row_idx ;;
  OK (enumerate row).

(** As in [CodeMatrix.iterate_col], the generator is taken as consumed
    whole. *)
Definition iterate_col (m : CodeMatrix.t) (col_idx : Z)
  : result (list (nat * CellValueType)) :=
  col <- mapM (fun row => py_getitem row col_idx) (CodeMatrix.cells m) ;;
  OK (enumerate col).

End CodeMatrixInt.

Module UploadSequence.

Record t : Type := mk { cells : list CellValueType; priority : Z }.

Definition getitem (s : t) (idx : Z) : result CellValueType :=
  py_getitem (cells s) idx.

Definition len (s : t) : Z := Z.of_nat (length (cells s)).

End UploadSequence.

Record GameSpecification : Type := mkGameSpecification {
  code_matrix : CodeMatrix.t;
  upload_sequences : list UploadSequence.t;
  buffer_size : Z
}.

(** [dataclasses.replace(spec, upload_sequences=seqs)] *)
Definition replace_upload_sequences (spec : GameSpecification)
  (seqs : list UploadSequence.t) : GameSpecification :=
  {| code_matrix := code_matrix spec;
     upload_sequences := seqs;
     buffer_size := buffer_size spec |}.

Record SolutionStep : Type := mkSolutionStep {
  value : CellValueType;
  row_idx : nat;
  col_idx : nat
}.

Definition SolutionStep_eqb (a b : SolutionStep) : bool :=
  String.eqb (value a) (value b)
  && Nat.eqb (row_idx a) (row_idx b)
  && Nat.eqb (col_idx a) (col_idx b).

Record Solution : Type := mkSolution { steps : list SolutionStep }.

Inductive SolutionStrategy : Type :=
| FIND_FIRST_SOLUTION
| FIND_ALL_SOLUTIONS.

Inductive CellChoiceDirection : Type :=
| ROW
| COLUMN.

(** ** The insertion-ordered dict of taken steps *)

Module StepDict.

(** Key = step, value = step index, in insertion order. *)
Definition t : Type := list (SolutionStep * Z).

Definition len (d : t) : Z := Z.of_nat (length d).

(** [k in d] *)
Definition contains (d : t) (k : SolutionStep) : bool :=
  existsb (fun kv => SolutionStep_eqb (fst kv) k) d.

(** [d | {k: v}]: an existing key keeps its position and takes the new
    value, a new key goes last. *)
Fixpoint set (d : t) (k : SolutionStep) (v : Z) : t :=
  match d with
  | [] => [(k, v)]
  | (k', v') :: d' =>
      if SolutionStep_eqb k' k then (k', v) :: d' else (k', v') :: set d' k v
  end.

(** [d.items()] *)
Definition items (d : t) : list (SolutionStep * Z) := d.

Definition keys (d : t) : list SolutionStep := map fst d.

End StepDict.

Record SearchStackItem : Type := mkSearchStackItem {
  item_steps : StepDict.t;
  current_step : SolutionStep;
  incomplete_sequence_length : list Z;
  next_pick_direction : CellChoiceDirection
}.

(** ** [_solve_internal] *)

Section Search.

Variable spec : GameSpecification.
Variable strategy : SolutionStrategy.

(** The element of the comprehension that seeds [incomplete_sequence_length]. *)
Definition initial_incomplete (cell_value : CellValueType)
  (upload_sequence : UploadSequence.t) : result Z :=
  first <- UploadSequence.getitem upload_sequence 0 ;;
  OK (UploadSequence.len upload_sequence
      - (if String.eqb first cell_value then 1 else 0)).

(** The body of the loop that populates the stack from the initial row. *)
Definition initial_item (cell : nat * CellValueType) : result SearchStackItem :=
  let '(col, cell_value) := cell in
  let step := mkSolutionStep cell_value 0 col in
  lens <- mapM (initial_incomplete cell_value) (upload_sequences spec) ;;
  OK {| item_steps := [(step, 0)];
        current_step := step;
        incomplete_sequence_length := lens;
        next_pick_direction := COLUMN |}.

(** The stack items in the order in which they are appended. *)
Definition initial_items : result (list SearchStackItem) :=
  row <- CodeMatrix.iterate_row (code_matrix spec) 0 ;;
  mapM initial_item row.

(** The element of the comprehension that updates
    [incomplete_sequence_length] for a child. *)
Definition next_incomplete (next_value : CellValueType)
  (pair : UploadSequence.t * Z) : result Z :=
  let '(upload_sequence, incomplete_length) := pair in
  if incomplete_length =? 0 then OK 0
  else
    expected <- UploadSequence.getitem upload_sequence (- incomplete_length) ;;
    OK (if String.eqb expected next_value
        then incomplete_length - 1
        else UploadSequence.len upload_sequence).

(** [next_steps] and the direction of the children. *)
Definition next_steps (point : SearchStackItem)
  : result (list SolutionStep * CellChoiceDirection) :=
  let current_col_idx := col_idx (current_step point) in
  let current_row_idx := row_idx (current_step point) in
  match next_pick_direction point with
  | ROW =>
      row <- CodeMatrix.iterate_row (code_matrix spec) current_row_idx ;;
      OK (map (fun c => mkSolutionStep (snd c) current_row_idx (fst c))
            (filter (fun c => negb (Nat.eqb (fst c) current_col_idx)) row),
          COLUMN)
  | COLUMN =>
      col <- CodeMatrix.iterate_col (code_matrix spec) current_col_idx ;;
      OK (map (fun c => mkSolutionStep (snd c) (fst c) current_col_idx)
            (filter (fun c => negb (Nat.eqb (fst c) current_row_idx)) col),
          ROW)
  end.

(** The search point built for one unused next step. *)
Definition next_search_point (point : SearchStackItem)
  (direction : CellChoiceDirection) (next_step : SolutionStep)
  : result SearchStackItem :=
  lens <- mapM (next_incomplete (value next_step))
            (combine (upload_sequences spec) (incomplete_sequence_length point)) ;;
  OK {| item_steps :=
          StepDict.set (item_steps point) next_step
            (StepDict.len (item_steps point));
        current_step := next_step;
        incomplete_sequence_length := lens;
        next_pick_direction := direction |}.

(** The [for next_step in next_steps] loop: the search points appended to the
    stack, in the order in which they are appended. *)
Fixpoint push_next_steps (point : SearchStackItem)
  (direction : CellChoiceDirection) (candidates : list SolutionStep)
  : result (list SearchStackItem) :=
  match candidates with
  | [] => OK []
  | next_step :: rest =>
      if StepDict.contains (item_steps point) next_step
      then push_next_steps point direction rest
      else
        child <- next_search_point point direction next_step ;;
        children <- push_next_steps point direction rest ;;
        OK (child :: children)
  end.

Definition expand (point : SearchStackItem) : result (list SearchStackItem) :=
  nd <- next_steps point ;;
  push_next_steps point (snd nd) (fst nd).

(** [ordered_steps]: the keys of the dict sorted by their index. *)
Definition ordered_steps (point : SearchStackItem) : list SolutionStep :=
  map fst (sorted_by snd (StepDict.items (item_steps point))).

(** The state of the [while] loop.  The head of [search_stack] is the right
    end of the deque, so appending [c1, ..., cn] in turn puts
    [rev [c1; ...; cn]] in front. *)
Record LoopState : Type := mkLoopState {
  search_stack : list SearchStackItem;
  solutions : list Solution
}.

Inductive Outcome : Type :=
| Continue (st : LoopState)
| Break (r : result (list Solution)).

(** One evaluation of the loop condition followed, when it holds, by one
    pass through the loop body. *)
Definition dfs_step (st : LoopState) : Outcome :=
  match search_stack st with
  | [] => Break (OK (solutions st))
  | point :: stack =>
      if py_sum (incomplete_sequence_length point) =? 0 then
        let found := solutions st ++ [mkSolution (ordered_steps point)] in
        match strategy with
        | FIND_FIRST_SOLUTION => Break (OK found)
        | FIND_ALL_SOLUTIONS => Continue (mkLoopState stack found)
        end
      else
        match py_max (incomplete_sequence_length point) with
        | Raise e => Break (Raise e)
        | OK longest =>
            let remaining_buffer_size :=
              buffer_size spec - StepDict.len (item_steps point) in
            if remaining_buffer_size <? longest
            then Continue (mkLoopState stack (solutions st))
            else
              match expand point with
              | Raise e => Break (Raise e)
              | OK children =>
                  Continue (mkLoopState (rev children ++ stack) (solutions st))
              end
        end
  end.

(** [2 ^ depth] passes through the loop, stopping at the first [Break]. *)
Fixpoint dfs_run (depth : nat) (st : LoopState) : Outcome :=
  match depth with
  | O => dfs_step st
  | S depth' =>
      match dfs_run depth' st with
      | Continue st' => dfs_run depth' st'
      | Break r => Break r
      end
  end.

(** All [(value, row, column)] triples of the matrix. *)
Definition all_cells : list SolutionStep :=
  concat
    (map (fun r => map (fun c => mkSolutionStep (snd c) (fst r) (fst c))
                     (enumerate (snd r)))
       (enumerate (CodeMatrix.cells (code_matrix spec)))).

(** An upper bound on the number of children of one search point. *)
Definition branching : nat :=
  (length all_cells + CodeMatrix.size (code_matrix spec))%nat.

(** [2 ^ loop_depth st] passes are enough for the loop to leave from [st]
    (lemma [dfs_loop_unfold]). *)
Definition loop_depth (st : LoopState) : nat :=
  (branching * length all_cells + length (search_stack st) + 1)%nat.

(** The [while search_stack] loop, run from [st] to its exit.  The depth
    always suffices (lemma [dfs_loop_exits]), so the [Continue] branch is
    never taken. *)
Definition dfs_loop (st : LoopState) : result (list Solution) :=
  match dfs_run (loop_depth st) st with
  | Break r => r
  | Continue st' => OK (solutions st')
  end.

(** The solutions in the order of their discovery. *)
Definition dfs_search : result (list Solution) :=
  items <- initial_items ;;
  dfs_loop (mkLoopState (rev items) []).

Definition solution_length (sol : Solution) : Z :=
  Z.of_nat (length (steps sol)).

Definition _solve_internal : result (list Solution) :=
  found <- dfs_search ;;
  OK (sorted_by solution_length found).

End Search.

(** ** [solve] *)

Definition unique_priorities (spec : GameSpecification) : list Z :=
  sorted_by (fun p => p)
    (py_set (map UploadSequence.priority (upload_sequences spec))).

(** The specification [solve] retries with: the sequences whose priority
    exceeds [lowest]. *)
Definition updated_spec (spec : GameSpecification) (lowest : Z)
  : GameSpecification :=
  replace_upload_sequences spec
    (filter (fun s => lowest <? UploadSequence.priority s)
       (upload_sequences spec)).

(** [solve] calls itself on a specification with fewer upload sequences;
    [calls] bounds the depth of that recursion.  Started with the number of
    upload sequences it is never exhausted: [solve] satisfies the recursive
    equation of the source (lemma [solve_unfold]).  The warning printed
    before the retry does not affect the value returned and is left out.
    The interpreter's limit on the depth of recursion is not modelled: a
    chain of more retries than it allows raises [RecursionError] in Python
    and has a value here. *)
Fixpoint solve_rec (calls : nat) (spec : GameSpecification)
  (strategy : SolutionStrategy) : result (list Solution) :=
  solutions <- _solve_internal spec strategy ;;
  match solutions with
  | [] =>
      match unique_priorities spec with
      | lowest :: _ :: _ =>
          match calls with
          | S calls' => solve_rec calls' (updated_spec spec lowest) strategy
          | O => OK solutions
          end
      | _ => OK solutions
      end
  | _ :: _ => OK solutions
  end.

Definition solve (spec : GameSpecification) (strategy : SolutionStrategy)
  : result (list Solution) :=
  solve_rec (length (upload_sequences spec)) spec strategy.

(** ** [solve] with the warnings it prints *)

(** [str(n)] for an integer. *)
Definition py_str_int (n : Z) : string :=
  NilZero.string_of_int (Z.to_int n).

(** The message [solve] prints before it retries. *)
Definition warning (lowest : Z) : string :=
  ("Warning: Could not find a solution that satisfies all upload sequences. "
   ++ "Discarding all sequences with priority <= " ++ py_str_int lowest ++ ".")
  %string.

(** [solve] together with the lines it has printed when it returns or
    raises, one for each call of [print], in order. *)
Fixpoint solve_printing_rec (calls : nat) (spec : GameSpecification)
  (strategy : SolutionStrategy) : list string * result (list Solution) :=
  match _solve_internal spec strategy with
  | Raise e => ([], Raise e)
  | OK [] =>
      match unique_priorities spec with
      | lowest :: _ :: _ =>
          match calls with
          | S calls' =>
              let (printed, solutions) :=
                solve_printing_rec calls' (updated_spec spec lowest) strategy in
              (warning lowest :: printed, solutions)
          | O => ([], OK [])
          end
      | _ => ([], OK [])
      end
  | OK solutions => ([], OK solutions)
  end.

Definition solve_printing (spec : GameSpecification)
  (strategy : SolutionStrategy) : list string * result (list Solution) :=
  solve_printing_rec (length (upload_sequences spec)) spec strategy.

(** ** [print_solution] of [cli.py] *)

Definition newline : string := String (ascii_of_nat 10) EmptyString.

Fixpoint spaces (n : nat) : string :=
  match n with
  | O => EmptyString
  | S n' => String " "%char (spaces n')
  end.

(** [s.ljust(width)], which is also what the format [{s: <width}] gives for
    a string. *)
Definition py_ljust (width : nat) (s : string) : string :=
  (s ++ spaces (width - String.length s))%string.

(** [l.index(x)]; raises [ValueError] when [x] is not in [l]. *)
Fixpoint py_index (l : list SolutionStep) (x : SolutionStep) : result nat :=
  match l with
  | [] => Raise ValueError
  | y :: l' =>
      if SolutionStep_eqb y x then OK O
      else idx <- py_index l' x ;; OK (S idx)
  end.

(** The text printed for one cell of the matrix: marked with the number of
    the step that takes it, or padded when [index] raises [ValueError]. *)
Definition formatted_value (solution : Solution) (cell_value : CellValueType)
  (row col : nat) : string :=
  match py_index (steps solution) (mkSolutionStep cell_value row col) with
  | OK matching_step_idx =>
      (cell_value ++ " "
       ++ py_ljust 6
            ("(" ++ py_str_int (Z.of_nat matching_step_idx + 1) ++ ")"))%string
  | Raise _ => py_ljust 9 cell_value
  end.

Definition solution_line (solution : Solution) : string :=
  ("Solution: " ++ String.concat " " (map value (steps solution)))%string.

Definition path_line (solution : Solution) : string :=
  ("Path: "
   ++ String.concat " > "
        (map (fun step =>
                "(" ++ py_str_int (Z.of_nat (row_idx step)) ++ " "
                ++ py_str_int (Z.of_nat (col_idx step)) ++ ")")
           (steps solution)))%string.

(** The line printed for one row of the matrix. *)
Definition matrix_line (code_matrix : CodeMatrix.t) (solution : Solution)
  (row : nat) : result string :=
  cells <- CodeMatrix.iterate_row code_matrix row ;;
  OK (String.concat ""
        (map (fun c => formatted_value solution (snd c) row (fst c)) cells)
      ++ newline)%string.

(** What [print_solution] writes to the standard output. *)
Definition print_solution (code_matrix : CodeMatrix.t) (solution : Solution)
  : result string :=
  lines <- mapM (matrix_line code_matrix solution)
             (seq 0 (CodeMatrix.size code_matrix)) ;;
  OK (solution_line solution ++ newline
      ++ path_line solution ++ newline
      ++ String.concat "" lines
      ++ newline)%string.

(** ** The upload sequences [solve_file] of [cli.py] builds *)

(** The loop of [solve_file] over [enumerate(upload_sequence_lines)], applied
    to the lines already split into cells by [line.split()]: the sequence of
    line [idx] gets priority [idx + 1]. *)
Definition cli_upload_sequences (lines : list (list CellValueType))
  : list UploadSequence.t :=
  map (fun c => UploadSequence.mk (snd c) (Z.of_nat (fst c) + 1))
    (enumerate lines).

(** ** Vocabulary of the statements *)

(** [needle] occurs in [hay] as a contiguous run. *)
Definition contiguous_run {A : Type} (needle hay : list A) : Prop :=
  exists before after, hay = before ++ needle ++ after.

Section Reachability.

Variable spec : GameSpecification.

(** The popped search point is neither accepted nor abandoned. *)
Definition is_expanded (point : SearchStackItem) : bool :=
  negb (py_sum (incomplete_sequence_length point) =? 0)
  && match py_max (incomplete_sequence_length point) with
     | OK longest =>
         negb (buffer_size spec - StepDict.len (item_steps point) <? longest)
     | Raise _ => false
     end.

(** The search points one invocation of the engine can construct. *)
Inductive reachable : SearchStackItem -> Prop :=
| reachable_initial items point :
    initial_items spec = OK items ->
    In point items ->
    reachable point
| reachable_next parent children point :
    reachable parent ->
    is_expanded parent = true ->
    expand spec parent = OK children ->
    In point children ->
    reachable point.

(** At most [n] passes through the loop. *)
Fixpoint dfs_iter (strategy : SolutionStrategy) (n : nat) (st : LoopState)
  : Outcome :=
  match n with
  | O => Continue st
  | S n' =>
      match dfs_step spec strategy st with
      | Continue st' => dfs_iter strategy n' st'
      | Break r => Break r
      end
  end.

(** The loop, as a relation between the state it starts in and what it
    leaves with. *)
Inductive dfs_exits (strategy : SolutionStrategy)
  : LoopState -> result (list Solution) -> Prop :=
| exits_break st r :
    dfs_step spec strategy st = Break r ->
    dfs_exits strategy st r
| exits_continue st st' r :
    dfs_step spec strategy st = Continue st' ->
    dfs_exits strategy st' r ->
    dfs_exits strategy st r.

(** Cells of the matrix not yet on the path of a search point. *)
Definition free_cells (point : SearchStackItem) : nat :=
  length (filter (fun c => negb (StepDict.contains (item_steps point) c))
            (all_cells spec)).

Definition item_weight (point : SearchStackItem) : nat :=
  (2 ^ (branching spec * free_cells point))%nat.

Definition stack_weight (stack : list SearchStackItem) : nat :=
  list_sum (map item_weight stack).

End Reachability.

(** The steps of a search point in the order in which they were taken. *)
Definition path (point : SearchStackItem) : list SolutionStep :=
  StepDict.keys (item_steps point).

Definition path_values (point : SearchStackItem) : list CellValueType :=
  map value (path point).

(** The first step is in row 0, an odd step keeps the column of the step
    before it, an even step keeps its row. *)
Definition alternates (p : list SolutionStep) : Prop :=
  (forall s, nth_error p 0 = Some s -> row_idx s = 0%nat)
  /\ (forall k a b,
        nth_error p k = Some a -> nth_error p (S k) = Some b ->
        if Nat.odd (S k) then col_idx b = col_idx a
        else row_idx b = row_idx a).

(** What a count [r] of an upload sequence records about the values taken
    so far: a count of zero records an occurrence of the sequence, a
    positive count records that its first [len - r] cells have just been
    taken. *)
Definition tracks (values : list CellValueType) (s : UploadSequence.t) (r : Z)
  : Prop :=
  1 <= UploadSequence.len s
  /\ 0 <= r <= UploadSequence.len s
  /\ (r = 0 -> contiguous_run (UploadSequence.cells s) values)
  /\ (0 < r ->
      exists before,
        values
        = before ++ firstn (Z.to_nat (UploadSequence.len s - r))
                      (UploadSequence.cells s)).

Section Invariant.

Variable spec : GameSpecification.

Record item_ok (point : SearchStackItem) : Prop := {
  ok_index :
    map snd (item_steps point)
    = map Z.of_nat (seq 0 (length (item_steps point)));
  ok_current : exists before, path point = before ++ [current_step point];
  ok_nodup : NoDup (path point);
  ok_alternates : alternates (path point);
  ok_direction :
    next_pick_direction point
    = if Nat.odd (length (path point)) then COLUMN else ROW;
  ok_buffer : Z.of_nat (length (path point)) <= Z.max 1 (buffer_size spec);
  ok_tracks :
    Forall2 (tracks (path_values point)) (upload_sequences spec)
      (incomplete_sequence_length point)
}.

(** A solution is the path of an accepted search point. *)
Definition accepted_from (point : SearchStackItem) (sol : Solution) : Prop :=
  reachable spec point
  /\ py_sum (incomplete_sequence_length point) = 0
  /\ sol = mkSolution (ordered_steps point).

Definition state_ok (st : LoopState) : Prop :=
  Forall (reachable spec) (search_stack st)
  /\ Forall (fun sol => exists point, accepted_from point sol) (solutions st).

End Invariant.

(** The specifications [solve] attempts in turn: [attempts strategy spec
    final] holds when the engine found nothing for [spec] and for each
    relaxation of it before [final]. *)
Inductive attempts (strategy : SolutionStrategy)
  : GameSpecification -> GameSpecification -> Prop :=
| attempts_here spec : attempts strategy spec spec
| attempts_relaxed spec lowest rest final :
    _solve_internal spec strategy = OK [] ->
    unique_priorities spec = lowest :: rest ->
    rest <> [] ->
    attempts strategy (updated_spec spec lowest) final ->
    attempts strategy spec final.

(** The progress rule in the words of the specification: a count of zero
    stays zero; otherwise the expected value is [sequence[len - r]], a match
    lowers the count by one and a mismatch resets it to the length. *)
Definition progress_rule (s : UploadSequence.t) (r : Z) (v : CellValueType)
  : result Z :=
  if r =? 0 then OK 0
  else
    expected <- py_getitem (UploadSequence.cells s) (UploadSequence.len s - r) ;;
    OK (if String.eqb expected v then r - 1 else UploadSequence.len s).

(** The search point on top of the stack after [n] passes through the loop
    of [_solve_internal]. *)
Definition top_after (spec : GameSpecification) (strategy : SolutionStrategy)
  (n : nat) : option SearchStackItem :=
  match initial_items spec with
  | OK items =>
      match dfs_iter spec strategy n (mkLoopState (rev items) []) with
      | Continue st => hd_error (search_stack st)
      | Break _ => None
      end
  | Raise _ => None
  end.

(** The order [sorted] arranges a list in. *)
Definition key_le {A : Type} (key : A -> Z) (x y : A) : Prop :=
  key x <= key y.

(** Some row's length differs from the number of rows, or there is no row. *)
Definition not_square (rows : list (list CellValueType)) : Prop :=
  (exists row, In row rows /\ length row <> length rows)
  \/ (length rows <= 0)%nat.

(** The search point and the solution of one cell of the initial row. *)
Definition single_step_item (cell : nat * CellValueType) : SearchStackItem :=
  let step := mkSolutionStep (snd cell) 0 (fst cell) in
  {| item_steps := [(step, 0)];
     current_step := step;
     incomplete_sequence_length := [];
     next_pick_direction := COLUMN |}.

Definition single_step_solution (cell : nat * CellValueType) : Solution :=
  mkSolution [mkSolutionStep (snd cell) 0 (fst cell)].

(** The specification with the given matrix and buffer size and no upload
    sequence. *)
Definition without_sequences (matrix : CodeMatrix.t) (size_of_buffer : Z)
  : GameSpecification :=
  {| code_matrix := matrix;
     upload_sequences := [];
     buffer_size := size_of_buffer |}.

(** ** Specifications used as examples *)

Local Open Scope string_scope.

Definition easy_matrix : CodeMatrix.t :=
  CodeMatrix.mk [["BD"; "55"]; ["E9"; "1C"]].

(** [test_solve_single_sequence_easy_matrix] *)
Definition easy_spec : GameSpecification :=
  {| code_matrix := easy_matrix;
     upload_sequences := [UploadSequence.mk ["55"; "1C"] 1];
     buffer_size := 2 |}.

(** The search point of the cell (0, 0) of [easy_spec]. *)
Definition easy_first_point : SearchStackItem :=
  {| item_steps := [(mkSolutionStep "BD" 0 0, 0)];
     current_step := mkSolutionStep "BD" 0 0;
     incomplete_sequence_length := [2];
     next_pick_direction := COLUMN |}.

(** The search point of the cell (0, 1) of [easy_spec], and its child. *)
Definition easy_progress_point : SearchStackItem :=
  {| item_steps := [(mkSolutionStep "55" 0 1, 0)];
     current_step := mkSolutionStep "55" 0 1;
     incomplete_sequence_length := [1];
     next_pick_direction := COLUMN |}.

Definition easy_solved_point : SearchStackItem :=
  {| item_steps := [(mkSolutionStep "55" 0 1, 0); (mkSolutionStep "1C" 1 1, 1)];
     current_step := mkSolutionStep "1C" 1 1;
     incomplete_sequence_length := [0];
     next_pick_direction := ROW |}.

(** [test_no_solutions] *)
Definition unsolvable_spec : GameSpecification :=
  {| code_matrix := easy_matrix;
     upload_sequences := [UploadSequence.mk ["7A"; "1C"] 1];
     buffer_size := 2 |}.

(** [test_solve_one_unique_cell_value] *)
Definition uniform_spec : GameSpecification :=
  {| code_matrix :=
       CodeMatrix.mk [["55"; "55"; "55"]; ["55"; "55"; "55"]; ["55"; "55"; "55"]];
     upload_sequences := [UploadSequence.mk ["55"; "55"; "55"] 1];
     buffer_size := 3 |}.

(** The sequence of priority 1 cannot be taken, the one of priority 2 can. *)
Definition relaxing_spec : GameSpecification :=
  {| code_matrix := easy_matrix;
     upload_sequences :=
       [UploadSequence.mk ["7A"; "1C"] 1; UploadSequence.mk ["55"; "1C"] 2];
     buffer_size := 2 |}.

(** The engine discovers a path of three steps before one of two. *)
Definition mirrored_spec : GameSpecification :=
  {| code_matrix := CodeMatrix.mk [["55"; "1C"]; ["1C"; "55"]];
     upload_sequences := [UploadSequence.mk ["55"; "1C"] 1];
     buffer_size := 3 |}.

(** A matrix whose first column repeats the first value of the sequence. *)
Definition repeated_start_spec : GameSpecification :=
  {| code_matrix := CodeMatrix.mk [["A"; "X"]; ["A"; "B"]];
     upload_sequences := [UploadSequence.mk ["A"; "B"] 1];
     buffer_size := 4 |}.

(** The search point with path (A,0,0), (A,1,0), (B,1,1). *)
Definition repeated_start_point : SearchStackItem :=
  {| item_steps :=
       [(mkSolutionStep "A" 0 0, 0); (mkSolutionStep "A" 1 0, 1);
        (mkSolutionStep "B" 1 1, 2)];
     current_step := mkSolutionStep "B" 1 1;
     incomplete_sequence_length := [2];
     next_pick_direction := COLUMN |}.

Local Close Scope string_scope.


(** The input the solver is written for: a matrix with at least one row
    whose rows all have the same length, and upload sequences that are not
    empty. *)
Definition well_formed (spec : GameSpecification) : Prop :=
  CodeMatrix.cells (code_matrix spec) <> []
  /\ (forall row row',
        In row (CodeMatrix.cells (code_matrix spec)) ->
        In row' (CodeMatrix.cells (code_matrix spec)) ->
        length row = length row')
  /\ (forall s, In s (upload_sequences spec) -> UploadSequence.cells s <> []).


(** [descends spec p q]: the engine builds [q] from [p] by expanding [p]
    and search points built from it. *)
Inductive descends (spec : GameSpecification)
  : SearchStackItem -> SearchStackItem -> Prop :=
| descends_here p : descends spec p p
| descends_next p children c q :
    is_expanded spec p = true ->
    expand spec p = OK children ->
    In c children ->
    descends spec c q ->
    descends spec p q.


(** [extends spec p q]: [q] is built from [p] by the construction of
    children, whether or not the engine expands the search points on the
    way. *)
Inductive extends (spec : GameSpecification)
  : SearchStackItem -> SearchStackItem -> Prop :=
| extends_here p : extends spec p p
| extends_next p children c q :
    expand spec p = OK children ->
    In c children ->
    extends spec c q ->
    extends spec p q.


(** The number of steps taken from [p] to [q]. *)
Definition steps_between (p q : SearchStackItem) : Z :=
  StepDict.len (item_steps q) - StepDict.len (item_steps p).

Local Open Scope string_scope.

(** [mirrored_spec] with a buffer of two. *)
Definition tight_spec : GameSpecification :=
  {| code_matrix := CodeMatrix.mk [["55"; "1C"]; ["1C"; "55"]];
     upload_sequences := [UploadSequence.mk ["55"; "1C"] 1];
     buffer_size := 2 |}.

(** The search points with paths (1C,0,1), then (55,1,1), then (1C,1,0). *)
Definition tight_first_point : SearchStackItem :=
  {| item_steps := [(mkSolutionStep "1C" 0 1, 0)];
     current_step := mkSolutionStep "1C" 0 1;
     incomplete_sequence_length := [2];
     next_pick_direction := COLUMN |}.

Definition tight_second_point : SearchStackItem :=
  {| item_steps := [(mkSolutionStep "1C" 0 1, 0); (mkSolutionStep "55" 1 1, 1)];
     current_step := mkSolutionStep "55" 1 1;
     incomplete_sequence_length := [1];
     next_pick_direction := ROW |}.

Definition tight_third_point : SearchStackItem :=
  {| item_steps :=
       [(mkSolutionStep "1C" 0 1, 0); (mkSolutionStep "55" 1 1, 1);
        (mkSolutionStep "1C" 1 0, 2)];
     current_step := mkSolutionStep "1C" 1 0;
     incomplete_sequence_length := [0];
     next_pick_direction := COLUMN |}.

Local Close Scope string_scope.


(** [q] starts with [p]. *)
Definition is_prefix {X : Type} (p q : list X) : Prop :=
  exists rest, q = p ++ rest.

(** No list of the family starts with another one or occurs twice. *)
Inductive antichain {X : Type} : list (list X) -> Prop :=
| antichain_nil : antichain []
| antichain_cons p family :
    (forall q, In q family -> ~ is_prefix p q /\ ~ is_prefix q p) ->
    antichain family ->
    antichain (p :: family).

(** The paths on the stack followed by the solutions found. *)
Definition family (st : LoopState) : list (list SolutionStep) :=
  map path (search_stack st) ++ map steps (solutions st).


Local Open Scope string_scope.

(** [test_solve_single_sequence_easy_matrix_multiple_solutions] *)
Definition multiple_spec : GameSpecification :=
  {| code_matrix := CodeMatrix.mk [["1C"; "55"]; ["55"; "1C"]];
     upload_sequences := [UploadSequence.mk ["55"; "1C"] 1];
     buffer_size := 3 |}.

(** [test_solve_must_consume_irrelevant_cells_in_the_beginning] *)
Definition beginning_spec : GameSpecification :=
  {| code_matrix :=
       CodeMatrix.mk
         [["BD"; "7A"; "C8"]; ["1C"; "55"; "55"]; ["55"; "E9"; "1C"]];
     upload_sequences := [UploadSequence.mk ["55"; "1C"] 1];
     buffer_size := 3 |}.

(** [test_solve_must_consume_irrelevant_cells_in_the_middle] *)
Definition middle_spec : GameSpecification :=
  {| code_matrix :=
       CodeMatrix.mk
         [["BD"; "7A"; "7A"; "FF"]; ["1C"; "55"; "55"; "FF"];
          ["55"; "E9"; "1C"; "FF"]; ["C8"; "C8"; "7A"; "FF"]];
     upload_sequences :=
       [UploadSequence.mk ["BD"; "55"] 1;
        UploadSequence.mk ["C8"; "1C"; "55"] 2;
        UploadSequence.mk ["55"; "E9"; "FF"] 3];
     buffer_size := 9 |}.

(** [test_solve_partial_must_discard_lower_priorities] *)
Definition partial_spec : GameSpecification :=
  {| code_matrix :=
       CodeMatrix.mk
         [["1C"; "BD"; "55"; "E9"; "55"]; ["1C"; "BD"; "1C"; "55"; "E9"];
          ["55"; "E9"; "E9"; "BD"; "BD"]; ["55"; "FF"; "FF"; "1C"; "1C"];
          ["FF"; "E9"; "1C"; "BD"; "FF"]];
     upload_sequences :=
       [UploadSequence.mk ["1C"; "1C"; "55"] 1;
        UploadSequence.mk ["55"; "FF"; "1C"] 2;
        UploadSequence.mk ["BD"; "E9"; "BD"; "55"] 3;
        UploadSequence.mk ["55"; "1C"; "FF"; "BD"] 4];
     buffer_size := 8 |}.

Local Close Scope string_scope.


Local Open Scope string_scope.

(** A buffer of zero and a sequence of one cell. *)
Definition zero_buffer_spec : GameSpecification :=
  {| code_matrix := easy_matrix;
     upload_sequences := [UploadSequence.mk ["55"] 1];
     buffer_size := 0 |}.

Local Close Scope string_scope.

(** ** The error monad and the built-ins *)

Lemma bind_OK {A B : Type} (r : result A) (k : A -> result B) (b : B) :
  bind r k = OK b -> exists a, r = OK a /\ k a = OK b.
Proof.
  destruct r as [a | e]; simpl; intros H.
  - exists a. split; [reflexivity | exact H].
  - discriminate.
Qed.

Ltac inv_bind H :=
  let a := fresh "a" in
  let Ha := fresh "Ha" in
  apply bind_OK in H; destruct H as (a & Ha & H).

Lemma mapM_OK {A B : Type} (f : A -> result B) (l : list A) (ys : list B) :
  mapM f l = OK ys -> Forall2 (fun x y => f x = OK y) l ys.
Proof.
  revert ys. induction l as [| x l IH]; simpl; intros ys H.
  - injection H as <-. constructor.
  - inv_bind H. inv_bind H. injection H as <-.
    constructor; [assumption | apply IH; assumption].
Qed.

Lemma mapM_length {A B : Type} (f : A -> result B) (l : list A) (ys : list B) :
  mapM f l = OK ys -> length ys = length l.
Proof.
  intros H. apply mapM_OK in H. symmetry. eapply Forall2_length. exact H.
Qed.

Lemma Forall2_nth_error_r {A B : Type} (R : A -> B -> Prop) l1 l2 i y :
  Forall2 R l1 l2 -> nth_error l2 i = Some y ->
  exists x, nth_error l1 i = Some x /\ R x y.
Proof.
  intros H. revert i. induction H as [| a b l1 l2 Hab _ IH]; intros i Hi.
  - destruct i; discriminate.
  - destruct i as [| i]; simpl in *.
    + injection Hi as <-. exists a. split; [reflexivity | assumption].
    + apply IH. assumption.
Qed.

Lemma py_getitem_nat {A : Type} (l : list A) (i : nat) (x : A) :
  py_getitem l (Z.of_nat i) = OK x <-> nth_error l i = Some x.
Proof.
  unfold py_getitem.
  destruct (Z.ltb_spec (Z.of_nat i) 0) as [Hneg | _]; [lia |].
  destruct (Z.ltb_spec (Z.of_nat i) 0) as [Hneg | _]; [lia |].
  rewrite Nat2Z.id. simpl.
  destruct (Z.leb_spec (Z.of_nat (length l)) (Z.of_nat i)) as [Hle | Hlt].
  - split; [discriminate |]. intros H.
    assert (i < length l)%nat by (apply nth_error_Some; congruence). lia.
  - destruct (nth_error l i) as [y |] eqn:E.
    + split; intros H; injection H as <-; reflexivity.
    + split; discriminate.
Qed.

(** [l[-r]] succeeds exactly for [1 <= r <= len(l)] (when [r] is positive)
    and reads position [len(l) - r]. *)
Lemma py_getitem_neg {A : Type} (l : list A) (r : Z) (x : A) :
  0 < r ->
  py_getitem l (- r) = OK x ->
  r <= Z.of_nat (length l)
  /\ nth_error l (Z.to_nat (Z.of_nat (length l) - r)) = Some x.
Proof.
  intros Hr. unfold py_getitem.
  destruct (Z.ltb_spec (- r) 0) as [_ | Hge]; [| lia].
  replace (- r + Z.of_nat (length l)) with (Z.of_nat (length l) - r) by lia.
  destruct (Z.ltb_spec (Z.of_nat (length l) - r) 0) as [Hlt | Hge]; simpl;
    [discriminate |].
  destruct (Z.leb_spec (Z.of_nat (length l)) (Z.of_nat (length l) - r))
    as [Hle | Hlt]; [discriminate |].
  destruct (nth_error l (Z.to_nat (Z.of_nat (length l) - r))) as [y |];
    [| discriminate].
  intros Hy. injection Hy as <-. split; [lia | reflexivity].
Qed.

Lemma In_enumerate_from {A : Type} (l : list A) (start i : nat) (x : A) :
  In (i, x) (combine (seq start (length l)) l)
  <-> (start <= i)%nat /\ nth_error l (i - start) = Some x.
Proof.
  revert start. induction l as [| y l IH]; intros start; simpl.
  - split; [contradiction |]. intros [_ H]. destruct (i - start)%nat; discriminate.
  - rewrite IH. split.
    + intros [H | [Hle H]].
      * injection H as -> ->. split; [lia |]. now rewrite Nat.sub_diag.
      * split; [lia |]. replace (i - start)%nat with (S (i - S start)) by lia.
        exact H.
    + intros [Hle H]. destruct (i - start)%nat as [| k] eqn:E.
      * left. injection H as ->. f_equal. lia.
      * right. split; [lia |]. replace (i - S start)%nat with k by lia. exact H.
Qed.

Lemma In_enumerate {A : Type} (l : list A) (i : nat) (x : A) :
  In (i, x) (enumerate l) <-> nth_error l i = Some x.
Proof.
  unfold enumerate. rewrite In_enumerate_from, Nat.sub_0_r.
  split; [intros [_ H]; exact H | intros H; split; [lia | exact H]].
Qed.

Lemma enumerate_length {A : Type} (l : list A) :
  length (enumerate l) = length l.
Proof.
  unfold enumerate. rewrite length_combine, length_seq. apply Nat.min_id.
Qed.

Lemma SolutionStep_eqb_eq (a b : SolutionStep) :
  SolutionStep_eqb a b = true <-> a = b.
Proof.
  unfold SolutionStep_eqb. rewrite !andb_true_iff, String.eqb_eq, !Nat.eqb_eq.
  destruct a, b; simpl. split.
  - intros [[-> ->] ->]. reflexivity.
  - intros H. injection H as -> -> ->. auto.
Qed.

Lemma StepDict_contains_In (d : StepDict.t) (k : SolutionStep) :
  StepDict.contains d k = true <-> In k (StepDict.keys d).
Proof.
  unfold StepDict.contains, StepDict.keys. rewrite existsb_exists, in_map_iff.
  split; intros ([k' v] & H1 & H2); exists (k', v); simpl in *.
  - apply SolutionStep_eqb_eq in H2. auto.
  - split; [assumption | apply SolutionStep_eqb_eq; assumption].
Qed.

Lemma StepDict_set_fresh (d : StepDict.t) (k : SolutionStep) (v : Z) :
  StepDict.contains d k = false -> StepDict.set d k v = d ++ [(k, v)].
Proof.
  induction d as [| [k' v'] d IH]; simpl; intros H; [reflexivity |].
  apply orb_false_iff in H. destruct H as [H1 H2].
  rewrite H1, IH by assumption. reflexivity.
Qed.

Lemma concat_map_length_ge {A B : Type} (f : A -> list B) (l : list A) (x : A) :
  In x l -> (length (f x) <= length (concat (map f l)))%nat.
Proof.
  induction l as [| y l IH]; simpl; [contradiction |].
  rewrite length_app. intros [-> | H].
  - apply Nat.le_add_r.
  - apply IH in H. eapply Nat.le_trans; [exact H |].
    rewrite Nat.add_comm. apply Nat.le_add_r.
Qed.

Lemma Forall2_Forall_r {A B : Type} (R : A -> B -> Prop) (P : B -> Prop) l1 l2 :
  Forall2 R l1 l2 ->
  (forall x y, In x l1 -> R x y -> P y) ->
  Forall P l2.
Proof.
  induction 1 as [| x y l1 l2 Hxy _ IH]; intros HP; constructor.
  - apply (HP x y); [left; reflexivity | exact Hxy].
  - apply IH. intros x' y' Hin. apply HP. right. exact Hin.
Qed.

(** ** The candidates of a search point *)

Section Candidates.

Variable spec : GameSpecification.

Lemma push_next_steps_mapM point direction candidates :
  push_next_steps spec point direction candidates
  = mapM (next_search_point spec point direction)
      (filter (fun c => negb (StepDict.contains (item_steps point) c))
         candidates).
Proof.
  induction candidates as [| c rest IH]; simpl; [reflexivity |].
  destruct (StepDict.contains (item_steps point) c); simpl.
  - exact IH.
  - rewrite IH. reflexivity.
Qed.

Lemma In_all_cells (c : SolutionStep) :
  In c (all_cells spec)
  <-> exists row,
        nth_error (CodeMatrix.cells (code_matrix spec)) (row_idx c) = Some row
        /\ nth_error row (col_idx c) = Some (value c).
Proof.
  unfold all_cells. rewrite in_concat. split.
  - intros (l & Hl & Hc). apply in_map_iff in Hl.
    destruct Hl as ([i row] & <- & Hrow). apply In_enumerate in Hrow.
    apply in_map_iff in Hc. destruct Hc as ([j v] & <- & Hv).
    apply In_enumerate in Hv. simpl in *. exists row. auto.
  - intros (row & Hrow & Hv).
    exists (map (fun x => mkSolutionStep (snd x) (row_idx c) (fst x))
              (enumerate row)).
    split.
    + apply in_map_iff. exists (row_idx c, row). split; [reflexivity |].
      apply In_enumerate. exact Hrow.
    + apply in_map_iff. exists (col_idx c, value c). split.
      * destruct c; reflexivity.
      * apply In_enumerate. exact Hv.
Qed.

Lemma row_length_all_cells (i : nat) (row : list CellValueType) :
  nth_error (CodeMatrix.cells (code_matrix spec)) i = Some row ->
  (length row <= length (all_cells spec))%nat.
Proof.
  intros H. apply In_enumerate in H. unfold all_cells.
  eapply Nat.le_trans; [| eapply concat_map_length_ge; exact H].
  simpl. rewrite length_map, enumerate_length. apply Nat.le_refl.
Qed.

Lemma next_steps_in_cells point candidates direction :
  next_steps spec point = OK (candidates, direction) ->
  forall c, In c candidates -> In c (all_cells spec).
Proof.
  unfold next_steps, CodeMatrix.iterate_row, CodeMatrix.iterate_col.
  destruct (next_pick_direction point); intros H c Hc.
  - inv_bind H. inv_bind Ha. injection Ha as <-. injection H as <- _.
    apply py_getitem_nat in Ha0.
    apply in_map_iff in Hc. destruct Hc as ([j v] & <- & Hv).
    apply filter_In in Hv. destruct Hv as [Hv _]. apply In_enumerate in Hv.
    apply In_all_cells. simpl. eauto.
  - inv_bind H. inv_bind Ha. injection Ha as <-. injection H as <- _.
    apply mapM_OK in Ha0.
    apply in_map_iff in Hc. destruct Hc as ([i v] & <- & Hv).
    apply filter_In in Hv. destruct Hv as [Hv _]. apply In_enumerate in Hv.
    destruct (Forall2_nth_error_r _ _ _ _ _ Ha0 Hv) as (row & Hrow & Hget).
    apply py_getitem_nat in Hget.
    apply In_all_cells. simpl. eauto.
Qed.

Lemma next_steps_length point candidates direction :
  next_steps spec point = OK (candidates, direction) ->
  (length candidates <= branching spec)%nat.
Proof.
  unfold next_steps, CodeMatrix.iterate_row, CodeMatrix.iterate_col, branching.
  destruct (next_pick_direction point); intros H.
  - inv_bind H. inv_bind Ha. injection Ha as <-. injection H as <- _.
    apply py_getitem_nat in Ha0. apply row_length_all_cells in Ha0.
    rewrite length_map.
    etransitivity; [apply filter_length_le |]. rewrite enumerate_length. lia.
  - inv_bind H. inv_bind Ha. injection Ha as <-. injection H as <- _.
    apply mapM_length in Ha0. rewrite length_map.
    etransitivity; [apply filter_length_le |]. rewrite enumerate_length.
    unfold CodeMatrix.size. lia.
Qed.

End Candidates.

(** ** The loop leaves: every pass lowers the weight of the stack *)

Section Termination.

Variable spec : GameSpecification.
Variable strategy : SolutionStrategy.

Local Open Scope nat_scope.

Lemma filter_length_lt {A : Type} (f g : A -> bool) (l : list A) (x : A) :
  (forall y, g y = true -> f y = true) ->
  In x l -> f x = true -> g x = false ->
  length (filter g l) < length (filter f l).
Proof.
  intros Hgf. induction l as [| y l IH]; simpl; [contradiction |].
  assert (Hle : forall l', length (filter g l') <= length (filter f l')).
  { induction l' as [| z l' IHl]; simpl; [apply Nat.le_refl |].
    destruct (g z) eqn:Eg.
    - rewrite (Hgf z Eg). simpl. apply le_n_S. exact IHl.
    - destruct (f z); simpl; [apply Nat.le_le_succ_r |]; exact IHl. }
  intros [-> | Hin] Hf Hg.
  - rewrite Hf, Hg. simpl. apply Nat.lt_succ_r. apply Hle.
  - specialize (IH Hin Hf Hg). destruct (g y) eqn:Eg.
    + rewrite (Hgf y Eg). simpl. apply Nat.succ_lt_mono in IH. exact IH.
    + destruct (f y); simpl; [apply Nat.lt_lt_succ_r |]; exact IH.
Qed.

Lemma StepDict_contains_app (d1 d2 : StepDict.t) (k : SolutionStep) :
  StepDict.contains (d1 ++ d2) k
  = StepDict.contains d1 k || StepDict.contains d2 k.
Proof. unfold StepDict.contains. apply existsb_app. Qed.

Lemma free_cells_next point direction c child :
  next_search_point spec point direction c = OK child ->
  StepDict.contains (item_steps point) c = false ->
  In c (all_cells spec) ->
  free_cells spec child < free_cells spec point.
Proof.
  unfold next_search_point. intros H Hfresh Hin. inv_bind H.
  injection H as <-. unfold free_cells. simpl.
  rewrite StepDict_set_fresh by assumption.
  apply filter_length_lt with (x := c).
  - intros y. rewrite StepDict_contains_app, negb_orb, andb_true_iff. tauto.
  - exact Hin.
  - rewrite Hfresh. reflexivity.
  - rewrite StepDict_contains_app. simpl.
    replace (SolutionStep_eqb c c) with true
      by (symmetry; apply SolutionStep_eqb_eq; reflexivity).
    rewrite orb_true_r. reflexivity.
Qed.

Lemma item_weight_pos point : 1 <= item_weight spec point.
Proof.
  unfold item_weight. apply Nat.neq_0_lt_0, Nat.pow_nonzero. discriminate.
Qed.

Lemma stack_weight_cons point s :
  stack_weight spec (point :: s) = item_weight spec point + stack_weight spec s.
Proof. reflexivity. Qed.

Lemma stack_weight_app s1 s2 :
  stack_weight spec (s1 ++ s2) = stack_weight spec s1 + stack_weight spec s2.
Proof. unfold stack_weight. rewrite map_app, list_sum_app. reflexivity. Qed.

Lemma stack_weight_rev s : stack_weight spec (rev s) = stack_weight spec s.
Proof.
  induction s as [| x s IH]; simpl; [reflexivity |].
  rewrite stack_weight_app, IH. unfold stack_weight. simpl. lia.
Qed.

Lemma stack_weight_bound (w : nat) (s : list SearchStackItem) :
  Forall (fun point => item_weight spec point <= w) s ->
  stack_weight spec s <= length s * w.
Proof.
  induction 1 as [| x s Hx _ IH]; simpl; [apply Nat.le_refl |].
  unfold stack_weight in *. simpl. lia.
Qed.

Lemma expand_free_cells point children :
  expand spec point = OK children ->
  length children <= branching spec
  /\ Forall (fun child => free_cells spec child < free_cells spec point)
       children.
Proof.
  unfold expand. intros H. inv_bind H. destruct a as [candidates direction].
  simpl in H. rewrite push_next_steps_mapM in H.
  pose proof (next_steps_in_cells _ _ _ _ Ha) as Hcells.
  pose proof (next_steps_length _ _ _ _ Ha) as Hlen.
  split.
  - rewrite (mapM_length _ _ _ H).
    eapply Nat.le_trans; [apply filter_length_le | exact Hlen].
  - apply mapM_OK in H.
    eapply Forall2_Forall_r; [exact H |].
    intros c child Hc Hchild. apply filter_In in Hc. destruct Hc as [Hc Hfresh].
    apply negb_true_iff in Hfresh. simpl in Hchild.
    eapply free_cells_next; eauto.
Qed.

Lemma expand_weight point children :
  expand spec point = OK children ->
  stack_weight spec children < item_weight spec point.
Proof.
  intros H. apply expand_free_cells in H. destruct H as [Hlen Hfree].
  destruct children as [| child0 rest] eqn:E.
  { apply item_weight_pos. }
  rewrite <- E in *.
  assert (Hpos : 1 <= free_cells spec point).
  { rewrite E in Hfree. inversion Hfree; subst. lia. }
  set (b := branching spec) in *. set (f := free_cells spec point) in *.
  assert (Hw : Forall (fun child => item_weight spec child <= 2 ^ (b * (f - 1)))
                 children).
  { eapply Forall_impl; [| exact Hfree]. intros child Hc. cbv beta in Hc.
    unfold item_weight.
    apply Nat.pow_le_mono_r; [discriminate |]. fold b.
    apply Nat.mul_le_mono_l. lia. }
  apply stack_weight_bound in Hw.
  eapply Nat.le_lt_trans; [exact Hw |].
  unfold item_weight. fold b f.
  replace (b * f) with (b + b * (f - 1)) by nia.
  rewrite Nat.pow_add_r.
  assert (Hb : b < 2 ^ b) by (apply Nat.pow_gt_lin_r; lia).
  assert (Hp : 1 <= 2 ^ (b * (f - 1)))
    by (apply Nat.neq_0_lt_0, Nat.pow_nonzero; discriminate).
  nia.
Qed.

Lemma dfs_step_decreases st st' :
  dfs_step spec strategy st = Continue st' ->
  stack_weight spec (search_stack st') < stack_weight spec (search_stack st).
Proof.
  unfold dfs_step. destruct (search_stack st) as [| point stack];
    [discriminate |].
  assert (Hpop : stack_weight spec stack < stack_weight spec (point :: stack)).
  { pose proof (item_weight_pos point). rewrite stack_weight_cons. lia. }
  destruct (py_sum (incomplete_sequence_length point) =? 0)%Z.
  { destruct strategy; [discriminate |]. intros H. injection H as <-. exact Hpop. }
  destruct (py_max (incomplete_sequence_length point)) as [longest |];
    [| discriminate].
  destruct (_ <? longest)%Z.
  { intros H. injection H as <-. exact Hpop. }
  destruct (expand spec point) as [children |] eqn:E; [| discriminate].
  intros H. injection H as <-. simpl.
  rewrite stack_weight_app, stack_weight_rev.
  apply expand_weight in E. rewrite stack_weight_cons. lia.
Qed.

Lemma dfs_iter_leaves (n : nat) (st : LoopState) :
  stack_weight spec (search_stack st) < n ->
  exists r, dfs_iter spec strategy n st = Break r.
Proof.
  revert st. induction n as [| n IH]; intros st Hw; [lia |].
  simpl. destruct (dfs_step spec strategy st) as [st' | r] eqn:E.
  - apply IH. apply dfs_step_decreases in E. lia.
  - exists r. reflexivity.
Qed.

Lemma dfs_iter_add (n m : nat) (st : LoopState) :
  dfs_iter spec strategy (n + m) st
  = match dfs_iter spec strategy n st with
    | Continue st' => dfs_iter spec strategy m st'
    | Break r => Break r
    end.
Proof.
  revert st. induction n as [| n IH]; intros st; simpl; [reflexivity |].
  destruct (dfs_step spec strategy st); [apply IH | reflexivity].
Qed.

Lemma dfs_run_iter (depth : nat) (st : LoopState) :
  dfs_run spec strategy depth st = dfs_iter spec strategy (2 ^ depth) st.
Proof.
  revert st. induction depth as [| depth IH]; intros st.
  - simpl. destruct (dfs_step spec strategy st); reflexivity.
  - cbn [dfs_run].
    replace (2 ^ S depth) with (2 ^ depth + 2 ^ depth)
      by (rewrite Nat.pow_succ_r'; lia).
    rewrite dfs_iter_add, IH.
    destruct (dfs_iter spec strategy (2 ^ depth) st); [apply IH | reflexivity].
Qed.

Lemma free_cells_le point : free_cells spec point <= length (all_cells spec).
Proof. unfold free_cells. apply filter_length_le. Qed.

Lemma stack_weight_depth (st : LoopState) :
  stack_weight spec (search_stack st) < 2 ^ loop_depth spec st.
Proof.
  unfold loop_depth.
  set (b := branching spec). set (n := length (all_cells spec)).
  assert (Hw : Forall (fun point => item_weight spec point <= 2 ^ (b * n))
                 (search_stack st)).
  { apply Forall_forall. intros point _. unfold item_weight.
    apply Nat.pow_le_mono_r; [discriminate |].
    apply Nat.mul_le_mono_l. apply free_cells_le. }
  apply stack_weight_bound in Hw.
  eapply Nat.le_lt_trans; [exact Hw |].
  rewrite !Nat.pow_add_r. simpl (2 ^ 1).
  set (k := length (search_stack st)).
  assert (Hk : k < 2 ^ k) by (apply Nat.pow_gt_lin_r; lia).
  assert (Hp : 1 <= 2 ^ (b * n))
    by (apply Nat.neq_0_lt_0, Nat.pow_nonzero; discriminate).
  nia.
Qed.

Lemma dfs_iter_exits (n : nat) (st : LoopState) (r : result (list Solution)) :
  dfs_iter spec strategy n st = Break r -> dfs_exits spec strategy st r.
Proof.
  revert st. induction n as [| n IH]; intros st; simpl; [discriminate |].
  destruct (dfs_step spec strategy st) as [st' | r'] eqn:E; intros H.
  - eapply exits_continue; [exact E | apply IH; exact H].
  - injection H as <-. apply exits_break. exact E.
Qed.

Lemma dfs_exits_deterministic st r1 r2 :
  dfs_exits spec strategy st r1 -> dfs_exits spec strategy st r2 -> r1 = r2.
Proof.
  intros H1. revert r2. induction H1 as [st r H | st st' r H _ IH];
    intros r2 H2; inversion H2; subst; try congruence.
  apply IH. congruence.
Qed.

(** The loop always leaves, and [dfs_loop] is what it leaves with. *)
Lemma dfs_loop_exits (st : LoopState) :
  dfs_exits spec strategy st (dfs_loop spec strategy st).
Proof.
  unfold dfs_loop. rewrite dfs_run_iter.
  destruct (dfs_iter_leaves _ st (stack_weight_depth st)) as [r Hr].
  rewrite Hr. eapply dfs_iter_exits. exact Hr.
Qed.

Lemma dfs_loop_unfold (st : LoopState) :
  dfs_loop spec strategy st
  = match dfs_step spec strategy st with
    | Continue st' => dfs_loop spec strategy st'
    | Break r => r
    end.
Proof.
  apply dfs_exits_deterministic with (st := st); [apply dfs_loop_exits |].
  destruct (dfs_step spec strategy st) as [st' | r] eqn:E.
  - eapply exits_continue; [exact E | apply dfs_loop_exits].
  - apply exits_break. exact E.
Qed.

End Termination.

(** ** Facts about [sorted], [sum] and [max] *)

Section SortedFacts.

Context {A : Type} (key : A -> Z).

Lemma insert_by_perm (x : A) (l : list A) :
  Permutation (x :: l) (insert_by key x l).
Proof.
  induction l as [| y l IH]; simpl; [reflexivity |].
  destruct (key x <=? key y); [reflexivity |].
  rewrite perm_swap. constructor. exact IH.
Qed.

Lemma sorted_by_perm (l : list A) : Permutation l (sorted_by key l).
Proof.
  induction l as [| x l IH]; simpl; [constructor |].
  rewrite <- insert_by_perm. constructor. exact IH.
Qed.

Lemma insert_by_sorted (x : A) (l : list A) :
  Sorted (key_le key) l -> Sorted (key_le key) (insert_by key x l).
Proof.
  induction 1 as [| y l Hl IH Hhd]; simpl.
  - repeat constructor.
  - destruct (Z.leb_spec (key x) (key y)) as [Hle | Hlt].
    + constructor; [constructor; assumption |]. constructor. exact Hle.
    + constructor; [exact IH |].
      destruct l as [| z l]; simpl.
      * constructor. unfold key_le. lia.
      * inversion Hhd; subst.
        destruct (key x <=? key z); constructor; unfold key_le in *; lia.
Qed.

Lemma sorted_by_sorted (l : list A) : Sorted (key_le key) (sorted_by key l).
Proof.
  induction l as [| x l IH]; simpl; [constructor |].
  apply insert_by_sorted. exact IH.
Qed.

Lemma insert_by_head (x : A) (l : list A) :
  HdRel (key_le key) x l -> insert_by key x l = x :: l.
Proof.
  destruct 1 as [| y l Hxy]; simpl; [reflexivity |].
  unfold key_le in Hxy. destruct (Z.leb_spec (key x) (key y)); [reflexivity | lia].
Qed.

(** Sorting a list that is in order leaves it as it is. *)
Lemma sorted_by_id (l : list A) : Sorted (key_le key) l -> sorted_by key l = l.
Proof.
  induction 1 as [| x l _ IH Hhd]; simpl; [reflexivity |].
  rewrite IH. apply insert_by_head. exact Hhd.
Qed.

(** Stability: the elements of one key keep their relative order. *)
Lemma insert_by_filter (k : Z) (x : A) (l : list A) :
  Sorted (key_le key) l ->
  filter (fun y => key y =? k) (insert_by key x l)
  = filter (fun y => key y =? k) (x :: l).
Proof.
  induction 1 as [| y l Hl IH Hhd]; [reflexivity |].
  cbn [insert_by]. destruct (Z.leb_spec (key x) (key y)) as [Hle | Hlt];
    [reflexivity |].
  cbn [filter] in *. rewrite IH.
  destruct (Z.eqb_spec (key x) k) as [Hx | Hx];
    destruct (Z.eqb_spec (key y) k) as [Hy | Hy]; try reflexivity.
  lia.
Qed.

Lemma sorted_by_filter (k : Z) (l : list A) :
  filter (fun y => key y =? k) (sorted_by key l)
  = filter (fun y => key y =? k) l.
Proof.
  induction l as [| x l IH]; [reflexivity |].
  cbn [sorted_by]. rewrite insert_by_filter by apply sorted_by_sorted.
  cbn [filter]. rewrite IH. reflexivity.
Qed.

End SortedFacts.

Lemma py_sum_zero (l : list Z) :
  Forall (fun r => 0 <= r) l -> py_sum l = 0 -> Forall (fun r => r = 0) l.
Proof.
  induction 1 as [| x l Hx Hl IH]; simpl; intros Hsum; [constructor |].
  assert (Hnn : 0 <= py_sum l).
  { clear - Hl. induction Hl as [| y l Hy _ IH]; simpl; lia. }
  constructor; [lia | apply IH; lia].
Qed.

Lemma fold_left_max_ge (l : list Z) (x : Z) :
  x <= fold_left Z.max l x /\ Forall (fun y => y <= fold_left Z.max l x) l.
Proof.
  revert x. induction l as [| y l IH]; intros x; simpl.
  - split; [lia | constructor].
  - destruct (IH (Z.max x y)) as [H1 H2]. split; [lia |].
    constructor; [lia | exact H2].
Qed.

(** A vector of non-negative counts that does not sum to zero has a
    positive maximum. *)
Lemma py_max_positive (l : list Z) (longest : Z) :
  Forall (fun r => 0 <= r) l -> py_sum l <> 0 -> py_max l = OK longest ->
  1 <= longest.
Proof.
  intros Hnn Hsum Hmax. destruct l as [| x l]; [discriminate |].
  injection Hmax as <-.
  destruct (fold_left_max_ge l x) as [Hx Hl].
  assert (Hex : Exists (fun r => 1 <= r) (x :: l)).
  { apply Exists_exists. clear Hx Hl. induction Hnn as [| y l' Hy Hl' IH]; [contradiction Hsum; reflexivity |].
    simpl in Hsum. destruct (Z.eq_dec y 0) as [-> | Hy0].
    - destruct IH as (r & Hr & Hr1); [simpl in Hsum; lia |].
      exists r. split; [right; exact Hr | exact Hr1].
    - exists y. split; [left; reflexivity | lia]. }
  apply Exists_exists in Hex. destruct Hex as (r & [<- | Hr] & Hr1); [lia |].
  rewrite Forall_forall in Hl. specialize (Hl r Hr). lia.
Qed.

Lemma firstn_succ_nth_error {A : Type} (l : list A) (k : nat) (x : A) :
  nth_error l k = Some x -> firstn (S k) l = firstn k l ++ [x].
Proof.
  revert k. induction l as [| y l IH]; intros k H.
  - destruct k; discriminate.
  - destruct k as [| k]; simpl in *.
    + injection H as ->. reflexivity.
    + f_equal. apply IH. exact H.
Qed.

(** ** The invariant of the search points *)

Section InvariantFacts.

Variable spec : GameSpecification.

Ltac split_tracks := split; [| split; [| split]].

Lemma contiguous_run_app {A : Type} (needle hay extra : list A) :
  contiguous_run needle hay -> contiguous_run needle (hay ++ extra).
Proof.
  intros (before & after & ->). exists before, (after ++ extra).
  rewrite <- !app_assoc. reflexivity.
Qed.

Lemma initial_incomplete_tracks (v : CellValueType) (s : UploadSequence.t) (r : Z) :
  initial_incomplete v s = OK r -> tracks [v] s r.
Proof.
  unfold initial_incomplete, UploadSequence.getitem, tracks, UploadSequence.len.
  intros H. inv_bind H. injection H as <-.
  apply (py_getitem_nat _ 0%nat) in Ha.
  destruct (UploadSequence.cells s) as [| c cs]; [discriminate |].
  simpl in Ha. injection Ha as ->.
  cbn [length]. rewrite Nat2Z.inj_succ.
  destruct (String.eqb_spec a v) as [-> | Hne]; split_tracks; try lia.
  - intros Hr. destruct cs as [| c cs]; [| cbn [length] in Hr; lia].
    exists [], []. reflexivity.
  - intros _. exists [].
    replace (Z.succ (Z.of_nat (length cs)) - (Z.succ (Z.of_nat (length cs)) - 1))
      with 1 by lia.
    reflexivity.
  - intros _. exists [v]. rewrite Z.sub_0_r, Z.sub_diag. reflexivity.
Qed.

Lemma next_incomplete_tracks values (v : CellValueType) s (r r' : Z) :
  tracks values s r ->
  next_incomplete v (s, r) = OK r' ->
  tracks (values ++ [v]) s r'.
Proof.
  intros (Hlen & Hr & Hdone & Hpart). unfold next_incomplete.
  destruct (Z.eqb_spec r 0) as [-> | Hr0].
  - intros H. injection H as <-. split_tracks; try lia.
    intros _. apply contiguous_run_app. apply Hdone. reflexivity.
  - intros H. inv_bind H. injection H as <-.
    unfold UploadSequence.getitem in Ha.
    apply py_getitem_neg in Ha; [| lia]. destruct Ha as [_ Hnth].
    fold (UploadSequence.len s) in Hnth.
    destruct Hpart as [before Hvalues]; [lia |].
    destruct (String.eqb_spec a v) as [-> | Hne]; split_tracks; try lia.
    + intros Hr1. exists before, []. rewrite app_nil_r, Hvalues.
      rewrite <- app_assoc, <- (firstn_succ_nth_error _ _ _ Hnth). f_equal.
      apply firstn_all2. unfold UploadSequence.len in *. lia.
    + intros Hpos. exists before.
      rewrite Hvalues, <- app_assoc, <- (firstn_succ_nth_error _ _ _ Hnth).
      do 2 f_equal. lia.
    + intros _. exists (values ++ [v]).
      rewrite Z.sub_diag. simpl. rewrite app_nil_r. reflexivity.
Qed.

Lemma mapM_combine_Forall2 {S R : Type} (P Q : S -> R -> Prop)
  (f : S * R -> result R) (ss : list S) (rs rs' : list R) :
  (forall s r r', P s r -> f (s, r) = OK r' -> Q s r') ->
  Forall2 P ss rs ->
  mapM f (combine ss rs) = OK rs' ->
  Forall2 Q ss rs'.
Proof.
  intros Hstep H. revert rs'. induction H as [| s r ss rs Hsr _ IH];
    simpl; intros rs' Hm.
  - injection Hm as <-. constructor.
  - inv_bind Hm. inv_bind Hm. injection Hm as <-.
    constructor; [eapply Hstep; eauto | apply IH; assumption].
Qed.

Lemma tracks_nonneg values (ss : list UploadSequence.t) (rs : list Z) :
  Forall2 (tracks values) ss rs -> Forall (fun r => 0 <= r) rs.
Proof.
  induction 1 as [| s r ss rs (_ & Hr & _) _ IH]; constructor;
    [lia | exact IH].
Qed.

Lemma initial_item_ok (cell : nat * CellValueType) (point : SearchStackItem) :
  initial_item spec cell = OK point -> item_ok spec point.
Proof.
  destruct cell as [col v]. unfold initial_item. intros H. inv_bind H.
  injection H as <-. apply mapM_OK in Ha. constructor; simpl.
  - reflexivity.
  - exists []. reflexivity.
  - repeat constructor. intros [].
  - split.
    + intros s Hs. injection Hs as <-. reflexivity.
    + intros k x y Hx Hy. destruct k; discriminate.
  - reflexivity.
  - lia.
  - unfold path_values, path. simpl.
    eapply Forall2_impl; [| exact Ha]. intros s r Hr.
    apply initial_incomplete_tracks. exact Hr.
Qed.

Lemma initial_items_ok (items : list SearchStackItem) :
  initial_items spec = OK items -> Forall (item_ok spec) items.
Proof.
  unfold initial_items. intros H. inv_bind H. apply mapM_OK in H.
  eapply Forall2_Forall_r; [exact H |].
  intros cell point _ Hp. eapply initial_item_ok. exact Hp.
Qed.

Lemma next_steps_aligned point candidates direction :
  next_steps spec point = OK (candidates, direction) ->
  match next_pick_direction point with
  | ROW =>
      direction = COLUMN
      /\ forall c, In c candidates ->
           row_idx c = row_idx (current_step point)
  | COLUMN =>
      direction = ROW
      /\ forall c, In c candidates ->
           col_idx c = col_idx (current_step point)
  end.
Proof.
  unfold next_steps. destruct (next_pick_direction point); intros H;
    inv_bind H; injection H as <- <-; (split; [reflexivity |]);
    intros c Hc; apply in_map_iff in Hc; destruct Hc as (x & <- & _);
    reflexivity.
Qed.

Lemma alternates_app (p : list SolutionStep) (last_step c : SolutionStep) :
  alternates (p ++ [last_step]) ->
  (if Nat.odd (length (p ++ [last_step]))
   then col_idx c = col_idx last_step
   else row_idx c = row_idx last_step) ->
  alternates ((p ++ [last_step]) ++ [c]).
Proof.
  intros [Hfirst Hnext] Hc. split.
  - intros s Hs. apply Hfirst. rewrite nth_error_app1 in Hs; [exact Hs |].
    rewrite length_app. simpl. lia.
  - intros k a b Ha Hb.
    assert (Hk : (S k < length ((p ++ [last_step]) ++ [c]))%nat)
      by (apply nth_error_Some; congruence).
    rewrite length_app in Hk. simpl in Hk.
    destruct (Nat.eq_dec (S k) (length (p ++ [last_step]))) as [E | E].
    + rewrite nth_error_app2 in Hb by lia.
      rewrite E, Nat.sub_diag in Hb. injection Hb as <-.
      rewrite nth_error_app1 in Ha by lia.
      rewrite length_app in E. simpl in E.
      rewrite nth_error_app2 in Ha by lia.
      replace (k - length p)%nat with 0%nat in Ha by lia.
      injection Ha as <-.
      replace (S k) with (length (p ++ [last_step]))
        by (rewrite length_app; simpl; lia).
      exact Hc.
    + rewrite nth_error_app1 in Ha by lia.
      rewrite nth_error_app1 in Hb by lia.
      exact (Hnext k a b Ha Hb).
Qed.

Lemma next_search_point_ok point direction candidates c child :
  item_ok spec point ->
  is_expanded spec point = true ->
  next_steps spec point = OK (candidates, direction) ->
  In c candidates ->
  StepDict.contains (item_steps point) c = false ->
  next_search_point spec point direction c = OK child ->
  item_ok spec child.
Proof.
  intros Hok Hexp Hnext Hc Hfresh H.
  unfold next_search_point in H. inv_bind H. injection H as <-.
  pose proof (next_steps_aligned _ _ _ Hnext) as Haligned.
  destruct Hok as [Hindex [before Hcur] Hnodup Halt Hdir Hbuf Htracks].
  assert (Hpath : StepDict.keys
            (StepDict.set (item_steps point) c (StepDict.len (item_steps point)))
          = path point ++ [c]).
  { rewrite StepDict_set_fresh by assumption.
    unfold path, StepDict.keys. rewrite map_app. reflexivity. }
  assert (Hlen : length (path point) = length (item_steps point))
    by (unfold path, StepDict.keys; apply length_map).
  constructor; unfold path_values, path in *; simpl; rewrite ?Hpath.
  - rewrite StepDict_set_fresh by assumption.
    rewrite length_app, map_app, Hindex. simpl.
    rewrite Nat.add_1_r, seq_S, map_app. reflexivity.
  - exists (StepDict.keys (item_steps point)). reflexivity.
  - apply NoDup_app; [exact Hnodup | repeat constructor; intros [] |].
    intros x Hx [<- | []].
    apply StepDict_contains_In in Hx. congruence.
  - rewrite Hcur. apply alternates_app; [rewrite <- Hcur; exact Halt |].
    rewrite <- Hcur. rewrite Hdir in Haligned.
    destruct (Nat.odd (length (StepDict.keys (item_steps point))));
      destruct Haligned as [_ Hall]; apply Hall; exact Hc.
  - rewrite length_app. simpl. rewrite Nat.add_1_r, Nat.odd_succ.
    rewrite <- Nat.negb_odd. rewrite Hdir in Haligned.
    destruct (Nat.odd (length (StepDict.keys (item_steps point))));
      destruct Haligned as [-> _]; reflexivity.
  - rewrite length_app. simpl.
    unfold is_expanded in Hexp. apply andb_true_iff in Hexp.
    destruct Hexp as [Hsum Hmax].
    apply negb_true_iff, Z.eqb_neq in Hsum.
    destruct (py_max (incomplete_sequence_length point)) as [longest |] eqn:E;
      [| discriminate].
    apply negb_true_iff, Z.ltb_ge in Hmax.
    pose proof (py_max_positive _ _ (tracks_nonneg _ _ _ Htracks) Hsum E).
    unfold StepDict.len in Hmax. lia.
  - rewrite map_app. simpl.
    eapply mapM_combine_Forall2; [| exact Htracks | exact Ha].
    intros s r r' Hr Hr'. eapply next_incomplete_tracks; eauto.
Qed.

Lemma expand_ok point children :
  item_ok spec point ->
  is_expanded spec point = true ->
  expand spec point = OK children ->
  Forall (item_ok spec) children.
Proof.
  intros Hok Hexp H. unfold expand in H. inv_bind H.
  destruct a as [candidates direction]. simpl in H.
  rewrite push_next_steps_mapM in H. apply mapM_OK in H.
  eapply Forall2_Forall_r; [exact H |].
  intros c child Hc Hchild. apply filter_In in Hc. destruct Hc as [Hc Hfresh].
  apply negb_true_iff in Hfresh.
  eapply next_search_point_ok; eauto.
Qed.

(** Every search point the engine constructs satisfies the invariant. *)
Lemma reachable_ok point : reachable spec point -> item_ok spec point.
Proof.
  induction 1 as [items point Hitems Hin | parent children point _ IH Hexp Hch Hin].
  - apply initial_items_ok in Hitems. rewrite Forall_forall in Hitems. auto.
  - pose proof (expand_ok _ _ IH Hexp Hch) as Hall.
    rewrite Forall_forall in Hall. auto.
Qed.

(** The steps of a solution are the path of its search point. *)
Lemma ordered_steps_path point :
  item_ok spec point -> ordered_steps point = path point.
Proof.
  intros Hok. unfold ordered_steps, StepDict.items, path, StepDict.keys.
  rewrite sorted_by_id; [reflexivity |].
  pose proof (ok_index _ _ Hok) as Hindex.
  generalize dependent 0%nat. generalize (item_steps point) as d.
  induction d as [| [k v] d IH]; intros start Hindex; [constructor |].
  simpl in Hindex. injection Hindex as Hv Hrest.
  constructor; [apply (IH (S start)); exact Hrest |].
  destruct d as [| [k' v'] d]; constructor.
  simpl in Hrest. injection Hrest as Hv' _. unfold key_le. simpl. lia.
Qed.

End InvariantFacts.

(** ** The invariant of the loop *)

Section LoopFacts.

Variable spec : GameSpecification.
Variable strategy : SolutionStrategy.

Lemma dfs_step_continue_ok st st' :
  state_ok spec st ->
  dfs_step spec strategy st = Continue st' ->
  state_ok spec st'.
Proof.
  intros [Hstack Hsols]. unfold dfs_step.
  destruct (search_stack st) as [| point stack] eqn:Est; [discriminate |].
  apply Forall_cons_iff in Hstack. destruct Hstack as [Hpoint Hstack].
  unfold state_ok.
  destruct (Z.eqb_spec (py_sum (incomplete_sequence_length point)) 0)
    as [Hsum | Hsum].
  { destruct strategy; [discriminate |]. intros H. injection H as <-. simpl.
    split; [exact Hstack |]. apply Forall_app. split; [exact Hsols |].
    constructor; [| constructor]. exists point. repeat split; assumption. }
  destruct (py_max (incomplete_sequence_length point)) as [longest |] eqn:Emax;
    [| discriminate].
  destruct (Z.ltb_spec (buffer_size spec - StepDict.len (item_steps point))
              longest) as [Hlt | Hge].
  { intros H. injection H as <-. simpl. split; assumption. }
  destruct (expand spec point) as [children |] eqn:Eexp; [| discriminate].
  intros H. injection H as <-. simpl. split; [| exact Hsols].
  apply Forall_app. split; [| exact Hstack].
  apply Forall_forall. intros child Hchild. apply in_rev in Hchild.
  eapply reachable_next; [exact Hpoint | | exact Eexp | exact Hchild].
  unfold is_expanded. rewrite Emax.
  apply andb_true_iff. split; apply negb_true_iff.
  - apply Z.eqb_neq. exact Hsum.
  - apply Z.ltb_ge. exact Hge.
Qed.

Lemma dfs_step_break_ok st sols :
  state_ok spec st ->
  dfs_step spec strategy st = Break (OK sols) ->
  Forall (fun sol => exists point, accepted_from spec point sol) sols.
Proof.
  intros [Hstack Hsols]. unfold dfs_step.
  destruct (search_stack st) as [| point stack] eqn:Est.
  { intros H. injection H as <-. exact Hsols. }
  apply Forall_cons_iff in Hstack. destruct Hstack as [Hpoint Hstack].
  destruct (Z.eqb_spec (py_sum (incomplete_sequence_length point)) 0)
    as [Hsum | Hsum].
  { destruct strategy; [| discriminate]. intros H. injection H as <-.
    apply Forall_app. split; [exact Hsols |].
    constructor; [| constructor]. exists point. repeat split; assumption. }
  destruct (py_max (incomplete_sequence_length point)) as [longest |];
    [| discriminate].
  destruct (_ <? longest); [discriminate |].
  destruct (expand spec point); discriminate.
Qed.

Lemma dfs_exits_ok st sols :
  dfs_exits spec strategy st (OK sols) ->
  state_ok spec st ->
  Forall (fun sol => exists point, accepted_from spec point sol) sols.
Proof.
  intros H. remember (OK sols) as r eqn:Er.
  induction H as [st r Hstep | st st' r Hstep _ IH]; intros Hok; subst r.
  - eapply dfs_step_break_ok; eauto.
  - apply IH; [reflexivity |]. eapply dfs_step_continue_ok; eauto.
Qed.

Lemma dfs_search_ok found :
  dfs_search spec strategy = OK found ->
  Forall (fun sol => exists point, accepted_from spec point sol) found.
Proof.
  unfold dfs_search. intros H. inv_bind H.
  eapply dfs_exits_ok; [rewrite <- H; apply dfs_loop_exits |].
  split; simpl; [| constructor].
  apply Forall_forall. intros point Hpoint. apply in_rev in Hpoint.
  eapply reachable_initial; eauto.
Qed.

Lemma _solve_internal_found sols :
  _solve_internal spec strategy = OK sols ->
  exists found,
    dfs_search spec strategy = OK found
    /\ sols = sorted_by solution_length found.
Proof.
  unfold _solve_internal. intros H. inv_bind H. injection H as <-.
  exists a. auto.
Qed.

Lemma _solve_internal_ok sols :
  _solve_internal spec strategy = OK sols ->
  Forall (fun sol => exists point, accepted_from spec point sol) sols.
Proof.
  intros H. apply _solve_internal_found in H. destruct H as (found & H & ->).
  apply dfs_search_ok in H. rewrite Forall_forall in *.
  intros sol Hsol. apply H.
  eapply Permutation_in; [symmetry; apply sorted_by_perm | exact Hsol].
Qed.

(** Under the first-solution strategy the loop leaves at its first solution. *)
Lemma dfs_exits_first st sols :
  dfs_exits spec FIND_FIRST_SOLUTION st (OK sols) ->
  solutions st = [] ->
  (length sols <= 1)%nat.
Proof.
  intros H. remember (OK sols) as r eqn:Er.
  induction H as [st r Hstep | st st' r Hstep _ IH]; intros Hnil; subst r.
  - unfold dfs_step in Hstep. rewrite Hnil in Hstep.
    destruct (search_stack st) as [| point stack].
    { injection Hstep as <-. simpl. lia. }
    destruct (py_sum (incomplete_sequence_length point) =? 0).
    { injection Hstep as <-. simpl. lia. }
    destruct (py_max (incomplete_sequence_length point)) as [longest |];
      [| discriminate].
    destruct (_ <? longest); [discriminate |].
    destruct (expand spec point); discriminate.
  - apply IH; [reflexivity |].
    unfold dfs_step in Hstep.
    destruct (search_stack st) as [| point stack]; [discriminate |].
    destruct (py_sum (incomplete_sequence_length point) =? 0); [discriminate |].
    destruct (py_max (incomplete_sequence_length point)) as [longest |];
      [| discriminate].
    destruct (_ <? longest).
    { injection Hstep as <-. exact Hnil. }
    destruct (expand spec point); [| discriminate].
    injection Hstep as <-. exact Hnil.
Qed.

End LoopFacts.

(** ** The relaxation performed by [solve] *)

Section Relaxation.

Lemma filter_always {A : Type} (l : list A) : filter (fun _ => true) l = l.
Proof. induction l as [| x l IH]; simpl; congruence. Qed.

Lemma Sorted_id_head (x : Z) (l : list Z) :
  Sorted (key_le (fun p => p)) (x :: l) -> forall y, In y (x :: l) -> x <= y.
Proof.
  intros H. apply Sorted_StronglySorted in H.
  - inversion H as [| ? ? _ Hall]; subst. intros y [<- | Hy]; [lia |].
    rewrite Forall_forall in Hall. apply (Hall y Hy).
  - intros a b c. unfold key_le. lia.
Qed.

Lemma In_unique_priorities spec (p : Z) :
  In p (unique_priorities spec)
  <-> In p (map UploadSequence.priority (upload_sequences spec)).
Proof.
  unfold unique_priorities, py_set. split.
  - intros H. eapply nodup_In. eapply Permutation_in; [| exact H].
    symmetry. apply sorted_by_perm.
  - intros H. eapply Permutation_in; [apply sorted_by_perm |].
    apply nodup_In. exact H.
Qed.

Lemma NoDup_unique_priorities spec : NoDup (unique_priorities spec).
Proof.
  unfold unique_priorities, py_set.
  eapply Permutation_NoDup; [apply sorted_by_perm | apply NoDup_nodup].
Qed.

(** The head of [unique_priorities] is the lowest priority present. *)
Lemma unique_priorities_lowest spec lowest rest :
  unique_priorities spec = lowest :: rest ->
  In lowest (map UploadSequence.priority (upload_sequences spec))
  /\ forall s, In s (upload_sequences spec) ->
       lowest <= UploadSequence.priority s.
Proof.
  intros E. split.
  - apply In_unique_priorities. rewrite E. left. reflexivity.
  - intros s Hs. apply (Sorted_id_head lowest rest).
    + rewrite <- E. apply sorted_by_sorted.
    + rewrite <- E. apply In_unique_priorities. apply in_map. exact Hs.
Qed.

(** [unique_priorities] has a second element exactly when two sequences
    differ in priority. *)
Lemma unique_priorities_several spec :
  (exists lowest second rest,
     unique_priorities spec = lowest :: second :: rest)
  <-> (exists s1 s2,
         In s1 (upload_sequences spec) /\ In s2 (upload_sequences spec)
         /\ UploadSequence.priority s1 <> UploadSequence.priority s2).
Proof.
  split.
  - intros (lowest & second & rest & E).
    assert (H1 : In lowest (unique_priorities spec)) by (rewrite E; simpl; auto).
    assert (H2 : In second (unique_priorities spec)) by (rewrite E; simpl; auto).
    apply In_unique_priorities, in_map_iff in H1, H2.
    destruct H1 as (s1 & E1 & Hs1). destruct H2 as (s2 & E2 & Hs2).
    exists s1, s2. repeat split; try assumption.
    intros Heq. pose proof (NoDup_unique_priorities spec) as Hnd.
    rewrite E in Hnd. inversion Hnd as [| ? ? Hnotin _]; subst.
    apply Hnotin. left. symmetry. exact Heq.
  - intros (s1 & s2 & Hs1 & Hs2 & Hne).
    assert (H1 : In (UploadSequence.priority s1) (unique_priorities spec))
      by (apply In_unique_priorities, in_map; exact Hs1).
    assert (H2 : In (UploadSequence.priority s2) (unique_priorities spec))
      by (apply In_unique_priorities, in_map; exact Hs2).
    destruct (unique_priorities spec) as [| lowest [| second rest]].
    + contradiction.
    + destruct H1 as [H1 | []]. destruct H2 as [H2 | []]. congruence.
    + eauto.
Qed.

(** Relaxation removes at least one sequence. *)
Lemma updated_spec_shorter spec lowest rest :
  unique_priorities spec = lowest :: rest ->
  (length (upload_sequences (updated_spec spec lowest))
   < length (upload_sequences spec))%nat.
Proof.
  intros E. apply unique_priorities_lowest in E. destruct E as [Hin _].
  apply in_map_iff in Hin. destruct Hin as (s & Hs & Hin).
  unfold updated_spec. simpl.
  rewrite <- (filter_always (upload_sequences spec)) at 2.
  apply (filter_length_lt _ _ _ s); auto.
  rewrite Hs. apply Z.ltb_irrefl.
Qed.

Lemma solve_rec_enough strategy (n m : nat) spec :
  (length (upload_sequences spec) <= n)%nat ->
  (length (upload_sequences spec) <= m)%nat ->
  solve_rec n spec strategy = solve_rec m spec strategy.
Proof.
  revert m spec. induction n as [| n IH]; intros m spec Hn Hm.
  - destruct (upload_sequences spec) as [| s l] eqn:E; [| simpl in Hn; lia].
    assert (Hu : unique_priorities spec = [])
      by (unfold unique_priorities; rewrite E; reflexivity).
    destruct m; simpl; rewrite Hu; reflexivity.
  - destruct m as [| m].
    + destruct (upload_sequences spec) as [| s l] eqn:E; [| simpl in Hm; lia].
      assert (Hu : unique_priorities spec = [])
        by (unfold unique_priorities; rewrite E; reflexivity).
      simpl. rewrite Hu. reflexivity.
    + simpl. destruct (_solve_internal spec strategy) as [[| sol sols] |];
        simpl; try reflexivity.
      destruct (unique_priorities spec) as [| lowest [| second rest]] eqn:Hu;
        try reflexivity.
      apply updated_spec_shorter in Hu. apply IH; lia.
Qed.

(** The recursive equation of [solve], as the source states it. *)
Lemma solve_unfold spec strategy :
  solve spec strategy
  = (solutions <- _solve_internal spec strategy ;;
     match solutions with
     | [] =>
         match unique_priorities spec with
         | lowest :: _ :: _ => solve (updated_spec spec lowest) strategy
         | _ => OK solutions
         end
     | _ :: _ => OK solutions
     end).
Proof.
  unfold solve.
  destruct (length (upload_sequences spec)) as [| n] eqn:E.
  - simpl. destruct (_solve_internal spec strategy) as [[| sol sols] |];
      simpl; try reflexivity.
    destruct (unique_priorities spec) as [| lowest [| second rest]] eqn:Hu;
      try reflexivity.
    apply updated_spec_shorter in Hu. lia.
  - simpl. destruct (_solve_internal spec strategy) as [[| sol sols] |];
      simpl; try reflexivity.
    destruct (unique_priorities spec) as [| lowest [| second rest]] eqn:Hu;
      try reflexivity.
    apply updated_spec_shorter in Hu. apply solve_rec_enough; simpl in *; lia.
Qed.

(** What [solve] returns is what the engine returns for the last
    specification attempted. *)
Lemma solve_final spec strategy sols :
  solve spec strategy = OK sols ->
  exists final,
    attempts strategy spec final
    /\ _solve_internal final strategy = OK sols.
Proof.
  remember (length (upload_sequences spec)) as n eqn:En.
  revert spec En sols.
  induction n as [n IH] using lt_wf_ind. intros spec En sols H.
  rewrite solve_unfold in H.
  destruct (_solve_internal spec strategy) as [[| sol found] |] eqn:Ei;
    simpl in H; [| | discriminate].
  - destruct (unique_priorities spec) as [| lowest [| second rest]] eqn:Hu.
    + exists spec. split; [constructor | congruence].
    + exists spec. split; [constructor | congruence].
    + pose proof (updated_spec_shorter _ _ _ Hu) as Hlt.
      destruct (IH _ ltac:(subst n; exact Hlt) _ eq_refl _ H)
        as (final & Hfinal & Hsols).
      exists final. split; [| exact Hsols].
      eapply attempts_relaxed; eauto. discriminate.
  - exists spec. split; [constructor | congruence].
Qed.

Lemma attempts_same strategy spec final :
  attempts strategy spec final ->
  code_matrix final = code_matrix spec
  /\ buffer_size final = buffer_size spec.
Proof.
  induction 1 as [| spec lowest rest final _ _ _ _ [IH1 IH2]]; [auto |].
  rewrite IH1, IH2. auto.
Qed.

End Relaxation.

(** ** The solutions returned by [solve] *)

(** Every solution [solve] returns is the path of an accepted search point
    of the engine's run on the last specification attempted. *)
Lemma solve_solution spec strategy sols sol :
  solve spec strategy = OK sols ->
  In sol sols ->
  exists final point,
    attempts strategy spec final
    /\ _solve_internal final strategy = OK sols
    /\ item_ok final point
    /\ py_sum (incomplete_sequence_length point) = 0
    /\ steps sol = path point.
Proof.
  intros H Hsol. apply solve_final in H. destruct H as (final & Hatt & Hint).
  pose proof (_solve_internal_ok _ _ _ Hint) as Hall.
  rewrite Forall_forall in Hall.
  destruct (Hall sol Hsol) as (point & Hreach & Hsum & ->).
  apply reachable_ok in Hreach.
  exists final, point.
  split; [exact Hatt |]. split; [exact Hint |]. split; [exact Hreach |].
  split; [exact Hsum |].
  simpl. apply ordered_steps_path with (spec := final). exact Hreach.
Qed.

(** An accepted search point has taken every upload sequence. *)
Lemma accepted_covers spec point s :
  item_ok spec point ->
  py_sum (incomplete_sequence_length point) = 0 ->
  In s (upload_sequences spec) ->
  contiguous_run (UploadSequence.cells s) (path_values point).
Proof.
  intros Hok Hsum Hs. pose proof (ok_tracks _ _ Hok) as Htracks.
  pose proof (py_sum_zero _ (tracks_nonneg _ _ _ Htracks) Hsum) as Hzero.
  clear Hsum. induction Htracks as [| s' r ss rs Hr _ IH]; [contradiction |].
  inversion Hzero; subst. destruct Hs as [-> | Hs].
  - destruct Hr as (_ & _ & Hdone & _). apply Hdone. reflexivity.
  - apply IH; assumption.
Qed.

(** C1. Coverage: the values of the steps of every solution [solve]
    returns, taken in path order, contain the cells of every upload
    sequence of the last (possibly relaxed) specification attempted, the one
    the solutions were computed for, as a contiguous run. *)
Theorem C1_coverage spec strategy sols :
  solve spec strategy = OK sols ->
  exists final,
    attempts strategy spec final
    /\ _solve_internal final strategy = OK sols
    /\ forall sol s,
         In sol sols -> In s (upload_sequences final) ->
         contiguous_run (UploadSequence.cells s) (map value (steps sol)).
Proof.
  intros H. destruct (solve_final _ _ _ H) as (final & Hatt & Hint).
  exists final. split; [exact Hatt |]. split; [exact Hint |].
  intros sol s Hsol Hs.
  pose proof (_solve_internal_ok _ _ _ Hint) as Hall.
  rewrite Forall_forall in Hall.
  destruct (Hall sol Hsol) as (point & Hreach & Hsum & ->).
  apply reachable_ok in Hreach. simpl.
  rewrite (ordered_steps_path final point Hreach).
  apply (accepted_covers final); assumption.
Qed.

Local Open Scope string_scope.

Lemma C1_coverage_witness :
  exists final,
    attempts FIND_FIRST_SOLUTION relaxing_spec final
    /\ _solve_internal final FIND_FIRST_SOLUTION
       = OK [mkSolution [mkSolutionStep "55" 0 1; mkSolutionStep "1C" 1 1]]
    /\ forall sol s,
         In sol [mkSolution [mkSolutionStep "55" 0 1; mkSolutionStep "1C" 1 1]] ->
         In s (upload_sequences final) ->
         contiguous_run (UploadSequence.cells s) (map value (steps sol)).
Proof.
  apply (C1_coverage relaxing_spec FIND_FIRST_SOLUTION).
  vm_compute. reflexivity.
Defined.

Local Close Scope string_scope.

(** C2. Alternation: in every solution [solve] returns, step 0 is in row 0,
    and step [k > 0] has the column of step [k - 1] when [k] is odd and the
    row of step [k - 1] when [k] is even. *)
Theorem C2_alternation spec strategy sols sol :
  solve spec strategy = OK sols ->
  In sol sols ->
  (exists first, nth_error (steps sol) 0 = Some first /\ row_idx first = 0%nat)
  /\ (forall k previous current,
        (0 < k)%nat ->
        nth_error (steps sol) (k - 1) = Some previous ->
        nth_error (steps sol) k = Some current ->
        (Nat.odd k = true -> col_idx current = col_idx previous)
        /\ (Nat.even k = true -> row_idx current = row_idx previous)).
Proof.
  intros H Hsol.
  destruct (solve_solution _ _ _ _ H Hsol)
    as (final & point & _ & _ & Hok & _ & ->).
  destruct (ok_alternates _ _ Hok) as [Hfirst Hnext]. split.
  - destruct (ok_current _ _ Hok) as [before Hcur].
    destruct (path point) as [| first p] eqn:E.
    + destruct before; discriminate.
    + exists first. split; [reflexivity | apply Hfirst; reflexivity].
  - intros k previous current Hk Hprev Hcur.
    destruct k as [| k]; [lia |]. simpl in Hprev. rewrite Nat.sub_0_r in Hprev.
    specialize (Hnext k previous current Hprev Hcur).
    rewrite <- Nat.negb_odd.
    destruct (Nat.odd (S k)); split; intros; try discriminate; assumption.
Qed.

Local Open Scope string_scope.

Lemma C2_alternation_witness :
  let sol := mkSolution [mkSolutionStep "55" 0 1; mkSolutionStep "1C" 1 1] in
  (exists first, nth_error (steps sol) 0 = Some first /\ row_idx first = 0%nat)
  /\ (forall k previous current,
        (0 < k)%nat ->
        nth_error (steps sol) (k - 1) = Some previous ->
        nth_error (steps sol) k = Some current ->
        (Nat.odd k = true -> col_idx current = col_idx previous)
        /\ (Nat.even k = true -> row_idx current = row_idx previous)).
Proof.
  apply (C2_alternation easy_spec FIND_FIRST_SOLUTION
           [mkSolution [mkSolutionStep "55" 0 1; mkSolutionStep "1C" 1 1]]).
  - vm_compute. reflexivity.
  - left. reflexivity.
Defined.

Local Close Scope string_scope.

(** C5. Length bound: when [buffer_size] is positive, every solution
    [solve] returns has at most [buffer_size] steps; and a popped search
    point that is not accepted and whose remaining buffer is smaller than its
    largest count is dropped with nothing pushed. *)
Theorem C5_length_bound spec strategy :
  (forall sols sol,
     0 < buffer_size spec ->
     solve spec strategy = OK sols ->
     In sol sols ->
     Z.of_nat (length (steps sol)) <= buffer_size spec)
  /\ (forall point stack found longest,
        py_sum (incomplete_sequence_length point) <> 0 ->
        py_max (incomplete_sequence_length point) = OK longest ->
        buffer_size spec - StepDict.len (item_steps point) < longest ->
        dfs_step spec strategy (mkLoopState (point :: stack) found)
        = Continue (mkLoopState stack found)).
Proof.
  split.
  - intros sols sol Hpos H Hsol.
    destruct (solve_solution _ _ _ _ H Hsol)
      as (final & point & Hatt & _ & Hok & _ & ->).
    apply attempts_same in Hatt. destruct Hatt as [_ Hbuf].
    pose proof (ok_buffer _ _ Hok) as Hlen. rewrite Hbuf in Hlen. lia.
  - intros point stack found longest Hsum Hmax Hslack.
    unfold dfs_step. simpl.
    apply Z.eqb_neq in Hsum. rewrite Hsum, Hmax.
    apply Z.ltb_lt in Hslack. rewrite Hslack. reflexivity.
Qed.

Local Open Scope string_scope.

Lemma C5_length_bound_witness :
  Z.of_nat
    (length (steps (mkSolution
                      [mkSolutionStep "55" 0 1; mkSolutionStep "1C" 1 1])))
  <= buffer_size easy_spec
  /\ dfs_step easy_spec FIND_FIRST_SOLUTION
       (mkLoopState [easy_first_point] [])
     = Continue (mkLoopState [] []).
Proof.
  destruct (C5_length_bound easy_spec FIND_FIRST_SOLUTION) as [Hbound Hprune].
  split.
  - apply (Hbound [mkSolution
                     [mkSolutionStep "55" 0 1; mkSolutionStep "1C" 1 1]]).
    + reflexivity.
    + vm_compute. reflexivity.
    + left. reflexivity.
  - apply (Hprune _ _ _ 2).
    + discriminate.
    + reflexivity.
    + reflexivity.
Defined.

Local Close Scope string_scope.

(** C6. Uniqueness: the steps of every solution [solve] returns are
    pairwise distinct as (value, row, column) triples. *)
Theorem C6_uniqueness spec strategy sols sol :
  solve spec strategy = OK sols ->
  In sol sols ->
  NoDup (steps sol).
Proof.
  intros H Hsol.
  destruct (solve_solution _ _ _ _ H Hsol)
    as (final & point & _ & _ & Hok & _ & ->).
  exact (ok_nodup _ _ Hok).
Qed.

Local Open Scope string_scope.

Lemma C6_uniqueness_witness :
  NoDup (steps (mkSolution
                  [mkSolutionStep "55" 0 1; mkSolutionStep "1C" 1 1])).
Proof.
  apply (C6_uniqueness easy_spec FIND_FIRST_SOLUTION
           [mkSolution [mkSolutionStep "55" 0 1; mkSolutionStep "1C" 1 1]]).
  - vm_compute. reflexivity.
  - left. reflexivity.
Defined.

Local Close Scope string_scope.

(** ** The progress rule *)

Lemma Forall2_mapM {A B : Type} (f : A -> result B) (l : list A) (ys : list B) :
  Forall2 (fun x y => f x = OK y) l ys -> mapM f l = OK ys.
Proof.
  induction 1 as [| x y l ys Hxy _ IH]; simpl; [reflexivity |].
  rewrite Hxy, IH. reflexivity.
Qed.

Lemma Forall2_In_r {A B : Type} (R : A -> B -> Prop) l1 l2 (y : B) :
  Forall2 R l1 l2 -> In y l2 -> exists x, In x l1 /\ R x y.
Proof.
  induction 1 as [| a b l1 l2 Hab _ IH]; intros Hy; [contradiction |].
  destruct Hy as [<- | Hy].
  - exists a. split; [left; reflexivity | exact Hab].
  - destruct (IH Hy) as (x & Hx & HR). exists x. split; [right |]; assumption.
Qed.

Lemma py_getitem_from_end {A : Type} (l : list A) (r : Z) :
  0 < r <= Z.of_nat (length l) ->
  py_getitem l (- r) = py_getitem l (Z.of_nat (length l) - r).
Proof.
  intros Hr. unfold py_getitem.
  destruct (Z.ltb_spec (- r) 0) as [_ | Hge]; [| lia].
  destruct (Z.ltb_spec (Z.of_nat (length l) - r) 0) as [Hlt | _]; [lia |].
  replace (- r + Z.of_nat (length l)) with (Z.of_nat (length l) - r) by lia.
  reflexivity.
Qed.

Lemma initial_incomplete_rule (v : CellValueType) (s : UploadSequence.t) (r : Z) :
  initial_incomplete v s = OK r ->
  progress_rule s (UploadSequence.len s) v = OK r.
Proof.
  intros H. pose proof (initial_incomplete_tracks v s r H) as (Hlen & _).
  unfold initial_incomplete, UploadSequence.getitem in H.
  unfold progress_rule.
  destruct (Z.eqb_spec (UploadSequence.len s) 0) as [E | _]; [lia |].
  rewrite Z.sub_diag. inv_bind H. rewrite Ha. simpl.
  rewrite <- H. destruct (String.eqb a v); f_equal; lia.
Qed.

Lemma next_incomplete_rule values (v : CellValueType) s (r : Z) :
  tracks values s r ->
  next_incomplete v (s, r) = progress_rule s r v.
Proof.
  intros (_ & Hr & _). unfold next_incomplete, progress_rule.
  destruct (Z.eqb_spec r 0) as [_ | Hr0]; [reflexivity |].
  unfold UploadSequence.getitem, UploadSequence.len in *.
  rewrite py_getitem_from_end by lia. reflexivity.
Qed.

(** The children of a search point, one for each unused candidate. *)
Lemma expand_child spec point children child :
  expand spec point = OK children ->
  In child children ->
  exists candidates direction c,
    next_steps spec point = OK (candidates, direction)
    /\ In c candidates
    /\ StepDict.contains (item_steps point) c = false
    /\ next_search_point spec point direction c = OK child.
Proof.
  unfold expand. intros H Hchild. inv_bind H.
  destruct a as [candidates direction]. simpl in H.
  rewrite push_next_steps_mapM in H. apply mapM_OK in H.
  destruct (Forall2_In_r _ _ _ _ H Hchild) as (c & Hc & Hnext).
  apply filter_In in Hc. destruct Hc as [Hc Hfresh].
  apply negb_true_iff in Hfresh.
  exists candidates, direction, c. auto.
Qed.

(** C3. Progress rule: the counts of a child built from a search point of
    the engine by appending a step with value [v] are those of its parent
    with the rule applied to each (a zero stays zero; otherwise a match with
    [sequence[len - r]] gives [r - 1] and a mismatch gives [len]); the counts
    of an initial search point are the rule applied once to the value of its
    cell, starting from the length of each sequence. *)
Theorem C3_progress_rule spec :
  (forall parent children child,
     reachable spec parent ->
     expand spec parent = OK children ->
     In child children ->
     path child = path parent ++ [current_step child]
     /\ length (incomplete_sequence_length parent)
        = length (upload_sequences spec)
     /\ mapM (fun sr => progress_rule (fst sr) (snd sr)
                          (value (current_step child)))
          (combine (upload_sequences spec) (incomplete_sequence_length parent))
        = OK (incomplete_sequence_length child))
  /\ (forall items point,
        initial_items spec = OK items ->
        In point items ->
        path point = [current_step point]
        /\ mapM (fun s => progress_rule s (UploadSequence.len s)
                            (value (current_step point)))
             (upload_sequences spec)
           = OK (incomplete_sequence_length point)).
Proof.
  split.
  - intros parent children child Hreach Hexp Hchild.
    apply reachable_ok in Hreach. pose proof (ok_tracks _ _ Hreach) as Htracks.
    destruct (expand_child _ _ _ _ Hexp Hchild)
      as (candidates & direction & c & _ & _ & Hfresh & Hnext).
    unfold next_search_point in Hnext. inv_bind Hnext. injection Hnext as <-.
    unfold path. simpl. split; [| split].
    + rewrite StepDict_set_fresh by assumption.
      unfold StepDict.keys. rewrite map_app. reflexivity.
    + symmetry. eapply Forall2_length. exact Htracks.
    + rewrite <- Ha. clear Ha.
      induction Htracks as [| s r ss rs Hr _ IH]; [reflexivity |].
      cbn [mapM combine fst snd].
      rewrite (next_incomplete_rule _ _ _ _ Hr), IH. reflexivity.
  - intros items point Hitems Hpoint. unfold initial_items in Hitems.
    inv_bind Hitems. apply mapM_OK in Hitems.
    destruct (Forall2_In_r _ _ _ _ Hitems Hpoint) as ([col v] & _ & Hitem).
    unfold initial_item in Hitem. inv_bind Hitem. injection Hitem as <-.
    unfold path. simpl. split; [reflexivity |].
    apply Forall2_mapM. apply mapM_OK in Ha0.
    eapply Forall2_impl; [| exact Ha0].
    intros s r Hr. apply initial_incomplete_rule. exact Hr.
Qed.

Lemma C3_progress_rule_witness :
  (path easy_solved_point
   = path easy_progress_point ++ [current_step easy_solved_point]
   /\ length (incomplete_sequence_length easy_progress_point)
      = length (upload_sequences easy_spec)
   /\ mapM (fun sr => progress_rule (fst sr) (snd sr)
                        (value (current_step easy_solved_point)))
        (combine (upload_sequences easy_spec)
           (incomplete_sequence_length easy_progress_point))
      = OK (incomplete_sequence_length easy_solved_point))
  /\ (path easy_progress_point = [current_step easy_progress_point]
      /\ mapM (fun s => progress_rule s (UploadSequence.len s)
                          (value (current_step easy_progress_point)))
           (upload_sequences easy_spec)
         = OK (incomplete_sequence_length easy_progress_point)).
Proof.
  destruct (C3_progress_rule easy_spec) as [Hchild Hseed]. split.
  - apply (Hchild easy_progress_point [easy_solved_point]).
    + apply (reachable_initial easy_spec
               [easy_first_point; easy_progress_point]).
      * reflexivity.
      * right. left. reflexivity.
    + reflexivity.
    + left. reflexivity.
  - apply (Hseed [easy_first_point; easy_progress_point]).
    + reflexivity.
    + right. left. reflexivity.
Defined.

(** ** The counts of a search point *)

Lemma repeated_start_reachable :
  reachable repeated_start_spec repeated_start_point.
Proof.
  eapply reachable_next;
    [eapply reachable_next;
       [eapply reachable_initial; [reflexivity | left; reflexivity]
       | reflexivity | reflexivity | left; reflexivity]
    | reflexivity | reflexivity | left; reflexivity].
Qed.

(** The engine visits that search point: it is on top of the stack after
    six passes through the loop. *)
Example repeated_start_visited :
  top_after repeated_start_spec FIND_ALL_SOLUTIONS 6
  = Some repeated_start_point.
Proof. vm_compute. reflexivity. Qed.

(** C4, as stated, fails: a count can be positive although the path
    contains the sequence.  With the matrix [[A, X], [A, B]], the sequence
    [A, B] and a buffer of 4, the path (A,0,0), (A,1,0), (B,1,1) has the
    values A, A, B, which contain A, B, and its count is 2. *)
Lemma C4_counterexample :
  ~ (forall spec point,
       reachable spec point ->
       Forall2
         (fun s r =>
            0 <= r <= UploadSequence.len s
            /\ (r = 0
                <-> contiguous_run (UploadSequence.cells s) (path_values point)))
         (upload_sequences spec) (incomplete_sequence_length point)).
Proof.
  intros H.
  specialize (H repeated_start_spec repeated_start_point
                repeated_start_reachable).
  inversion H as [| s r ss rs [_ [_ Hrun]] _]; subst.
  assert (E : 2 = 0); [| discriminate E].
  apply Hrun. exists ["A"%string], []. reflexivity.
Qed.

(** C4, amended. For every search point the engine constructs and every
    upload sequence, the count lies between 0 and the length of the
    sequence, and when it is 0 the values of the path contain the sequence
    as a contiguous run. *)
Theorem C4_remaining_sound spec point :
  reachable spec point ->
  Forall2
    (fun s r =>
       0 <= r <= UploadSequence.len s
       /\ (r = 0
           -> contiguous_run (UploadSequence.cells s) (path_values point)))
    (upload_sequences spec) (incomplete_sequence_length point).
Proof.
  intros Hreach. apply reachable_ok in Hreach.
  eapply Forall2_impl; [| exact (ok_tracks _ _ Hreach)].
  intros s r (_ & Hr & Hdone & _). split; assumption.
Qed.

Lemma C4_remaining_sound_witness :
  Forall2
    (fun s r =>
       0 <= r <= UploadSequence.len s
       /\ (r = 0
           -> contiguous_run (UploadSequence.cells s)
                (path_values easy_solved_point)))
    (upload_sequences easy_spec)
    (incomplete_sequence_length easy_solved_point).
Proof.
  apply (C4_remaining_sound easy_spec easy_solved_point).
  apply (reachable_next easy_spec easy_progress_point [easy_solved_point]).
  - apply (reachable_initial easy_spec [easy_first_point; easy_progress_point]).
    + reflexivity.
    + right. left. reflexivity.
  - reflexivity.
  - reflexivity.
  - left. reflexivity.
Defined.

(** ** The order of the result *)

Lemma Sorted_weaken {A : Type} (R1 R2 : A -> A -> Prop) (l : list A) :
  (forall x y, R1 x y -> R2 x y) -> Sorted R1 l -> Sorted R2 l.
Proof.
  intros HR. induction 1 as [| x l _ IH Hhd]; constructor; [exact IH |].
  destruct Hhd; constructor. apply HR. assumption.
Qed.

Lemma solution_length_eqb (n : nat) (sol : Solution) :
  Nat.eqb (length (steps sol)) n = (solution_length sol =? Z.of_nat n).
Proof.
  unfold solution_length.
  destruct (Nat.eqb_spec (length (steps sol)) n);
    destruct (Z.eqb_spec (Z.of_nat (length (steps sol))) (Z.of_nat n));
    try reflexivity; lia.
Qed.

(** C7. Result order: under [FIND_ALL_SOLUTIONS] the list [solve] returns
    is the list of solutions the engine discovered for the last specification
    attempted, rearranged by non-decreasing number of steps, the solutions
    with the same number of steps staying in the order of their discovery;
    under [FIND_FIRST_SOLUTION] the list has at most one element. *)
Theorem C7_result_order spec :
  (forall sols,
     solve spec FIND_ALL_SOLUTIONS = OK sols ->
     exists final found,
       attempts FIND_ALL_SOLUTIONS spec final
       /\ dfs_search final FIND_ALL_SOLUTIONS = OK found
       /\ Permutation found sols
       /\ Sorted (fun a b => (length (steps a) <= length (steps b))%nat) sols
       /\ forall n,
            filter (fun sol => Nat.eqb (length (steps sol)) n) sols
            = filter (fun sol => Nat.eqb (length (steps sol)) n) found)
  /\ (forall sols,
        solve spec FIND_FIRST_SOLUTION = OK sols -> (length sols <= 1)%nat).
Proof.
  split.
  - intros sols H. apply solve_final in H. destruct H as (final & Hatt & Hint).
    apply _solve_internal_found in Hint. destruct Hint as (found & Hfound & ->).
    exists final, found.
    split; [exact Hatt |]. split; [exact Hfound |].
    split; [apply sorted_by_perm |]. split.
    + eapply Sorted_weaken; [| apply sorted_by_sorted].
      intros a b. unfold key_le, solution_length. lia.
    + intros n.
      rewrite !(filter_ext _ _ (solution_length_eqb n)).
      apply sorted_by_filter.
  - intros sols H. apply solve_final in H. destruct H as (final & _ & Hint).
    apply _solve_internal_found in Hint. destruct Hint as (found & Hfound & ->).
    rewrite <- (Permutation_length (sorted_by_perm solution_length found)).
    unfold dfs_search in Hfound. inv_bind Hfound.
    eapply dfs_exits_first; [rewrite <- Hfound; apply dfs_loop_exits |].
    reflexivity.
Qed.

Local Open Scope string_scope.

Lemma C7_result_order_witness :
  (exists final found,
     attempts FIND_ALL_SOLUTIONS mirrored_spec final
     /\ dfs_search final FIND_ALL_SOLUTIONS = OK found
     /\ Permutation found
          [mkSolution [mkSolutionStep "55" 0 0; mkSolutionStep "1C" 1 0];
           mkSolution [mkSolutionStep "1C" 0 1; mkSolutionStep "55" 1 1;
                       mkSolutionStep "1C" 1 0]]
     /\ Sorted (fun a b => (length (steps a) <= length (steps b))%nat)
          [mkSolution [mkSolutionStep "55" 0 0; mkSolutionStep "1C" 1 0];
           mkSolution [mkSolutionStep "1C" 0 1; mkSolutionStep "55" 1 1;
                       mkSolutionStep "1C" 1 0]]
     /\ forall n,
          filter (fun sol => Nat.eqb (length (steps sol)) n)
            [mkSolution [mkSolutionStep "55" 0 0; mkSolutionStep "1C" 1 0];
             mkSolution [mkSolutionStep "1C" 0 1; mkSolutionStep "55" 1 1;
                         mkSolutionStep "1C" 1 0]]
          = filter (fun sol => Nat.eqb (length (steps sol)) n) found)
  /\ (length [mkSolution [mkSolutionStep "55" 0 1; mkSolutionStep "1C" 1 1]]
      <= 1)%nat.
Proof.
  split.
  - destruct (C7_result_order mirrored_spec) as [Hall _].
    apply Hall. vm_compute. reflexivity.
  - destruct (C7_result_order easy_spec) as [_ Hfirst].
    apply Hfirst. vm_compute. reflexivity.
Defined.

Local Close Scope string_scope.

(** ** Relaxation *)

(** What [solve] gives after an attempt that found nothing, in terms of the
    engine's run on the specification it retries with. *)
Lemma solve_retries spec strategy lowest second rest :
  _solve_internal spec strategy = OK [] ->
  unique_priorities spec = lowest :: second :: rest ->
  solve spec strategy = solve (updated_spec spec lowest) strategy
  /\ (forall e,
        _solve_internal (updated_spec spec lowest) strategy = Raise e ->
        solve spec strategy = Raise e)
  /\ (forall sol sols,
        _solve_internal (updated_spec spec lowest) strategy = OK (sol :: sols) ->
        solve spec strategy = OK (sol :: sols))
  /\ (_solve_internal (updated_spec spec lowest) strategy = OK [] ->
      (forall s1 s2,
         In s1 (upload_sequences (updated_spec spec lowest)) ->
         In s2 (upload_sequences (updated_spec spec lowest)) ->
         UploadSequence.priority s1 = UploadSequence.priority s2) ->
      solve spec strategy = OK []).
Proof.
  intros Hnone Hu.
  assert (Hretry : solve spec strategy
                   = solve (updated_spec spec lowest) strategy)
    by (rewrite solve_unfold, Hnone; simpl; rewrite Hu; reflexivity).
  split; [exact Hretry |]. rewrite Hretry, solve_unfold.
  split; [| split].
  - intros e He. rewrite He. reflexivity.
  - intros sol sols Hsols. rewrite Hsols. reflexivity.
  - intros Hnone' Hone. rewrite Hnone'. simpl.
    destruct (unique_priorities (updated_spec spec lowest))
      as [| lowest' [| second' rest']] eqn:Hu'; try reflexivity.
    assert (Hseveral : exists s1 s2,
               In s1 (upload_sequences (updated_spec spec lowest))
               /\ In s2 (upload_sequences (updated_spec spec lowest))
               /\ UploadSequence.priority s1 <> UploadSequence.priority s2)
      by (apply unique_priorities_several; eauto).
    destruct Hseveral as (s1 & s2 & H1 & H2 & Hne).
    contradiction Hne. apply Hone; assumption.
Qed.

(** C8. Relaxation: when the engine finds no solution for a specification
    whose sequences have more than one distinct priority, [solve] retries
    with the specification that has the same matrix and buffer size and the
    sequences of priority above the lowest priority present, in their
    original order: it raises what the engine raises for that
    specification, returns the solutions the engine finds for it when there
    are some, returns the empty list when there are none and one priority
    remains, and in every case gives what [solve] gives for that
    specification.  When all sequences of the specification itself have one
    priority and the engine finds nothing, [solve] returns the empty
    list. *)
Theorem C8_relaxation spec strategy :
  _solve_internal spec strategy = OK [] ->
  ((exists s1 s2,
      In s1 (upload_sequences spec) /\ In s2 (upload_sequences spec)
      /\ UploadSequence.priority s1 <> UploadSequence.priority s2) ->
   exists lowest relaxed,
     In lowest (map UploadSequence.priority (upload_sequences spec))
     /\ (forall s, In s (upload_sequences spec) ->
           lowest <= UploadSequence.priority s)
     /\ relaxed
        = {| code_matrix := code_matrix spec;
             upload_sequences :=
               filter (fun s => lowest <? UploadSequence.priority s)
                 (upload_sequences spec);
             buffer_size := buffer_size spec |}
     /\ solve spec strategy = solve relaxed strategy
     /\ (forall e,
           _solve_internal relaxed strategy = Raise e ->
           solve spec strategy = Raise e)
     /\ (forall sol sols,
           _solve_internal relaxed strategy = OK (sol :: sols) ->
           solve spec strategy = OK (sol :: sols))
     /\ (_solve_internal relaxed strategy = OK [] ->
         (forall s1 s2,
            In s1 (upload_sequences relaxed) ->
            In s2 (upload_sequences relaxed) ->
            UploadSequence.priority s1 = UploadSequence.priority s2) ->
         solve spec strategy = OK []))
  /\ ((forall s1 s2,
         In s1 (upload_sequences spec) -> In s2 (upload_sequences spec) ->
         UploadSequence.priority s1 = UploadSequence.priority s2) ->
      solve spec strategy = OK []).
Proof.
  intros Hnone. split.
  - intros Hseveral. apply unique_priorities_several in Hseveral.
    destruct Hseveral as (lowest & second & rest & Hu).
    destruct (unique_priorities_lowest _ _ _ Hu) as [Hin Hmin].
    exists lowest, (updated_spec spec lowest).
    split; [exact Hin |]. split; [exact Hmin |]. split; [reflexivity |].
    exact (solve_retries _ _ _ _ _ Hnone Hu).
  - intros Hone. rewrite solve_unfold, Hnone. simpl.
    destruct (unique_priorities spec) as [| lowest [| second rest]] eqn:Hu;
      try reflexivity.
    assert (Hseveral : exists s1 s2,
               In s1 (upload_sequences spec) /\ In s2 (upload_sequences spec)
               /\ UploadSequence.priority s1 <> UploadSequence.priority s2)
      by (apply unique_priorities_several; eauto).
    destruct Hseveral as (s1 & s2 & H1 & H2 & Hne).
    contradiction Hne. apply Hone; assumption.
Qed.

Local Open Scope string_scope.

Lemma C8_relaxation_witness :
  (exists lowest relaxed,
     In lowest (map UploadSequence.priority (upload_sequences relaxing_spec))
     /\ (forall s, In s (upload_sequences relaxing_spec) ->
           (lowest <= UploadSequence.priority s)%Z)
     /\ relaxed
        = {| code_matrix := code_matrix relaxing_spec;
             upload_sequences :=
               filter (fun s => (lowest <? UploadSequence.priority s)%Z)
                 (upload_sequences relaxing_spec);
             buffer_size := buffer_size relaxing_spec |}
     /\ solve relaxing_spec FIND_FIRST_SOLUTION
        = solve relaxed FIND_FIRST_SOLUTION
     /\ (forall e,
           _solve_internal relaxed FIND_FIRST_SOLUTION = Raise e ->
           solve relaxing_spec FIND_FIRST_SOLUTION = Raise e)
     /\ (forall sol sols,
           _solve_internal relaxed FIND_FIRST_SOLUTION = OK (sol :: sols) ->
           solve relaxing_spec FIND_FIRST_SOLUTION = OK (sol :: sols))
     /\ (_solve_internal relaxed FIND_FIRST_SOLUTION = OK [] ->
         (forall s1 s2,
            In s1 (upload_sequences relaxed) ->
            In s2 (upload_sequences relaxed) ->
            UploadSequence.priority s1 = UploadSequence.priority s2) ->
         solve relaxing_spec FIND_FIRST_SOLUTION = OK []))
  /\ solve unsolvable_spec FIND_FIRST_SOLUTION = OK [].
Proof.
  split.
  - destruct (C8_relaxation relaxing_spec FIND_FIRST_SOLUTION) as [Hseveral _].
    + vm_compute. reflexivity.
    + apply Hseveral.
      exists (UploadSequence.mk ["7A"; "1C"] 1),
             (UploadSequence.mk ["55"; "1C"] 2).
      split; [left; reflexivity |].
      split; [right; left; reflexivity | discriminate].
  - destruct (C8_relaxation unsolvable_spec FIND_FIRST_SOLUTION) as [_ Hone].
    + vm_compute. reflexivity.
    + apply Hone. intros s1 s2 [<- | []] [<- | []]. reflexivity.
Defined.

Local Close Scope string_scope.

(** The retry of [relaxing_spec], evaluated: the engine finds nothing for
    both sequences and one solution for the sequence of priority 2, which is
    what [solve] returns. *)
Example relaxing_spec_retry :
  _solve_internal relaxing_spec FIND_FIRST_SOLUTION = OK []
  /\ _solve_internal (updated_spec relaxing_spec 1) FIND_FIRST_SOLUTION
     = solve relaxing_spec FIND_FIRST_SOLUTION
  /\ exists sol, solve relaxing_spec FIND_FIRST_SOLUTION = OK [sol].
Proof.
  split; [vm_compute; reflexivity |].
  split; [vm_compute; reflexivity |].
  eexists. vm_compute. reflexivity.
Qed.

(** ** Construction of the matrix *)

(** C9, as stated, fails: a list of rows that is not square is accepted. *)
Lemma C9_counterexample :
  ~ (forall rows,
       not_square rows -> exists e, CodeMatrix.init rows = Raise e).
Proof.
  intros H. destruct (H [["A"%string]; ["B"%string; "C"%string]]) as [e He].
  - left. exists ["A"%string]. split; [left; reflexivity | discriminate].
  - discriminate He.
Qed.

(** C9, amended. Constructing a [CodeMatrix] from any list of rows, square
    or not, succeeds: the rows are stored as they are, and [size] is the
    number of rows. *)
Theorem C9_construction rows :
  exists m,
    CodeMatrix.init rows = OK m
    /\ CodeMatrix.cells m = rows
    /\ CodeMatrix.size m = length rows.
Proof. exists (CodeMatrix.mk rows). repeat split. Qed.

(** ** A specification without upload sequences *)

Section NoSequences.

Variable matrix : CodeMatrix.t.
Variable size_of_buffer : Z.

Variable row0 : list CellValueType.
Variable rest : list (list CellValueType).
Hypothesis Hrows : CodeMatrix.cells matrix = row0 :: rest.

Lemma initial_items_no_sequences :
  initial_items (without_sequences matrix size_of_buffer)
  = OK (map single_step_item (enumerate row0)).
Proof.
  unfold initial_items, CodeMatrix.iterate_row.
  cbn [code_matrix without_sequences].
  assert (Hrow : py_getitem (CodeMatrix.cells matrix) (Z.of_nat 0) = OK row0)
    by (apply py_getitem_nat; rewrite Hrows; reflexivity).
  rewrite Hrow. cbn [bind].
  induction (enumerate row0) as [| [col v] l IH]; simpl; [reflexivity |].
  rewrite IH. reflexivity.
Qed.

Lemma dfs_loop_all_accepted (stack : list SearchStackItem)
  (found : list Solution) :
  Forall (fun point => incomplete_sequence_length point = []) stack ->
  dfs_loop (without_sequences matrix size_of_buffer) FIND_ALL_SOLUTIONS
    (mkLoopState stack found)
  = OK (found ++ map (fun point => mkSolution (ordered_steps point)) stack).
Proof.
  intros H. revert found. induction H as [| point stack Hpoint _ IH];
    intros found; rewrite dfs_loop_unfold; unfold dfs_step; simpl.
  - rewrite app_nil_r. reflexivity.
  - rewrite Hpoint. simpl. rewrite IH, <- app_assoc. reflexivity.
Qed.

Lemma dfs_loop_first_accepted (stack : list SearchStackItem) :
  Forall (fun point => incomplete_sequence_length point = []) stack ->
  dfs_loop (without_sequences matrix size_of_buffer) FIND_FIRST_SOLUTION
    (mkLoopState stack [])
  = OK match stack with
       | [] => []
       | point :: _ => [mkSolution (ordered_steps point)]
       end.
Proof.
  intros H. rewrite dfs_loop_unfold. unfold dfs_step. simpl.
  destruct H as [| point stack Hpoint _]; [reflexivity |].
  rewrite Hpoint. reflexivity.
Qed.

Lemma single_step_items_accepted (l : list (nat * CellValueType)) :
  Forall (fun point => incomplete_sequence_length point = [])
    (rev (map single_step_item l)).
Proof.
  apply Forall_forall. intros point Hpoint. apply in_rev, in_map_iff in Hpoint.
  destruct Hpoint as (c & <- & _). reflexivity.
Qed.

Lemma single_step_sorted (l : list (nat * CellValueType)) :
  sorted_by solution_length (map single_step_solution l)
  = map single_step_solution l.
Proof.
  apply sorted_by_id.
  induction l as [| c l IH]; simpl; constructor; [exact IH |].
  destruct l; constructor. unfold key_le. reflexivity.
Qed.

(** All single-step solutions, last column first. *)
Lemma solve_all_no_sequences :
  solve (without_sequences matrix size_of_buffer) FIND_ALL_SOLUTIONS
  = OK (rev (map single_step_solution (enumerate row0))).
Proof.
  assert (Hint : _solve_internal (without_sequences matrix size_of_buffer)
                   FIND_ALL_SOLUTIONS
                 = OK (rev (map single_step_solution (enumerate row0)))).
  { unfold _solve_internal, dfs_search. rewrite initial_items_no_sequences.
    simpl. rewrite dfs_loop_all_accepted by apply single_step_items_accepted.
    simpl. rewrite <- !map_rev, map_map.
    rewrite single_step_sorted. reflexivity. }
  rewrite solve_unfold, Hint. simpl.
  destruct (rev (map single_step_solution (enumerate row0))); reflexivity.
Qed.

(** The single-step solution of the last column, when there is a column. *)
Lemma solve_first_no_sequences :
  solve (without_sequences matrix size_of_buffer) FIND_FIRST_SOLUTION
  = OK match rev (enumerate row0) with
       | [] => []
       | cell :: _ => [single_step_solution cell]
       end.
Proof.
  assert (Hint : _solve_internal (without_sequences matrix size_of_buffer)
                   FIND_FIRST_SOLUTION
                 = OK match rev (enumerate row0) with
                      | [] => []
                      | cell :: _ => [single_step_solution cell]
                      end).
  { unfold _solve_internal, dfs_search. rewrite initial_items_no_sequences.
    simpl. rewrite dfs_loop_first_accepted by apply single_step_items_accepted.
    simpl. rewrite <- map_rev.
    destruct (rev (enumerate row0)) as [| cell l]; reflexivity. }
  rewrite solve_unfold, Hint. simpl.
  destruct (rev (enumerate row0)); reflexivity.
Qed.

End NoSequences.

Local Open Scope string_scope.

(** C10, as stated, fails on a matrix that is not square: with the single
    row [A, B, C] and no upload sequence, [size] is 1 and the exhaustive
    strategy returns three solutions, one for each cell of the row. *)
Lemma C10_counterexample :
  ~ (forall matrix size_of_buffer,
       (0 < CodeMatrix.size matrix)%nat ->
       (exists sols,
          solve (without_sequences matrix size_of_buffer) FIND_ALL_SOLUTIONS
          = OK sols
          /\ length sols = CodeMatrix.size matrix
          /\ Forall (fun sol =>
                       exists col v, sol = single_step_solution (col, v))
               sols)
       /\ (exists col v,
             solve (without_sequences matrix size_of_buffer)
               FIND_FIRST_SOLUTION
             = OK [single_step_solution (col, v)])).
Proof.
  intros H.
  destruct (H (CodeMatrix.mk [["A"; "B"; "C"]]) 1%Z) as [(sols & Hall & Hlen & _) _].
  - unfold CodeMatrix.size. simpl. lia.
  - vm_compute in Hall. injection Hall as <-. discriminate Hlen.
Qed.

Local Close Scope string_scope.

(** C10, amended. Without upload sequences, on a matrix with at least one
    row, [solve] raises nothing: under [FIND_ALL_SOLUTIONS] it returns one
    solution for each cell of row 0, a single step at that cell, as many as
    row 0 has cells (which is [size] when the matrix is square); under
    [FIND_FIRST_SOLUTION] it returns one of them when row 0 has a cell and
    the empty list when row 0 is empty. *)
Theorem C10_row0_solutions matrix size_of_buffer :
  (0 < CodeMatrix.size matrix)%nat ->
  exists row0,
    nth_error (CodeMatrix.cells matrix) 0 = Some row0
    /\ solve (without_sequences matrix size_of_buffer) FIND_ALL_SOLUTIONS
       = OK (rev (map single_step_solution (enumerate row0)))
    /\ length (rev (map single_step_solution (enumerate row0)))
       = length row0
    /\ (CodeMatrix.square matrix -> length row0 = CodeMatrix.size matrix)
    /\ (row0 = [] ->
        solve (without_sequences matrix size_of_buffer) FIND_FIRST_SOLUTION
        = OK [])
    /\ (row0 <> [] ->
        exists col v,
          nth_error row0 col = Some v
          /\ solve (without_sequences matrix size_of_buffer)
               FIND_FIRST_SOLUTION
             = OK [single_step_solution (col, v)]).
Proof.
  intros Hsize. unfold CodeMatrix.square, CodeMatrix.size in *.
  destruct (CodeMatrix.cells matrix) as [| row0 rest] eqn:Hrows;
    [simpl in Hsize; lia |].
  exists row0. split; [reflexivity |].
  split; [apply (solve_all_no_sequences _ _ _ _ Hrows) |].
  split; [rewrite length_rev, length_map, enumerate_length; reflexivity |].
  split; [intros Hsquare; inversion Hsquare; assumption |].
  rewrite (solve_first_no_sequences _ _ _ _ Hrows). split.
  - intros ->. reflexivity.
  - intros Hne. destruct (rev (enumerate row0)) as [| [col v] l] eqn:E.
    + apply (f_equal (@length _)) in E.
      rewrite length_rev, enumerate_length in E.
      destruct row0; [contradiction | discriminate E].
    + exists col, v. split; [| reflexivity].
      apply In_enumerate, in_rev. rewrite E. left. reflexivity.
Qed.

Local Open Scope string_scope.

Lemma C10_row0_solutions_witness :
  exists row0,
    nth_error (CodeMatrix.cells (CodeMatrix.mk [["A"; "B"; "C"]])) 0
    = Some row0
    /\ solve (without_sequences (CodeMatrix.mk [["A"; "B"; "C"]]) 2)
         FIND_ALL_SOLUTIONS
       = OK (rev (map single_step_solution (enumerate row0)))
    /\ length (rev (map single_step_solution (enumerate row0)))
       = length row0
    /\ (CodeMatrix.square (CodeMatrix.mk [["A"; "B"; "C"]]) ->
        length row0 = CodeMatrix.size (CodeMatrix.mk [["A"; "B"; "C"]]))
    /\ (row0 = [] ->
        solve (without_sequences (CodeMatrix.mk [["A"; "B"; "C"]]) 2)
          FIND_FIRST_SOLUTION
        = OK [])
    /\ (row0 <> [] ->
        exists col v,
          nth_error row0 col = Some v
          /\ solve (without_sequences (CodeMatrix.mk [["A"; "B"; "C"]]) 2)
               FIND_FIRST_SOLUTION
             = OK [single_step_solution (col, v)]).
Proof.
  apply (C10_row0_solutions (CodeMatrix.mk [["A"; "B"; "C"]]) 2).
  unfold CodeMatrix.size. simpl. lia.
Defined.

(** The two matrices that are not square, evaluated. *)
Example wide_row_solutions :
  solve (without_sequences (CodeMatrix.mk [["A"; "B"; "C"]]) 2)
    FIND_ALL_SOLUTIONS
  = OK [mkSolution [mkSolutionStep "C" 0 2];
        mkSolution [mkSolutionStep "B" 0 1];
        mkSolution [mkSolutionStep "A" 0 0]]
  /\ solve (without_sequences (CodeMatrix.mk [[]; ["B"; "C"]]) 2)
       FIND_FIRST_SOLUTION
     = OK [].
Proof. split; vm_compute; reflexivity. Qed.

Local Close Scope string_scope.


(** ** The matrix and its iterators *)

Lemma py_getitem_raises {A : Type} (l : list A) (i : Z) (e : exception) :
  py_getitem l i = Raise e -> e = IndexError.
Proof.
  unfold py_getitem.
  destruct ((if i <? 0 then i + Z.of_nat (length l) else i) <? 0);
    [simpl; congruence |].
  destruct (Z.of_nat (length l) <=? (if i <? 0 then i + Z.of_nat (length l) else i));
    [simpl; congruence |].
  simpl. destruct (nth_error l _); congruence.
Qed.

Lemma getitem_nth_error (m : CodeMatrix.t) (i j : nat) (v : CellValueType) :
  CodeMatrix.getitem m (i, j) = OK v
  <-> exists row,
        nth_error (CodeMatrix.cells m) i = Some row
        /\ nth_error row j = Some v.
Proof.
  unfold CodeMatrix.getitem. simpl. split.
  - intros H. inv_bind H. apply py_getitem_nat in Ha, H. eauto.
  - intros (row & Hrow & Hv). apply py_getitem_nat in Hrow, Hv.
    rewrite Hrow. simpl. exact Hv.
Qed.

Lemma enumerate_fst {A : Type} (l : list A) :
  map fst (enumerate l) = seq 0 (length l).
Proof.
  unfold enumerate. generalize 0%nat as start.
  induction l as [| x l IH]; intros start; simpl; [reflexivity |].
  rewrite IH. reflexivity.
Qed.

Lemma enumerate_snd {A : Type} (l : list A) : map snd (enumerate l) = l.
Proof.
  unfold enumerate. generalize 0%nat as start.
  induction l as [| x l IH]; intros start; simpl; [reflexivity |].
  rewrite IH. reflexivity.
Qed.

Lemma CodeMatrix_at_nat (m : CodeMatrix.t) (i j : nat) :
  CodeMatrix.getitem m (i, j)
  = CodeMatrixInt.getitem m (Z.of_nat i, Z.of_nat j)
  /\ CodeMatrix.iterate_row m i = CodeMatrixInt.iterate_row m (Z.of_nat i)
  /\ CodeMatrix.iterate_col m j = CodeMatrixInt.iterate_col m (Z.of_nat j).
Proof. repeat split. Qed.

Lemma py_getitem_int {A : Type} (l : list A) (i : Z) :
  match py_getitem l i with
  | OK x =>
      - Z.of_nat (length l) <= i < Z.of_nat (length l)
      /\ nth_error l
           (Z.to_nat (if i <? 0 then i + Z.of_nat (length l) else i))
         = Some x
  | Raise e =>
      e = IndexError
      /\ (i < - Z.of_nat (length l) \/ Z.of_nat (length l) <= i)
  end.
Proof.
  unfold py_getitem. cbv zeta.
  set (n := Z.of_nat (length l)).
  set (j := if i <? 0 then i + n else i).
  assert (Hj : (i < 0 /\ j = i + n) \/ (0 <= i /\ j = i)).
  { subst j. destruct (Z.ltb_spec i 0); [left | right]; split;
      solve [assumption | reflexivity]. }
  destruct (Z.ltb_spec j 0) as [Hlo | Hlo]; simpl.
  - split; [reflexivity | lia].
  - destruct (Z.leb_spec n j) as [Hhi | Hhi].
    + split; [reflexivity | lia].
    + destruct (nth_error l (Z.to_nat j)) as [x |] eqn:E.
      * split; [lia | reflexivity].
      * apply nth_error_None in E. subst n. lia.
Qed.

(** X1. [iterate_row], at any integer [i]: it raises [IndexError] exactly when
    [i] lies outside [-size, size), a negative [i] counting from the last
    row; otherwise it yields pairs numbered from 0, and yields [(j, v)]
    exactly when [j] is not negative and [m[i, j]] is [v]. A negative [j]
    for which [m[i, j]] has a value is no index of a pair. *)
Theorem iterate_row_getitem (m : CodeMatrix.t) (i : Z) :
  match CodeMatrixInt.iterate_row m i with
  | OK pairs =>
      - Z.of_nat (CodeMatrix.size m) <= i < Z.of_nat (CodeMatrix.size m)
      /\ map fst pairs = seq 0 (length pairs)
      /\ forall (j : Z) v,
           (exists n, j = Z.of_nat n /\ In (n, v) pairs)
           <-> 0 <= j /\ CodeMatrixInt.getitem m (i, j) = OK v
  | Raise e =>
      e = IndexError
      /\ (i < - Z.of_nat (CodeMatrix.size m)
          \/ Z.of_nat (CodeMatrix.size m) <= i)
  end.
Proof.
  unfold CodeMatrixInt.iterate_row, CodeMatrix.size.
  pose proof (py_getitem_int (CodeMatrix.cells m) i) as H.
  destruct (py_getitem (CodeMatrix.cells m) i) as [row | e] eqn:G; simpl.
  - destruct H as [Hrange _]. split; [exact Hrange |]. split.
    + rewrite enumerate_length. apply enumerate_fst.
    + intros j v. unfold CodeMatrixInt.getitem. simpl. rewrite G. simpl.
      split.
      * intros (n & -> & Hin). split; [lia |].
        apply py_getitem_nat, In_enumerate. exact Hin.
      * intros [Hj Hget]. exists (Z.to_nat j). split; [lia |].
        apply In_enumerate, py_getitem_nat.
        rewrite Z2Nat.id by exact Hj. exact Hget.
  - exact H.
Qed.

Local Open Scope string_scope.

(** The last row of the matrix of the tests is row [-1], and its last cell
    has no pair of its own. *)
Example iterate_row_from_end :
  CodeMatrixInt.iterate_row easy_matrix (-1) = OK [(0%nat, "E9"); (1%nat, "1C")]
  /\ CodeMatrixInt.getitem easy_matrix (-1, -1) = OK "1C"
  /\ CodeMatrixInt.iterate_row easy_matrix (-3) = Raise IndexError
  /\ CodeMatrixInt.iterate_row easy_matrix 2 = Raise IndexError.
Proof. repeat split. Qed.

Local Close Scope string_scope.

Lemma Forall2_nth_error_l {A B : Type} (R : A -> B -> Prop) l1 l2 i x :
  Forall2 R l1 l2 -> nth_error l1 i = Some x ->
  exists y, nth_error l2 i = Some y /\ R x y.
Proof.
  intros H. revert i. induction H as [| a b l1 l2 Hab _ IH]; intros i Hi.
  - destruct i; discriminate.
  - destruct i as [| i]; simpl in *.
    + injection Hi as <-. exists b. split; [reflexivity | assumption].
    + apply IH. assumption.
Qed.

Lemma mapM_Raise {A B : Type} (f : A -> result B) (l : list A) (e : exception) :
  mapM f l = Raise e -> exists x, In x l /\ f x = Raise e.
Proof.
  induction l as [| x l IH]; simpl; [discriminate |].
  destruct (f x) as [y | e'] eqn:E; simpl.
  - destruct (mapM f l) as [ys | e'']; simpl; [discriminate |].
    intros H. injection H as <-.
    destruct IH as (x' & Hin & Hx'); [reflexivity |]. eauto.
  - intros H. injection H as <-. eauto.
Qed.

(** X2. [iterate_col], at any integer [j], once it is consumed: it raises
    [IndexError] exactly when [j] lies outside [-len(row), len(row)) for some
    row; otherwise it yields one pair for each row, numbered from 0, and
    yields [(i, v)] exactly when [i] is not negative and [m[i, j]] is [v]. *)
Theorem iterate_col_getitem (m : CodeMatrix.t) (j : Z) :
  match CodeMatrixInt.iterate_col m j with
  | OK pairs =>
      Forall (fun row : list CellValueType =>
                - Z.of_nat (length row) <= j < Z.of_nat (length row))
        (CodeMatrix.cells m)
      /\ map fst pairs = seq 0 (CodeMatrix.size m)
      /\ forall (i : Z) v,
           (exists n, i = Z.of_nat n /\ In (n, v) pairs)
           <-> 0 <= i /\ CodeMatrixInt.getitem m (i, j) = OK v
  | Raise e =>
      e = IndexError
      /\ exists row : list CellValueType,
           In row (CodeMatrix.cells m)
           /\ (j < - Z.of_nat (length row) \/ Z.of_nat (length row) <= j)
  end.
Proof.
  unfold CodeMatrixInt.iterate_col, CodeMatrix.size.
  destruct (mapM (fun row => py_getitem row j) (CodeMatrix.cells m))
    as [col | e] eqn:E; simpl.
  - pose proof (mapM_length _ _ _ E) as Hlen. apply mapM_OK in E.
    split; [| split].
    + clear Hlen. induction E as [| row v rows col Hv _ IH]; constructor;
        [| exact IH].
      pose proof (py_getitem_int row j) as H. rewrite Hv in H. apply H.
    + rewrite enumerate_fst, Hlen. reflexivity.
    + intros i v. unfold CodeMatrixInt.getitem. simpl. split.
      * intros (n & -> & Hin). split; [lia |]. apply In_enumerate in Hin.
        destruct (Forall2_nth_error_r _ _ _ _ _ E Hin) as (row & Hrow & Hget).
        apply py_getitem_nat in Hrow. rewrite Hrow. simpl. exact Hget.
      * intros [Hi Hget]. inv_bind Hget.
        rewrite <- (Z2Nat.id i Hi) in Ha. apply py_getitem_nat in Ha.
        destruct (Forall2_nth_error_l _ _ _ _ _ E Ha) as (v' & Hv' & Hget').
        exists (Z.to_nat i). split; [lia |]. apply In_enumerate.
        congruence.
  - apply mapM_Raise in E. destruct E as (row & Hrow & Hget).
    pose proof (py_getitem_int row j) as H. rewrite Hget in H.
    split; [apply H |]. exists row. split; [exact Hrow | apply H].
Qed.

Local Open Scope string_scope.

Example iterate_col_from_end :
  CodeMatrixInt.iterate_col easy_matrix (-1) = OK [(0%nat, "55"); (1%nat, "1C")]
  /\ CodeMatrixInt.getitem easy_matrix (0, -1) = OK "55"
  /\ CodeMatrixInt.iterate_col (CodeMatrix.mk [["BD"; "55"]; ["E9"]]) 1
     = Raise IndexError.
Proof. repeat split. Qed.

Local Close Scope string_scope.

(** ** The steps of a solution are cells of the matrix *)

Lemma getitem_all_cells spec (c : SolutionStep) :
  In c (all_cells spec)
  <-> CodeMatrix.getitem (code_matrix spec) (row_idx c, col_idx c)
      = OK (value c).
Proof. rewrite In_all_cells, getitem_nth_error. reflexivity. Qed.

Lemma initial_items_in_cells spec items point c :
  initial_items spec = OK items ->
  In point items ->
  In c (path point) ->
  In c (all_cells spec).
Proof.
  unfold initial_items, CodeMatrix.iterate_row. intros H Hpoint Hc.
  inv_bind H. inv_bind Ha. injection Ha as <-. apply py_getitem_nat in Ha0.
  apply mapM_OK in H.
  destruct (Forall2_In_r _ _ _ _ H Hpoint) as ([col v] & Hcell & Hitem).
  unfold initial_item in Hitem. inv_bind Hitem. injection Hitem as <-.
  unfold path in Hc. simpl in Hc. destruct Hc as [<- | []].
  apply In_enumerate in Hcell. apply In_all_cells. simpl. eauto.
Qed.

(** Every step on the path of a search point is a cell of the matrix. *)
Lemma reachable_in_cells spec point :
  reachable spec point ->
  forall c, In c (path point) -> In c (all_cells spec).
Proof.
  induction 1 as [items point Hitems Hin
                 | parent children point _ IH Hexp Hch Hin]; intros c Hc.
  - eapply initial_items_in_cells; eauto.
  - destruct (expand_child _ _ _ _ Hch Hin)
      as (candidates & direction & c' & Hnext & Hc' & Hfresh & Hpoint).
    unfold next_search_point in Hpoint. inv_bind Hpoint.
    injection Hpoint as <-. unfold path in Hc. simpl in Hc.
    rewrite StepDict_set_fresh in Hc by assumption.
    unfold StepDict.keys in Hc. rewrite map_app in Hc.
    apply in_app_or in Hc. destruct Hc as [Hc | [<- | []]].
    + apply IH. exact Hc.
    + eapply next_steps_in_cells; eauto.
Qed.

(** X3. The value of every step of every solution [solve] returns is the value
    of the matrix at the coordinates of the step. *)
Theorem solution_steps_in_matrix spec strategy sols sol c :
  solve spec strategy = OK sols ->
  In sol sols ->
  In c (steps sol) ->
  CodeMatrix.getitem (code_matrix spec) (row_idx c, col_idx c) = OK (value c).
Proof.
  intros H Hsol Hc. apply solve_final in H. destruct H as (final & Hatt & Hint).
  apply attempts_same in Hatt. destruct Hatt as [Hmatrix _].
  pose proof (_solve_internal_ok _ _ _ Hint) as Hall.
  rewrite Forall_forall in Hall.
  destruct (Hall sol Hsol) as (point & Hreach & _ & ->). simpl in Hc.
  rewrite (ordered_steps_path final point (reachable_ok _ _ Hreach)) in Hc.
  rewrite <- Hmatrix. apply getitem_all_cells.
  eapply reachable_in_cells; eauto.
Qed.

Local Open Scope string_scope.

Lemma solution_steps_in_matrix_witness :
  CodeMatrix.getitem (code_matrix easy_spec) (1%nat, 1%nat) = OK "1C".
Proof.
  apply (solution_steps_in_matrix easy_spec FIND_FIRST_SOLUTION
           [mkSolution [mkSolutionStep "55" 0 1; mkSolutionStep "1C" 1 1]]
           (mkSolution [mkSolutionStep "55" 0 1; mkSolutionStep "1C" 1 1])
           (mkSolutionStep "1C" 1 1)).
  - vm_compute. reflexivity.
  - left. reflexivity.
  - right. left. reflexivity.
Defined.

Local Close Scope string_scope.


(** ** No exception on well-formed input *)

Lemma mapM_total {A B : Type} (f : A -> result B) (l : list A) :
  (forall x, In x l -> exists y, f x = OK y) -> exists ys, mapM f l = OK ys.
Proof.
  induction l as [| x l IH]; intros H; simpl.
  - exists []. reflexivity.
  - destruct (H x (or_introl eq_refl)) as [y Hy].
    destruct IH as [ys Hys]; [intros x' Hx'; apply H; right; exact Hx' |].
    exists (y :: ys). rewrite Hy, Hys. reflexivity.
Qed.

Lemma py_getitem_from_end_OK {A : Type} (l : list A) (r : Z) :
  0 < r <= Z.of_nat (length l) -> exists x, py_getitem l (- r) = OK x.
Proof.
  intros Hr. rewrite py_getitem_from_end by exact Hr.
  destruct (nth_error l (Z.to_nat (Z.of_nat (length l) - r))) as [x |] eqn:E.
  - exists x.
    replace (Z.of_nat (length l) - r)
      with (Z.of_nat (Z.to_nat (Z.of_nat (length l) - r))) by lia.
    apply py_getitem_nat. exact E.
  - apply nth_error_None in E. lia.
Qed.

Section NoRaise.

Variable spec : GameSpecification.
Hypothesis Hwf : well_formed spec.

Lemma initial_items_total : exists items, initial_items spec = OK items.
Proof.
  destruct Hwf as (Hrows & _ & Hseqs).
  unfold initial_items, CodeMatrix.iterate_row.
  destruct (CodeMatrix.cells (code_matrix spec)) as [| row0 rest] eqn:E;
    [contradiction |].
  assert (Hrow : py_getitem (row0 :: rest) (Z.of_nat 0) = OK row0)
    by (apply py_getitem_nat; reflexivity).
  rewrite Hrow. cbn [bind]. apply mapM_total. intros [col v] _.
  unfold initial_item.
  destruct (mapM_total (initial_incomplete v) (upload_sequences spec))
    as [lens Hlens].
  - intros s Hs. unfold initial_incomplete, UploadSequence.getitem.
    specialize (Hseqs s Hs).
    destruct (UploadSequence.cells s) as [| c cs] eqn:Ecs; [contradiction |].
    assert (Hc : py_getitem (c :: cs) (Z.of_nat 0) = OK c)
      by (apply py_getitem_nat; reflexivity).
    change (Z.of_nat 0) with 0 in Hc. rewrite Hc. simpl. eauto.
  - rewrite Hlens. simpl. eauto.
Qed.

Lemma next_incomplete_total values (v : CellValueType) s (r : Z) :
  tracks values s r -> exists r', next_incomplete v (s, r) = OK r'.
Proof.
  intros (_ & Hr & _). unfold next_incomplete, UploadSequence.getitem.
  destruct (Z.eqb_spec r 0) as [_ | Hr0]; [eauto |].
  destruct (py_getitem_from_end_OK (UploadSequence.cells s) r) as [x Hx].
  - unfold UploadSequence.len in Hr. lia.
  - rewrite Hx. simpl. eauto.
Qed.

Lemma next_search_point_total point direction c :
  item_ok spec point ->
  exists child, next_search_point spec point direction c = OK child.
Proof.
  intros Hok. unfold next_search_point.
  destruct (mapM_total (next_incomplete (value c))
              (combine (upload_sequences spec)
                 (incomplete_sequence_length point))) as [lens Hlens].
  - intros [s r] Hsr. pose proof (ok_tracks _ _ Hok) as Htracks.
    clear - Htracks Hsr. induction Htracks as [| s' r' ss rs Hr _ IH];
      [contradiction |].
    destruct Hsr as [E | Hsr]; [| apply IH; exact Hsr].
    injection E as -> ->. eapply next_incomplete_total. exact Hr.
  - rewrite Hlens. simpl. eauto.
Qed.

Lemma next_steps_total point :
  reachable spec point ->
  exists candidates direction,
    next_steps spec point = OK (candidates, direction).
Proof.
  intros Hreach. pose proof (reachable_ok _ _ Hreach) as Hok.
  destruct (ok_current _ _ Hok) as [before Hcur].
  assert (Hin : In (current_step point) (all_cells spec)).
  { apply (reachable_in_cells _ _ Hreach). rewrite Hcur.
    apply in_or_app. right. left. reflexivity. }
  apply In_all_cells in Hin. destruct Hin as (row & Hrow & Hv).
  unfold next_steps, CodeMatrix.iterate_row, CodeMatrix.iterate_col.
  destruct (next_pick_direction point).
  - apply py_getitem_nat in Hrow. rewrite Hrow. simpl. eauto.
  - destruct Hwf as (_ & Hrect & _).
    destruct (mapM_total
                (fun row => py_getitem row (Z.of_nat (col_idx (current_step point))))
                (CodeMatrix.cells (code_matrix spec))) as [col Hcol].
    + intros row' Hrow'. apply nth_error_In in Hrow.
      specialize (Hrect row row' Hrow Hrow').
      assert (Hlt : (col_idx (current_step point) < length row')%nat)
        by (rewrite <- Hrect; apply nth_error_Some; congruence).
      destruct (nth_error row' (col_idx (current_step point))) as [x |] eqn:E.
      * exists x. apply py_getitem_nat. exact E.
      * apply nth_error_None in E. lia.
    + rewrite Hcol. simpl. eauto.
Qed.

Lemma expand_total point :
  reachable spec point -> exists children, expand spec point = OK children.
Proof.
  intros Hreach. unfold expand.
  destruct (next_steps_total _ Hreach) as (candidates & direction & Hnext).
  rewrite Hnext. simpl. rewrite push_next_steps_mapM.
  apply mapM_total. intros c _.
  apply next_search_point_total. apply reachable_ok. exact Hreach.
Qed.

Lemma dfs_exits_total strategy st r :
  dfs_exits spec strategy st r ->
  state_ok spec st ->
  exists sols, r = OK sols.
Proof.
  induction 1 as [st r Hstep | st st' r Hstep _ IH]; intros Hok.
  - destruct Hok as [Hstack _]. unfold dfs_step in Hstep.
    destruct (search_stack st) as [| point stack];
      [injection Hstep as <-; eauto |].
    apply Forall_cons_iff in Hstack. destruct Hstack as [Hpoint _].
    destruct (py_sum (incomplete_sequence_length point) =? 0) eqn:Hsum.
    { destruct strategy; [injection Hstep as <-; eauto | discriminate]. }
    destruct (incomplete_sequence_length point) as [| r0 rs] eqn:Hrs;
      [discriminate |].
    simpl in Hstep. destruct (_ <? _); [discriminate |].
    destruct (expand_total _ Hpoint) as [children Hch].
    rewrite Hch in Hstep. discriminate.
  - apply IH. eapply dfs_step_continue_ok; eauto.
Qed.

Lemma _solve_internal_total strategy :
  exists sols, _solve_internal spec strategy = OK sols.
Proof.
  unfold _solve_internal, dfs_search.
  destruct initial_items_total as [items Hitems]. rewrite Hitems. simpl.
  destruct (dfs_exits_total strategy _ _
              (dfs_loop_exits spec strategy (mkLoopState (rev items) [])))
    as [found Hfound].
  - split; simpl; [| constructor].
    apply Forall_forall. intros point Hpoint. apply in_rev in Hpoint.
    eapply reachable_initial; eauto.
  - rewrite Hfound. simpl. eauto.
Qed.

End NoRaise.

Lemma updated_spec_well_formed spec lowest :
  well_formed spec -> well_formed (updated_spec spec lowest).
Proof.
  intros (Hrows & Hrect & Hseqs). split; [| split]; simpl; try assumption.
  intros s Hs. apply filter_In in Hs. apply Hseqs. apply Hs.
Qed.

Lemma attempts_well_formed strategy spec final :
  attempts strategy spec final -> well_formed spec -> well_formed final.
Proof.
  induction 1 as [spec | spec lowest rest final _ _ _ _ IH]; intros Hwf;
    [exact Hwf |].
  apply IH, updated_spec_well_formed. exact Hwf.
Qed.

Lemma solve_single_tier spec strategy :
  (forall s1 s2,
     In s1 (upload_sequences spec) -> In s2 (upload_sequences spec) ->
     UploadSequence.priority s1 = UploadSequence.priority s2) ->
  solve spec strategy = _solve_internal spec strategy.
Proof.
  intros Hsame. rewrite solve_unfold.
  destruct (_solve_internal spec strategy) as [[| sol sols] | e]; simpl;
    try reflexivity.
  destruct (unique_priorities spec) as [| lowest [| second rest]] eqn:Hu;
    try reflexivity.
  destruct (proj1 (unique_priorities_several spec))
    as (s1 & s2 & H1 & H2 & Hne); [eauto |].
  elim Hne. apply Hsame; assumption.
Qed.

(** X4. On a matrix with at least one row whose rows have one length, and with
    upload sequences that are not empty, no run of the engine raises: neither
    the run on the specification given, nor the run on any specification
    [solve] retries with, each of which is well formed in turn.  When all
    sequences have one priority [solve] makes no retry and returns what the
    engine returns. *)
Theorem engine_no_exception spec strategy :
  well_formed spec ->
  (forall final,
     attempts strategy spec final ->
     well_formed final
     /\ exists sols, _solve_internal final strategy = OK sols)
  /\ ((forall s1 s2,
         In s1 (upload_sequences spec) -> In s2 (upload_sequences spec) ->
         UploadSequence.priority s1 = UploadSequence.priority s2) ->
      exists sols,
        _solve_internal spec strategy = OK sols
        /\ solve spec strategy = OK sols).
Proof.
  intros Hwf. split.
  - intros final Hfinal.
    pose proof (attempts_well_formed _ _ _ Hfinal Hwf) as Hwf'.
    split; [exact Hwf' |]. apply _solve_internal_total. exact Hwf'.
  - intros Hsame.
    destruct (_solve_internal_total spec Hwf strategy) as [sols Hsols].
    exists sols. split; [exact Hsols |].
    rewrite (solve_single_tier _ _ Hsame). exact Hsols.
Qed.

Lemma engine_no_exception_witness :
  (forall final,
     attempts FIND_ALL_SOLUTIONS relaxing_spec final ->
     well_formed final
     /\ exists sols, _solve_internal final FIND_ALL_SOLUTIONS = OK sols)
  /\ ((forall s1 s2,
         In s1 (upload_sequences relaxing_spec) ->
         In s2 (upload_sequences relaxing_spec) ->
         UploadSequence.priority s1 = UploadSequence.priority s2) ->
      exists sols,
        _solve_internal relaxing_spec FIND_ALL_SOLUTIONS = OK sols
        /\ solve relaxing_spec FIND_ALL_SOLUTIONS = OK sols).
Proof.
  apply (engine_no_exception relaxing_spec FIND_ALL_SOLUTIONS).
  split; [discriminate |]. split.
  - intros row row' [<- | [<- | []]] [<- | [<- | []]]; reflexivity.
  - intros s [<- | [<- | []]]; discriminate.
Defined.

(** The specification the run on [relaxing_spec] is followed by, and what the
    engine returns on each. *)
Example relaxing_spec_attempts :
  attempts FIND_ALL_SOLUTIONS relaxing_spec (updated_spec relaxing_spec 1)
  /\ _solve_internal relaxing_spec FIND_ALL_SOLUTIONS = OK []
  /\ exists sol sols,
       _solve_internal (updated_spec relaxing_spec 1) FIND_ALL_SOLUTIONS
       = OK (sol :: sols).
Proof.
  split; [| split].
  - eapply (attempts_relaxed _ relaxing_spec 1 [2]).
    + vm_compute. reflexivity.
    + vm_compute. reflexivity.
    + discriminate.
    + apply attempts_here.
  - vm_compute. reflexivity.
  - vm_compute. eauto.
Qed.


(** ** Exceptions raised while the stack is populated *)

Lemma mapM_first_Raise {A B : Type} (f : A -> result B) (l : list A)
  (e : exception) :
  (forall x e', In x l -> f x = Raise e' -> e' = e) ->
  (exists x, In x l /\ f x = Raise e) ->
  mapM f l = Raise e.
Proof.
  induction l as [| x l IH]; intros Honly (x0 & Hin & Hx0); [contradiction |].
  simpl. destruct (f x) as [y | e'] eqn:E; simpl.
  - rewrite IH; [reflexivity | |].
    + intros x' e'' Hx'. apply Honly. right. exact Hx'.
    + destruct Hin as [-> | Hin]; [congruence | eauto].
  - f_equal. apply (Honly x); [left; reflexivity | exact E].
Qed.

(** X5. [solve] raises [IndexError] when the matrix has no row, and when the
    first row has a cell and some upload sequence is empty. *)
Theorem solve_index_error spec strategy :
  CodeMatrix.cells (code_matrix spec) = []
  \/ (exists v row0 rest s,
        CodeMatrix.cells (code_matrix spec) = (v :: row0) :: rest
        /\ In s (upload_sequences spec)
        /\ UploadSequence.cells s = []) ->
  solve spec strategy = Raise IndexError.
Proof.
  intros H. rewrite solve_unfold.
  assert (Hitems : initial_items spec = Raise IndexError).
  { unfold initial_items, CodeMatrix.iterate_row.
    destruct H as [E | (v & row0 & rest & s & E & Hs & Hempty)]; rewrite E.
    - reflexivity.
    - assert (Hrow : py_getitem ((v :: row0) :: rest) (Z.of_nat 0)
                     = OK (v :: row0))
        by (apply py_getitem_nat; reflexivity).
      rewrite Hrow. cbn [bind]. unfold enumerate. cbn [length seq combine mapM].
      assert (Hlens : mapM (initial_incomplete v) (upload_sequences spec)
                      = Raise IndexError).
      { apply mapM_first_Raise.
        - intros s' e' _. unfold initial_incomplete, UploadSequence.getitem.
          destruct (py_getitem (UploadSequence.cells s') 0) as [c | e''] eqn:G;
            simpl; [discriminate |].
          intros He. injection He as <-. eapply py_getitem_raises. exact G.
        - exists s. split; [exact Hs |].
          unfold initial_incomplete, UploadSequence.getitem.
          rewrite Hempty. reflexivity. }
      unfold initial_item. rewrite Hlens. reflexivity. }
  unfold _solve_internal, dfs_search. rewrite Hitems. reflexivity.
Qed.

Local Open Scope string_scope.

Lemma solve_index_error_witness :
  solve {| code_matrix := CodeMatrix.mk [];
           upload_sequences := [UploadSequence.mk ["55"] 1];
           buffer_size := 2 |} FIND_ALL_SOLUTIONS
  = Raise IndexError
  /\ solve {| code_matrix := easy_matrix;
              upload_sequences :=
                [UploadSequence.mk ["55"] 1; UploadSequence.mk [] 2];
              buffer_size := 2 |} FIND_ALL_SOLUTIONS
     = Raise IndexError.
Proof.
  split.
  - apply solve_index_error. left. reflexivity.
  - apply solve_index_error. right.
    exists "BD", ["55"], [["E9"; "1C"]], (UploadSequence.mk [] 2).
    split; [reflexivity |]. split; [right; left; reflexivity | reflexivity].
Defined.

Local Close Scope string_scope.

Lemma _solve_internal_empty_first_row spec strategy rest :
  CodeMatrix.cells (code_matrix spec) = [] :: rest ->
  _solve_internal spec strategy = OK [].
Proof.
  intros Hrows.
  unfold _solve_internal, dfs_search, initial_items, CodeMatrix.iterate_row.
  rewrite Hrows.
  assert (Hrow : py_getitem ([] :: rest) (Z.of_nat 0)
                 = OK (@nil CellValueType))
    by (apply py_getitem_nat; reflexivity).
  rewrite Hrow. cbn [bind enumerate length seq combine mapM rev].
  rewrite dfs_loop_unfold. reflexivity.
Qed.

(** X6. With an empty first row nothing is put on the stack: whatever the
    upload sequences and the other rows are, the engine returns the empty
    list, on the specification given and on every specification [solve]
    retries with.  So [solve] returns no solution: the empty list at once
    when all sequences have one priority, and nothing but the empty list
    after any retries. *)
Theorem engine_empty_first_row spec strategy rest :
  CodeMatrix.cells (code_matrix spec) = [] :: rest ->
  _solve_internal spec strategy = OK []
  /\ (forall final,
        attempts strategy spec final ->
        _solve_internal final strategy = OK [])
  /\ ((forall s1 s2,
         In s1 (upload_sequences spec) -> In s2 (upload_sequences spec) ->
         UploadSequence.priority s1 = UploadSequence.priority s2) ->
      solve spec strategy = OK [])
  /\ (forall sols, solve spec strategy = OK sols -> sols = []).
Proof.
  intros Hrows.
  assert (Hfinal : forall final,
             attempts strategy spec final ->
             _solve_internal final strategy = OK []).
  { intros final Hatt. apply (_solve_internal_empty_first_row _ _ rest).
    rewrite (proj1 (attempts_same _ _ _ Hatt)). exact Hrows. }
  split; [apply Hfinal, attempts_here |]. split; [exact Hfinal |]. split.
  - intros Hsame. rewrite (solve_single_tier _ _ Hsame).
    apply Hfinal, attempts_here.
  - intros sols Hsols. apply solve_final in Hsols.
    destruct Hsols as (final & Hatt & Hint).
    rewrite (Hfinal _ Hatt) in Hint. congruence.
Qed.

Local Open Scope string_scope.

Lemma engine_empty_first_row_witness :
  _solve_internal
    {| code_matrix := CodeMatrix.mk [[]; ["E9"; "1C"]];
       upload_sequences := [UploadSequence.mk ["E9"] 1; UploadSequence.mk [] 1];
       buffer_size := 2 |} FIND_ALL_SOLUTIONS
  = OK []
  /\ solve
       {| code_matrix := CodeMatrix.mk [[]; ["E9"; "1C"]];
          upload_sequences :=
            [UploadSequence.mk ["E9"] 1; UploadSequence.mk [] 1];
          buffer_size := 2 |} FIND_ALL_SOLUTIONS
     = OK [].
Proof.
  destruct (engine_empty_first_row
              {| code_matrix := CodeMatrix.mk [[]; ["E9"; "1C"]];
                 upload_sequences :=
                   [UploadSequence.mk ["E9"] 1; UploadSequence.mk [] 1];
                 buffer_size := 2 |} FIND_ALL_SOLUTIONS [["E9"; "1C"]])
    as (Hengine & _ & Hsolve & _); [reflexivity |].
  split; [exact Hengine |]. apply Hsolve.
  intros s1 s2 [<- | [<- | []]] [<- | [<- | []]]; reflexivity.
Defined.

Local Close Scope string_scope.


(** ** The exhaustive strategy finds every accepted search point *)

Section Exhaustive.

Variable spec : GameSpecification.

Lemma descends_last p parent children q :
  descends spec p parent ->
  is_expanded spec parent = true ->
  expand spec parent = OK children ->
  In q children ->
  descends spec p q.
Proof.
  induction 1 as [p | p children' c parent Hexp Hch Hc _ IH];
    intros Hexp' Hch' Hq.
  - eapply descends_next; eauto. constructor.
  - eapply descends_next; eauto.
Qed.

Lemma reachable_descends q :
  reachable spec q ->
  exists items p,
    initial_items spec = OK items /\ In p items /\ descends spec p q.
Proof.
  induction 1 as [items p Hitems Hin
                 | parent children q _ (items & p & Hitems & Hin & Hd)
                     Hexp Hch Hq].
  - exists items, p. split; [exact Hitems |]. split; [exact Hin | constructor].
  - exists items, p. split; [exact Hitems |]. split; [exact Hin |].
    eapply descends_last; eauto.
Qed.

Lemma is_expanded_sum p :
  is_expanded spec p = true -> py_sum (incomplete_sequence_length p) <> 0.
Proof.
  unfold is_expanded. intros H. apply andb_true_iff in H.
  destruct H as [H _]. apply negb_true_iff, Z.eqb_neq in H. exact H.
Qed.

Lemma dfs_exits_all st sols :
  dfs_exits spec FIND_ALL_SOLUTIONS st (OK sols) ->
  (forall sol, In sol (solutions st) -> In sol sols)
  /\ (forall p q,
        In p (search_stack st) ->
        descends spec p q ->
        py_sum (incomplete_sequence_length q) = 0 ->
        In (mkSolution (ordered_steps q)) sols).
Proof.
  intros H. remember (OK sols) as r eqn:Er.
  induction H as [st r Hstep | st st' r Hstep _ IH]; subst r.
  - unfold dfs_step in Hstep.
    destruct (search_stack st) as [| point stack].
    { injection Hstep as <-. split; [auto | intros p q []]. }
    destruct (py_sum (incomplete_sequence_length point) =? 0);
      [discriminate |].
    destruct (py_max (incomplete_sequence_length point)) as [longest |];
      [| discriminate].
    destruct (_ <? longest); [discriminate |].
    destruct (expand spec point); discriminate.
  - destruct (IH eq_refl) as [IHsols IHstack]. clear IH.
    unfold dfs_step in Hstep.
    destruct (search_stack st) as [| point stack]; [discriminate |].
    destruct (Z.eqb_spec (py_sum (incomplete_sequence_length point)) 0)
      as [Hsum | Hsum].
    { injection Hstep as <-. simpl in *. split.
      - intros sol Hsol. apply IHsols. apply in_or_app. left. exact Hsol.
      - intros p q [<- | Hp] Hd Hq.
        + inversion Hd as [| ? ? ? ? Hexp]; subst.
          * apply IHsols. apply in_or_app. right. left. reflexivity.
          * apply is_expanded_sum in Hexp. contradiction.
        + eapply IHstack; eauto. }
    destruct (py_max (incomplete_sequence_length point)) as [longest |] eqn:Emax;
      [| discriminate].
    destruct (Z.ltb_spec (buffer_size spec - StepDict.len (item_steps point))
                longest) as [Hlt | Hge].
    { injection Hstep as <-. simpl in *. split; [exact IHsols |].
      intros p q [<- | Hp] Hd Hq.
      - inversion Hd as [| ? ? ? ? Hexp]; subst; [contradiction |].
        unfold is_expanded in Hexp. rewrite Emax in Hexp.
        apply andb_true_iff in Hexp. destruct Hexp as [_ Hexp].
        apply negb_true_iff, Z.ltb_ge in Hexp. lia.
      - eapply IHstack; eauto. }
    destruct (expand spec point) as [children |] eqn:Eexp; [| discriminate].
    injection Hstep as <-. simpl in *. split; [exact IHsols |].
    intros p q [<- | Hp] Hd Hq.
    + inversion Hd as [| ? children' c ? _ Hch Hc Hd']; subst;
        [contradiction |].
      rewrite Eexp in Hch. injection Hch as <-.
      apply (IHstack c q); [| exact Hd' | exact Hq].
      apply in_or_app. left. apply in_rev. rewrite rev_involutive. exact Hc.
    + apply (IHstack p q); [| exact Hd | exact Hq].
      apply in_or_app. right. exact Hp.
Qed.

Lemma _solve_internal_complete sols point :
  _solve_internal spec FIND_ALL_SOLUTIONS = OK sols ->
  reachable spec point ->
  py_sum (incomplete_sequence_length point) = 0 ->
  In (mkSolution (path point)) sols.
Proof.
  intros H Hreach Hsum.
  apply _solve_internal_found in H. destruct H as (found & Hfound & ->).
  eapply Permutation_in; [apply sorted_by_perm |].
  unfold dfs_search in Hfound. inv_bind Hfound.
  destruct (reachable_descends _ Hreach) as (items & p & Hitems & Hp & Hd).
  rewrite Ha in Hitems. injection Hitems as <-.
  rewrite <- (ordered_steps_path spec point (reachable_ok _ _ Hreach)).
  pose proof (dfs_loop_exits spec FIND_ALL_SOLUTIONS
                (mkLoopState (rev a) [])) as Hex.
  rewrite Hfound in Hex. apply dfs_exits_all in Hex.
  destruct Hex as [_ Hstack]. apply (Hstack p point); simpl; auto.
  apply in_rev. rewrite rev_involutive. exact Hp.
Qed.

(** X7. Under [FIND_ALL_SOLUTIONS] the engine returns exactly the paths of the
    search points it constructs whose counts sum to zero. *)
Theorem find_all_exhaustive sols sol :
  _solve_internal spec FIND_ALL_SOLUTIONS = OK sols ->
  (In sol sols
   <-> exists point,
         reachable spec point
         /\ py_sum (incomplete_sequence_length point) = 0
         /\ sol = mkSolution (path point)).
Proof.
  intros H. split.
  - intros Hsol. pose proof (_solve_internal_ok _ _ _ H) as Hall.
    rewrite Forall_forall in Hall.
    destruct (Hall sol Hsol) as (point & Hreach & Hsum & ->).
    exists point. split; [exact Hreach |]. split; [exact Hsum |].
    rewrite (ordered_steps_path spec point (reachable_ok _ _ Hreach)).
    reflexivity.
  - intros (point & Hreach & Hsum & ->).
    eapply _solve_internal_complete; eauto.
Qed.

End Exhaustive.

Local Open Scope string_scope.

Lemma find_all_exhaustive_witness :
  In (mkSolution [mkSolutionStep "55" 0 1; mkSolutionStep "1C" 1 1])
    [mkSolution [mkSolutionStep "55" 0 1; mkSolutionStep "1C" 1 1]]
  <-> exists point,
        reachable easy_spec point
        /\ py_sum (incomplete_sequence_length point) = 0
        /\ mkSolution [mkSolutionStep "55" 0 1; mkSolutionStep "1C" 1 1]
           = mkSolution (path point).
Proof.
  apply (find_all_exhaustive easy_spec). vm_compute. reflexivity.
Defined.

Local Close Scope string_scope.


(** ** The first-solution strategy stops at the first discovery *)

Section FirstDiscovery.

Variable spec : GameSpecification.

(** What the exhaustive loop returns is what it starts with followed by
    discoveries that depend on the stack only. *)
Lemma dfs_exits_all_append st sols :
  dfs_exits spec FIND_ALL_SOLUTIONS st (OK sols) ->
  exists discovered,
    sols = solutions st ++ discovered
    /\ forall found,
         dfs_exits spec FIND_ALL_SOLUTIONS
           (mkLoopState (search_stack st) found) (OK (found ++ discovered)).
Proof.
  intros H. remember (OK sols) as r eqn:Er.
  induction H as [st r Hstep | st st' r Hstep _ IH]; subst r.
  - unfold dfs_step in Hstep.
    destruct (search_stack st) as [| point stack] eqn:Est.
    { injection Hstep as <-. exists []. rewrite app_nil_r.
      split; [reflexivity |]. intros found. rewrite app_nil_r.
      apply exits_break. reflexivity. }
    destruct (py_sum (incomplete_sequence_length point) =? 0);
      [discriminate |].
    destruct (py_max (incomplete_sequence_length point)) as [longest |];
      [| discriminate].
    destruct (_ <? longest); [discriminate |].
    destruct (expand spec point); discriminate.
  - destruct (IH eq_refl) as (discovered & Hsols & Hany). clear IH.
    unfold dfs_step in Hstep.
    destruct (search_stack st) as [| point stack] eqn:Est; [discriminate |].
    destruct (py_sum (incomplete_sequence_length point) =? 0) eqn:Hsum.
    { injection Hstep as <-. simpl in *.
      exists (mkSolution (ordered_steps point) :: discovered). split.
      - rewrite Hsols, <- app_assoc. reflexivity.
      - intros found. eapply exits_continue.
        + unfold dfs_step. simpl. rewrite Hsum. reflexivity.
        + specialize (Hany (found ++ [mkSolution (ordered_steps point)])).
          rewrite <- app_assoc in Hany. exact Hany. }
    destruct (py_max (incomplete_sequence_length point)) as [longest |] eqn:Emax;
      [| discriminate].
    destruct (_ <? longest) eqn:Hslack.
    { injection Hstep as <-. simpl in *. exists discovered.
      split; [exact Hsols |]. intros found. eapply exits_continue.
      - unfold dfs_step. simpl. rewrite Hsum, Emax, Hslack. reflexivity.
      - apply Hany. }
    destruct (expand spec point) as [children |] eqn:Eexp; [| discriminate].
    injection Hstep as <-. simpl in *. exists discovered.
    split; [exact Hsols |]. intros found. eapply exits_continue.
    + unfold dfs_step. simpl. rewrite Hsum, Emax, Hslack, Eexp. reflexivity.
    + apply Hany.
Qed.

Lemma dfs_exits_first_of_all st discovered :
  dfs_exits spec FIND_ALL_SOLUTIONS st (OK discovered) ->
  solutions st = [] ->
  dfs_exits spec FIND_FIRST_SOLUTION st (OK (firstn 1 discovered)).
Proof.
  intros H. remember (OK discovered) as r eqn:Er.
  induction H as [st r Hstep | st st' r Hstep Hrest IH]; intros Hnil; subst r.
  - apply exits_break. unfold dfs_step in *.
    destruct (search_stack st) as [| point stack].
    { injection Hstep as <-. rewrite Hnil. reflexivity. }
    destruct (py_sum (incomplete_sequence_length point) =? 0);
      [discriminate |].
    destruct (py_max (incomplete_sequence_length point)) as [longest |];
      [| discriminate].
    destruct (_ <? longest); [discriminate |].
    destruct (expand spec point); discriminate.
  - unfold dfs_step in Hstep.
    destruct (search_stack st) as [| point stack] eqn:Est; [discriminate |].
    destruct (py_sum (incomplete_sequence_length point) =? 0) eqn:Hsum.
    { injection Hstep as <-. apply dfs_exits_all_append in Hrest.
      destruct Hrest as (rest & -> & _). simpl. rewrite Hnil. simpl.
      apply exits_break. unfold dfs_step. rewrite Est, Hsum, Hnil.
      reflexivity. }
    destruct (py_max (incomplete_sequence_length point)) as [longest |] eqn:Emax;
      [| discriminate].
    destruct (_ <? longest) eqn:Hslack.
    { injection Hstep as <-. eapply exits_continue.
      - unfold dfs_step. rewrite Est, Hsum, Emax, Hslack. reflexivity.
      - apply IH; [reflexivity | exact Hnil]. }
    destruct (expand spec point) as [children |] eqn:Eexp; [| discriminate].
    injection Hstep as <-. eapply exits_continue.
    + unfold dfs_step. rewrite Est, Hsum, Emax, Hslack, Eexp. reflexivity.
    + apply IH; [reflexivity | exact Hnil].
Qed.

Lemma dfs_search_first_of_all discovered :
  dfs_search spec FIND_ALL_SOLUTIONS = OK discovered ->
  dfs_search spec FIND_FIRST_SOLUTION = OK (firstn 1 discovered).
Proof.
  unfold dfs_search. intros H. inv_bind H. rewrite Ha. simpl.
  eapply dfs_exits_deterministic; [apply dfs_loop_exits |].
  apply dfs_exits_first_of_all; [| reflexivity].
  rewrite <- H. apply dfs_loop_exits.
Qed.

Lemma _solve_internal_first_of_all discovered :
  dfs_search spec FIND_ALL_SOLUTIONS = OK discovered ->
  _solve_internal spec FIND_FIRST_SOLUTION = OK (firstn 1 discovered).
Proof.
  intros H. unfold _solve_internal.
  rewrite (dfs_search_first_of_all _ H). simpl.
  destruct discovered as [| sol rest]; reflexivity.
Qed.

End FirstDiscovery.


Local Open Scope string_scope.


Local Close Scope string_scope.


(** ** What relaxation removes and what it keeps *)

Lemma sorted_nodup_unique (l1 l2 : list Z) :
  Sorted (key_le (fun p => p)) l1 -> NoDup l1 ->
  Sorted (key_le (fun p => p)) l2 -> NoDup l2 ->
  (forall x, In x l1 <-> In x l2) ->
  l1 = l2.
Proof.
  revert l2. induction l1 as [| x l1 IH]; intros l2 Hs1 Hn1 Hs2 Hn2 Hsame.
  - destruct l2 as [| y l2]; [reflexivity |].
    destruct (proj2 (Hsame y) (or_introl eq_refl)).
  - destruct l2 as [| y l2].
    { destruct (proj1 (Hsame x) (or_introl eq_refl)). }
    assert (Hxy : x = y).
    { pose proof (Sorted_id_head x l1 Hs1 y
                    (proj2 (Hsame y) (or_introl eq_refl))).
      pose proof (Sorted_id_head y l2 Hs2 x
                    (proj1 (Hsame x) (or_introl eq_refl))).
      lia. }
    subst y. f_equal.
    inversion Hs1; subst. inversion Hs2; subst.
    inversion Hn1 as [| ? ? Hx1 Hn1']; subst.
    inversion Hn2 as [| ? ? Hx2 Hn2']; subst.
    apply IH; try assumption.
    intros z. split; intros Hz.
    + destruct (proj1 (Hsame z) (or_intror Hz)) as [<- | Hz']; tauto.
    + destruct (proj2 (Hsame z) (or_intror Hz)) as [<- | Hz']; tauto.
Qed.

Lemma updated_spec_unique_priorities spec lowest rest :
  unique_priorities spec = lowest :: rest ->
  unique_priorities (updated_spec spec lowest) = rest.
Proof.
  intros Hu. destruct (unique_priorities_lowest _ _ _ Hu) as [_ Hmin].
  pose proof (NoDup_unique_priorities spec) as Hnd. rewrite Hu in Hnd.
  pose proof (sorted_by_sorted (fun p : Z => p)
                (py_set (map UploadSequence.priority (upload_sequences spec))))
    as Hsorted.
  fold (unique_priorities spec) in Hsorted. rewrite Hu in Hsorted.
  apply sorted_nodup_unique.
  - apply sorted_by_sorted.
  - apply NoDup_unique_priorities.
  - inversion Hsorted; assumption.
  - inversion Hnd; assumption.
  - intros p. rewrite In_unique_priorities. unfold updated_spec. simpl.
    rewrite in_map_iff. split.
    + intros (s & <- & Hs). apply filter_In in Hs. destruct Hs as [Hs Hlt].
      apply Z.ltb_lt in Hlt.
      assert (Hin : In (UploadSequence.priority s) (unique_priorities spec))
        by (apply In_unique_priorities, in_map; exact Hs).
      rewrite Hu in Hin. destruct Hin as [E | Hin]; [lia | exact Hin].
    + intros Hp.
      assert (Hin : In p (unique_priorities spec))
        by (rewrite Hu; right; exact Hp).
      apply In_unique_priorities, in_map_iff in Hin.
      destruct Hin as (s & <- & Hs). exists s. split; [reflexivity |].
      apply filter_In. split; [exact Hs |]. apply Z.ltb_lt.
      specialize (Hmin s Hs).
      assert (UploadSequence.priority s <> lowest).
      { intros E. rewrite E in Hp. inversion Hnd; contradiction. }
      lia.
Qed.

(** X12. One relaxation removes exactly the sequences of the lowest priority
    and leaves the other priorities as they are. *)
Theorem relaxation_removes_lowest spec lowest rest :
  unique_priorities spec = lowest :: rest ->
  unique_priorities (updated_spec spec lowest) = rest
  /\ upload_sequences (updated_spec spec lowest)
     = filter (fun s => negb (UploadSequence.priority s =? lowest))
         (upload_sequences spec).
Proof.
  intros Hu. split; [apply updated_spec_unique_priorities; exact Hu |].
  destruct (unique_priorities_lowest _ _ _ Hu) as [_ Hmin].
  unfold updated_spec. simpl. apply filter_ext_in. intros s Hs.
  specialize (Hmin s Hs).
  destruct (Z.ltb_spec lowest (UploadSequence.priority s));
    destruct (Z.eqb_spec (UploadSequence.priority s) lowest);
    try reflexivity; lia.
Qed.

Local Open Scope string_scope.

Lemma relaxation_removes_lowest_witness :
  unique_priorities (updated_spec relaxing_spec 1) = [2%Z]
  /\ upload_sequences (updated_spec relaxing_spec 1)
     = filter (fun s => negb (UploadSequence.priority s =? 1)%Z)
         (upload_sequences relaxing_spec).
Proof.
  apply (relaxation_removes_lowest relaxing_spec 1 [2%Z]). reflexivity.
Defined.

Local Close Scope string_scope.

(** Relaxation keeps the sequences of the highest priority. *)
Lemma attempts_keep_highest strategy spec final s :
  attempts strategy spec final ->
  In s (upload_sequences spec) ->
  (forall s', In s' (upload_sequences spec) ->
     UploadSequence.priority s' <= UploadSequence.priority s) ->
  In s (upload_sequences final).
Proof.
  induction 1 as [| spec lowest rest final _ Hu Hrest _ IH]; intros Hs Hmax;
    [exact Hs |].
  apply IH.
  - unfold updated_spec. simpl. apply filter_In. split; [exact Hs |].
    apply Z.ltb_lt.
    destruct rest as [| second others]; [contradiction |].
    pose proof (NoDup_unique_priorities spec) as Hnd. rewrite Hu in Hnd.
    pose proof (sorted_by_sorted (fun p : Z => p)
                  (py_set (map UploadSequence.priority (upload_sequences spec))))
      as Hsorted.
    fold (unique_priorities spec) in Hsorted. rewrite Hu in Hsorted.
    assert (Hle : lowest <= second)
      by (apply (Sorted_id_head _ _ Hsorted); right; left; reflexivity).
    assert (Hne : lowest <> second).
    { intros ->. inversion Hnd as [| ? ? Hnotin _]; subst.
      apply Hnotin. left. reflexivity. }
    assert (Hin : In second (unique_priorities spec))
      by (rewrite Hu; right; left; reflexivity).
    apply In_unique_priorities, in_map_iff in Hin.
    destruct Hin as (s2 & <- & Hs2). specialize (Hmax s2 Hs2). lia.
  - intros s' Hs'. unfold updated_spec in Hs'. simpl in Hs'.
    apply filter_In in Hs'. apply Hmax. apply Hs'.
Qed.

(** X13. Whatever is relaxed, every solution [solve] returns contains every
    upload sequence of the highest priority as a contiguous run. *)
Theorem highest_priority_covered spec strategy sols sol s :
  solve spec strategy = OK sols ->
  In sol sols ->
  In s (upload_sequences spec) ->
  (forall s', In s' (upload_sequences spec) ->
     UploadSequence.priority s' <= UploadSequence.priority s) ->
  contiguous_run (UploadSequence.cells s) (map value (steps sol)).
Proof.
  intros H Hsol Hs Hmax.
  destruct (solve_solution _ _ _ _ H Hsol)
    as (final & point & Hatt & _ & Hok & Hsum & ->).
  apply (accepted_covers final); try assumption.
  eapply attempts_keep_highest; eauto.
Qed.

Local Open Scope string_scope.

Lemma highest_priority_covered_witness :
  contiguous_run ["55"; "1C"]
    (map value [mkSolutionStep "55" 0 1; mkSolutionStep "1C" 1 1]).
Proof.
  apply (highest_priority_covered relaxing_spec FIND_FIRST_SOLUTION
           [mkSolution [mkSolutionStep "55" 0 1; mkSolutionStep "1C" 1 1]]
           (mkSolution [mkSolutionStep "55" 0 1; mkSolutionStep "1C" 1 1])
           (UploadSequence.mk ["55"; "1C"] 2)).
  - vm_compute. reflexivity.
  - left. reflexivity.
  - right. left. reflexivity.
  - intros s' [<- | [<- | []]]; simpl; lia.
Defined.

Local Close Scope string_scope.


(** ** The warnings [solve] prints *)

Lemma solve_printing_rec_value (calls : nat) spec strategy :
  snd (solve_printing_rec calls spec strategy) = solve_rec calls spec strategy.
Proof.
  revert spec. induction calls as [| calls IH]; intros spec; simpl;
    destruct (_solve_internal spec strategy) as [[| sol sols] |]; simpl;
    try reflexivity;
    destruct (unique_priorities spec) as [| lowest [| second rest]];
    try reflexivity.
  specialize (IH (updated_spec spec lowest)).
  destruct (solve_printing_rec calls (updated_spec spec lowest) strategy).
  exact IH.
Qed.

Lemma solve_printing_rec_warnings (calls : nat) spec strategy :
  exists k,
    (k = 0 \/ k < length (unique_priorities spec))%nat
    /\ fst (solve_printing_rec calls spec strategy)
       = map warning (firstn k (unique_priorities spec)).
Proof.
  revert spec. induction calls as [| calls IH]; intros spec; simpl.
  - exists 0%nat. split; [left; reflexivity |].
    destruct (_solve_internal spec strategy) as [[| sol sols] |];
      try reflexivity.
    destruct (unique_priorities spec) as [| lowest [| second rest]];
      reflexivity.
  - destruct (_solve_internal spec strategy) as [[| sol sols] |];
      try (exists 0%nat; split; [left; reflexivity | reflexivity]).
    destruct (unique_priorities spec) as [| lowest [| second rest]] eqn:Hu;
      try (exists 0%nat; split; [left; reflexivity | reflexivity]).
    destruct (IH (updated_spec spec lowest)) as (k & Hk & Hprinted).
    rewrite (updated_spec_unique_priorities _ _ _ Hu) in Hk, Hprinted.
    destruct (solve_printing_rec calls (updated_spec spec lowest) strategy)
      as [printed solutions].
    simpl in Hprinted. exists (S k). split.
    + right. simpl in *. lia.
    + simpl. rewrite Hprinted. reflexivity.
Qed.

(** X14. [solve_printing] returns or raises what [solve] does, and the
    lines printed are the warnings for the [k] lowest priorities, in
    ascending order, for some [k] smaller than the number of distinct
    priorities (or zero). *)
Theorem solve_printing_warnings spec strategy :
  snd (solve_printing spec strategy) = solve spec strategy
  /\ exists k,
       (k = 0 \/ k < length (unique_priorities spec))%nat
       /\ fst (solve_printing spec strategy)
          = map warning (firstn k (unique_priorities spec)).
Proof.
  split.
  - apply solve_printing_rec_value.
  - apply solve_printing_rec_warnings.
Qed.


(** ** Abandoned search points have no solution within the buffer *)

Lemma Forall2_compose {A B C : Type} (R : A -> B -> Prop) (S : B -> C -> Prop)
  (T : A -> C -> Prop) l1 l2 l3 :
  (forall x y z, R x y -> S y z -> T x z) ->
  Forall2 R l1 l2 -> Forall2 S l2 l3 -> Forall2 T l1 l3.
Proof.
  intros HT H. revert l3. induction H as [| x y l1 l2 Hxy _ IH]; intros l3 H3;
    inversion H3; subst; constructor; eauto.
Qed.

Lemma Forall2_same {A : Type} (R : A -> A -> Prop) (l : list A) :
  (forall x, R x x) -> Forall2 R l l.
Proof. intros HR. induction l; constructor; auto. Qed.

Lemma mapM_combine_Forall2_r {S R : Type} (Q : R -> R -> Prop)
  (f : S * R -> result R) (ss : list S) (rs rs' : list R) :
  (forall s r r', f (s, r) = OK r' -> Q r r') ->
  length rs = length ss ->
  mapM f (combine ss rs) = OK rs' ->
  Forall2 Q rs rs'.
Proof.
  intros HQ. revert rs rs'. induction ss as [| s ss IH]; intros rs rs' Hlen H.
  - destruct rs; [| discriminate]. injection H as <-. constructor.
  - destruct rs as [| r rs]; [discriminate |]. simpl in H.
    inv_bind H. inv_bind H. injection H as <-.
    constructor; [eapply HQ; eauto |].
    apply IH; [simpl in Hlen; lia | assumption].
Qed.

(** One more step lowers a count by one at most. *)
Lemma next_incomplete_lower (v : CellValueType) s (r r' : Z) :
  next_incomplete v (s, r) = OK r' ->
  r - 1 <= r' /\ (0 <= r -> 0 <= r').
Proof.
  unfold next_incomplete, UploadSequence.getitem, UploadSequence.len.
  destruct (Z.eqb_spec r 0) as [-> | Hr0].
  - intros H. injection H as <-. lia.
  - intros H. inv_bind H. injection H as <-.
    destruct (String.eqb a v); [lia |].
    destruct (Z_lt_le_dec 0 r) as [Hpos | Hneg].
    + apply py_getitem_neg in Ha; [lia | exact Hpos].
    + lia.
Qed.

Lemma py_max_In (l : list Z) (longest : Z) :
  py_max l = OK longest -> In longest l.
Proof.
  destruct l as [| x l]; [discriminate |]. simpl. intros H. injection H as <-.
  revert x. induction l as [| y l IH]; intros x; simpl; [auto |].
  destruct (IH (Z.max x y)) as [E | Hin]; [| auto].
  rewrite <- E. destruct (Z.max_spec x y) as [[_ ->] | [_ ->]]; auto.
Qed.

Section Pruning.

Variable spec : GameSpecification.

Lemma expand_child_counts p children c :
  expand spec p = OK children ->
  In c children ->
  length (incomplete_sequence_length p) = length (upload_sequences spec) ->
  steps_between p c = 1
  /\ length (incomplete_sequence_length c) = length (upload_sequences spec)
  /\ Forall2 (fun r r' => r - 1 <= r' /\ (0 <= r -> 0 <= r'))
       (incomplete_sequence_length p) (incomplete_sequence_length c).
Proof.
  intros Hexp Hc Hlen.
  destruct (expand_child _ _ _ _ Hexp Hc)
    as (candidates & direction & step & _ & _ & Hfresh & Hnext).
  unfold next_search_point in Hnext. inv_bind Hnext. injection Hnext as <-.
  unfold steps_between. simpl. split; [| split].
  - rewrite StepDict_set_fresh by assumption.
    unfold StepDict.len. rewrite length_app. simpl. lia.
  - rewrite (mapM_length _ _ _ Ha), length_combine, Hlen. apply Nat.min_id.
  - eapply mapM_combine_Forall2_r; [| exact Hlen | exact Ha].
    intros s r r' Hr. eapply next_incomplete_lower. exact Hr.
Qed.

Lemma extends_counts p q :
  extends spec p q ->
  length (incomplete_sequence_length p) = length (upload_sequences spec) ->
  Forall2 (fun r r' => r - steps_between p q <= r' /\ (0 <= r -> 0 <= r'))
    (incomplete_sequence_length p) (incomplete_sequence_length q).
Proof.
  induction 1 as [p | p children c q Hexp Hc _ IH]; intros Hlen.
  - apply Forall2_same. intros r. unfold steps_between. lia.
  - destruct (expand_child_counts _ _ _ Hexp Hc Hlen) as (Hone & Hlen' & Hstep).
    specialize (IH Hlen').
    eapply Forall2_compose; [| exact Hstep | exact IH].
    intros x y z [Hxy Hxy'] [Hyz Hyz']. unfold steps_between in *.
    split; [lia | auto].
Qed.

End Pruning.

(** X11. A search point the engine abandons for lack of buffer has no
    continuation, however it is built, that completes every sequence within
    the buffer. *)
Theorem pruning_is_safe spec p q longest :
  reachable spec p ->
  py_max (incomplete_sequence_length p) = OK longest ->
  buffer_size spec - StepDict.len (item_steps p) < longest ->
  extends spec p q ->
  py_sum (incomplete_sequence_length q) = 0 ->
  buffer_size spec < StepDict.len (item_steps q).
Proof.
  intros Hreach Hmax Hslack Hext Hsum.
  pose proof (ok_tracks _ _ (reachable_ok _ _ Hreach)) as Htracks.
  pose proof (tracks_nonneg _ _ _ Htracks) as Hnn.
  assert (Hlen : length (incomplete_sequence_length p)
                 = length (upload_sequences spec))
    by (symmetry; eapply Forall2_length; exact Htracks).
  pose proof (extends_counts _ _ _ Hext Hlen) as Hcounts.
  apply py_max_In in Hmax.
  assert (Hq : Forall (fun r => 0 <= r) (incomplete_sequence_length q)).
  { clear - Hcounts Hnn. induction Hcounts as [| r r' rs rs' [_ Hr] _ IH];
      constructor; inversion Hnn; subst; auto. }
  pose proof (py_sum_zero _ Hq Hsum) as Hzero.
  clear - Hcounts Hmax Hzero Hslack.
  induction Hcounts as [| r r' rs rs' [Hr _] _ IH]; [contradiction |].
  inversion Hzero; subst. destruct Hmax as [-> | Hmax].
  - unfold steps_between in Hr. lia.
  - apply IH; assumption.
Qed.


Lemma pruning_is_safe_witness :
  buffer_size tight_spec < StepDict.len (item_steps tight_third_point).
Proof.
  apply (pruning_is_safe tight_spec tight_first_point tight_third_point 2).
  - eapply reachable_initial; [reflexivity | right; left; reflexivity].
  - reflexivity.
  - reflexivity.
  - apply (extends_next tight_spec _ [tight_second_point] tight_second_point);
      [reflexivity | left; reflexivity |].
    apply (extends_next tight_spec _ [tight_third_point] tight_third_point);
      [reflexivity | left; reflexivity |].
    apply extends_here.
  - reflexivity.
Defined.


(** ** No solution twice, none that continues another *)

Section Antichain.

Context {X : Type}.

Lemma is_prefix_refl (p : list X) : is_prefix p p.
Proof. exists []. symmetry. apply app_nil_r. Qed.

Lemma antichain_perm (l l' : list (list X)) :
  Permutation l l' -> antichain l -> antichain l'.
Proof.
  induction 1 as [| p l l' Hperm IH | p q l | l l' l'' _ IH1 _ IH2];
    intros H.
  - exact H.
  - inversion H as [| ? ? Hp Hl]; subst. constructor; [| apply IH; exact Hl].
    intros q Hq. apply Hp. eapply Permutation_in; [symmetry |]; eassumption.
  - inversion H as [| ? ? Hq Hl]; subst.
    inversion Hl as [| ? ? Hp Hl']; subst.
    constructor.
    + intros r [<- | Hr]; [| apply Hp; exact Hr].
      destruct (Hq p (or_introl eq_refl)). tauto.
    + constructor; [| exact Hl'].
      intros r Hr. apply Hq. right. exact Hr.
  - auto.
Qed.

Lemma antichain_app_r (l1 l2 : list (list X)) :
  antichain (l1 ++ l2) -> antichain l2.
Proof.
  induction l1 as [| p l1 IH]; simpl; intros H; [exact H |].
  inversion H; subst. auto.
Qed.

Lemma antichain_In (l : list (list X)) (p q : list X) :
  antichain l -> In p l -> In q l -> is_prefix p q -> p = q.
Proof.
  induction 1 as [| r l Hr _ IH]; intros Hp Hq Hpre; [contradiction |].
  destruct Hp as [<- | Hp]; destruct Hq as [<- | Hq].
  - reflexivity.
  - destruct (Hr q Hq). contradiction.
  - destruct (Hr p Hp). contradiction.
  - apply IH; assumption.
Qed.

Lemma antichain_NoDup (l : list (list X)) : antichain l -> NoDup l.
Proof.
  induction 1 as [| p l Hp _ IH]; constructor; [| exact IH].
  intros Hin. destruct (Hp p Hin) as [Hne _]. apply Hne. apply is_prefix_refl.
Qed.

Lemma is_prefix_snoc (q p : list X) (c : X) :
  is_prefix q (p ++ [c]) -> q = p ++ [c] \/ is_prefix q p.
Proof.
  intros [rest Hrest]. destruct rest as [| x rest].
  - left. rewrite app_nil_r in Hrest. auto.
  - right. destruct (@exists_last _ (x :: rest)) as (rest' & y & E);
      [discriminate |].
    rewrite E, app_assoc in Hrest. apply app_inj_tail in Hrest.
    destruct Hrest as [-> _]. exists rest'. reflexivity.
Qed.

(** Replacing a member by its one-step continuations keeps the family an
    antichain. *)
Lemma antichain_expand (p : list X) (cs : list X) (others : list (list X)) :
  antichain (p :: others) ->
  NoDup cs ->
  antichain (map (fun c => p ++ [c]) cs ++ others).
Proof.
  intros H Hcs. inversion H as [| ? ? Hp Hothers]; subst.
  induction Hcs as [| c cs Hc _ IH]; simpl; [exact Hothers |].
  constructor; [| exact IH].
  intros q Hq. apply in_app_or in Hq. destruct Hq as [Hq | Hq].
  - apply in_map_iff in Hq. destruct Hq as (c' & <- & Hc').
    assert (Hne : c <> c') by (intros ->; contradiction).
    split; intros [rest Hrest]; rewrite <- app_assoc in Hrest;
      apply app_inv_head in Hrest; injection Hrest as E _; congruence.
  - destruct (Hp q Hq) as [Hpq Hqp]. split.
    + intros [rest ->]. apply Hpq. exists ([c] ++ rest).
      rewrite app_assoc. reflexivity.
    + intros Hpre. apply is_prefix_snoc in Hpre.
      destruct Hpre as [-> | Hpre]; [| contradiction].
      apply Hpq. exists [c]. reflexivity.
Qed.

End Antichain.

Lemma NoDup_map_key {A B : Type} (f : nat * A -> B) (l : list (nat * A)) :
  (forall x y, f x = f y -> fst x = fst y) ->
  NoDup (map fst l) -> NoDup (map f l).
Proof.
  intros Hf. induction l as [| x l IH]; simpl; intros H; [constructor |].
  inversion H as [| ? ? Hx Hl]; subst. constructor; [| apply IH; exact Hl].
  intros Hin. apply in_map_iff in Hin. destruct Hin as (y & Hy & Hin).
  apply Hx. apply Hf in Hy. rewrite <- Hy. apply in_map. exact Hin.
Qed.

Lemma NoDup_filter_enumerate {A : Type} (f : nat * A -> bool) (l : list A) :
  NoDup (map fst (filter f (enumerate l))).
Proof.
  pose proof (seq_NoDup (length l) 0) as H. rewrite <- enumerate_fst in H.
  induction (enumerate l) as [| x e IH]; simpl in *; [constructor |].
  inversion H as [| ? ? Hx He]; subst.
  destruct (f x); simpl; [constructor |]; auto.
  intros Hin. apply Hx. apply in_map_iff in Hin.
  destruct Hin as (y & Hy & Hin). apply filter_In in Hin.
  rewrite <- Hy. apply in_map. apply Hin.
Qed.

Section Distinct.

Variable spec : GameSpecification.

Lemma next_steps_NoDup point candidates direction :
  next_steps spec point = OK (candidates, direction) -> NoDup candidates.
Proof.
  unfold next_steps, CodeMatrix.iterate_row, CodeMatrix.iterate_col.
  destruct (next_pick_direction point); intros H.
  - inv_bind H. inv_bind Ha. injection Ha as <-. injection H as <- _.
    apply NoDup_map_key; [| apply NoDup_filter_enumerate].
    intros x y E. injection E as _ E. exact E.
  - inv_bind H. inv_bind Ha. injection Ha as <-. injection H as <- _.
    apply NoDup_map_key; [| apply NoDup_filter_enumerate].
    intros x y E. injection E as _ E. exact E.
Qed.

(** The paths of the children are the path of the parent followed by one
    of pairwise distinct steps. *)
Lemma expand_paths point children :
  expand spec point = OK children ->
  exists cs,
    NoDup cs /\ map path children = map (fun c => path point ++ [c]) cs.
Proof.
  unfold expand. intros H. inv_bind H. destruct a as [candidates direction].
  simpl in H. rewrite push_next_steps_mapM in H. apply mapM_OK in H.
  apply next_steps_NoDup in Ha.
  exists (filter (fun c => negb (StepDict.contains (item_steps point) c))
            candidates).
  split; [apply NoDup_filter; exact Ha |].
  assert (Hfresh : Forall (fun c => StepDict.contains (item_steps point) c = false)
            (filter (fun c => negb (StepDict.contains (item_steps point) c))
               candidates)).
  { apply Forall_forall. intros c Hc. apply filter_In in Hc.
    apply negb_true_iff. apply Hc. }
  induction H as [| c child cs children Hchild _ IH]; [reflexivity |].
  inversion Hfresh as [| ? ? Hc Hcs]; subst. simpl. rewrite (IH Hcs).
  f_equal. unfold next_search_point in Hchild. inv_bind Hchild.
  injection Hchild as <-. unfold path. simpl.
  rewrite StepDict_set_fresh by exact Hc.
  unfold StepDict.keys. rewrite map_app. reflexivity.
Qed.

Lemma initial_items_paths items :
  initial_items spec = OK items ->
  exists cs, NoDup cs /\ map path items = map (fun c => [] ++ [c]) cs.
Proof.
  unfold initial_items, CodeMatrix.iterate_row. intros H.
  inv_bind H. inv_bind Ha. injection Ha as <-. apply mapM_OK in H.
  exists (map (fun c => mkSolutionStep (snd c) 0 (fst c)) (enumerate a0)).
  split.
  - apply NoDup_map_key.
    + intros x y E. injection E as _ E. exact E.
    + rewrite enumerate_fst. apply seq_NoDup.
  - induction H as [| [col v] item cells items Hitem _ IH]; [reflexivity |].
    simpl. rewrite IH. f_equal.
    unfold initial_item in Hitem. inv_bind Hitem. injection Hitem as <-.
    reflexivity.
Qed.

Lemma dfs_step_continue_antichain strategy st st' :
  state_ok spec st ->
  antichain (family st) ->
  dfs_step spec strategy st = Continue st' ->
  antichain (family st').
Proof.
  intros [Hstack _] Hanti. unfold dfs_step, family in *.
  destruct (search_stack st) as [| point stack]; [discriminate |].
  apply Forall_cons_iff in Hstack. destruct Hstack as [Hpoint _].
  apply reachable_ok in Hpoint.
  destruct (py_sum (incomplete_sequence_length point) =? 0).
  { destruct strategy; [discriminate |]. intros H. injection H as <-.
    simpl in *. rewrite map_app. simpl.
    rewrite (ordered_steps_path spec point Hpoint), app_assoc.
    eapply antichain_perm; [apply Permutation_cons_append | exact Hanti]. }
  destruct (py_max (incomplete_sequence_length point)) as [longest |];
    [| discriminate].
  destruct (_ <? longest).
  { intros H. injection H as <-. simpl in *. inversion Hanti; assumption. }
  destruct (expand spec point) as [children |] eqn:Eexp; [| discriminate].
  intros H. injection H as <-. simpl in *.
  destruct (expand_paths _ _ Eexp) as (cs & Hcs & Hpaths).
  rewrite map_app, map_rev, Hpaths, <- app_assoc.
  eapply antichain_perm;
    [apply Permutation_app_tail, Permutation_rev |].
  apply antichain_expand; assumption.
Qed.

Lemma dfs_step_break_antichain strategy st sols :
  state_ok spec st ->
  antichain (family st) ->
  dfs_step spec strategy st = Break (OK sols) ->
  antichain (map steps sols).
Proof.
  intros [Hstack _] Hanti. unfold dfs_step, family in *.
  destruct (search_stack st) as [| point stack].
  { intros H. injection H as <-. exact Hanti. }
  apply Forall_cons_iff in Hstack. destruct Hstack as [Hpoint _].
  apply reachable_ok in Hpoint.
  destruct (py_sum (incomplete_sequence_length point) =? 0).
  { destruct strategy; [| discriminate]. intros H. injection H as <-.
    simpl in *. rewrite map_app. simpl.
    rewrite (ordered_steps_path spec point Hpoint).
    apply (antichain_app_r (map path stack)). rewrite app_assoc.
    eapply antichain_perm; [apply Permutation_cons_append | exact Hanti]. }
  destruct (py_max (incomplete_sequence_length point)) as [longest |];
    [| discriminate].
  destruct (_ <? longest); [discriminate |].
  destruct (expand spec point); discriminate.
Qed.

Lemma dfs_exits_antichain strategy st sols :
  dfs_exits spec strategy st (OK sols) ->
  state_ok spec st ->
  antichain (family st) ->
  antichain (map steps sols).
Proof.
  intros H. remember (OK sols) as r eqn:Er.
  induction H as [st r Hstep | st st' r Hstep _ IH]; intros Hok Hanti; subst r.
  - eapply dfs_step_break_antichain; eauto.
  - apply IH; [reflexivity | |].
    + eapply dfs_step_continue_ok; eauto.
    + eapply dfs_step_continue_antichain; eauto.
Qed.

Lemma _solve_internal_antichain strategy sols :
  _solve_internal spec strategy = OK sols -> antichain (map steps sols).
Proof.
  intros H. apply _solve_internal_found in H. destruct H as (found & H & ->).
  eapply antichain_perm;
    [apply Permutation_map, sorted_by_perm |].
  unfold dfs_search in H. inv_bind H.
  eapply dfs_exits_antichain; [rewrite <- H; apply dfs_loop_exits | |].
  - split; simpl; [| constructor].
    apply Forall_forall. intros point Hpoint. apply in_rev in Hpoint.
    eapply reachable_initial; eauto.
  - unfold family. simpl. rewrite app_nil_r, map_rev.
    destruct (initial_items_paths _ Ha) as (cs & Hcs & ->).
    eapply antichain_perm; [apply Permutation_rev |].
    rewrite <- (app_nil_r (map _ cs)).
    apply antichain_expand; [| exact Hcs].
    constructor; [intros q [] | constructor].
Qed.

End Distinct.

(** X9. [solve] returns no solution twice, and none of its solutions is the
    beginning of another: the engine never continues a completed path. *)
Theorem solutions_distinct spec strategy sols :
  solve spec strategy = OK sols ->
  NoDup sols
  /\ forall sol1 sol2,
       In sol1 sols -> In sol2 sols ->
       is_prefix (steps sol1) (steps sol2) ->
       sol1 = sol2.
Proof.
  intros H. apply solve_final in H. destruct H as (final & _ & H).
  apply _solve_internal_antichain in H. split.
  - apply antichain_NoDup in H. eapply NoDup_map_inv. exact H.
  - intros sol1 sol2 H1 H2 Hpre.
    assert (E : steps sol1 = steps sol2).
    { eapply antichain_In; eauto; apply in_map; assumption. }
    destruct sol1, sol2. simpl in E. congruence.
Qed.


(** ** A path that spells the sequence is found *)

Lemma Forall2_In_l {A B : Type} (R : A -> B -> Prop) l1 l2 (x : A) :
  Forall2 R l1 l2 -> In x l1 -> exists y, In y l2 /\ R x y.
Proof.
  induction 1 as [| a b l1 l2 Hab _ IH]; intros Hx; [contradiction |].
  destruct Hx as [<- | Hx].
  - exists b. split; [left; reflexivity | exact Hab].
  - destruct (IH Hx) as (y & Hy & HR). exists y. split; [right |]; assumption.
Qed.

(** Every cell in line with the current step, other than the current cell,
    is a candidate. *)
Lemma next_steps_candidate spec point candidates direction c :
  next_steps spec point = OK (candidates, direction) ->
  In c (all_cells spec) ->
  match next_pick_direction point with
  | ROW =>
      row_idx c = row_idx (current_step point)
      /\ col_idx c <> col_idx (current_step point)
  | COLUMN =>
      col_idx c = col_idx (current_step point)
      /\ row_idx c <> row_idx (current_step point)
  end ->
  In c candidates.
Proof.
  unfold next_steps, CodeMatrix.iterate_row, CodeMatrix.iterate_col.
  intros H Hc Hline. apply In_all_cells in Hc.
  destruct Hc as (row & Hrow & Hv).
  destruct (next_pick_direction point); destruct Hline as [Hsame Hother].
  - inv_bind H. inv_bind Ha. injection Ha as <-. injection H as <- _.
    apply py_getitem_nat in Ha0. rewrite <- Hsame, Hrow in Ha0.
    injection Ha0 as <-.
    apply in_map_iff. exists (col_idx c, value c). split.
    + simpl. rewrite <- Hsame. destruct c; reflexivity.
    + apply filter_In. split; [apply In_enumerate; exact Hv |].
      simpl. apply negb_true_iff, Nat.eqb_neq. exact Hother.
  - inv_bind H. inv_bind Ha. injection Ha as <-. injection H as <- _.
    apply mapM_OK in Ha0.
    destruct (Forall2_nth_error_l _ _ _ _ _ Ha0 Hrow) as (v & Hv' & Hget).
    apply py_getitem_nat in Hget. rewrite <- Hsame, Hv in Hget.
    injection Hget as <-.
    apply in_map_iff. exists (row_idx c, value c). split.
    + simpl. rewrite <- Hsame. destruct c; reflexivity.
    + apply filter_In. split; [apply In_enumerate; exact Hv' |].
      simpl. apply negb_true_iff, Nat.eqb_neq. exact Hother.
Qed.

(** Two cells of the matrix with the same coordinates are the same step. *)
Lemma all_cells_same_place spec (a b : SolutionStep) :
  In a (all_cells spec) -> In b (all_cells spec) ->
  row_idx a = row_idx b -> col_idx a = col_idx b -> a = b.
Proof.
  intros Ha Hb Hrow Hcol. apply In_all_cells in Ha, Hb.
  destruct Ha as (ra & Hra & Hva). destruct Hb as (rb & Hrb & Hvb).
  rewrite Hrow, Hrb in Hra. injection Hra as <-.
  rewrite Hcol, Hvb in Hva. injection Hva as Hv.
  destruct a, b. simpl in *. congruence.
Qed.

Section DirectPath.

Variable spec : GameSpecification.
Variable s : UploadSequence.t.
Variable p : list SolutionStep.

Hypothesis Hwf : well_formed spec.
Hypothesis Hseq : upload_sequences spec = [s].
Hypothesis Hvalues : map value p = UploadSequence.cells s.
Hypothesis Hcells : forall c, In c p -> In c (all_cells spec).
Hypothesis Hnodup : NoDup p.
Hypothesis Halt : alternates p.
Hypothesis Hbuf : Z.of_nat (length p) <= buffer_size spec.

Lemma direct_len : UploadSequence.len s = Z.of_nat (length p).
Proof.
  unfold UploadSequence.len. rewrite <- Hvalues, length_map. reflexivity.
Qed.

Lemma direct_first :
  (1 <= length p)%nat ->
  exists point,
    reachable spec point
    /\ path point = firstn 1 p
    /\ incomplete_sequence_length point = [UploadSequence.len s - 1].
Proof.
  intros Hlen. destruct p as [| c0 rest] eqn:Ep; [simpl in Hlen; lia |].
  destruct Halt as [Hfirst _]. specialize (Hfirst c0 eq_refl).
  pose proof (Hcells c0 (or_introl eq_refl)) as Hc0.
  apply In_all_cells in Hc0. destruct Hc0 as (row0 & Hrow0 & Hv0).
  rewrite Hfirst in Hrow0.
  destruct (initial_items_total spec Hwf) as [items Hitems].
  pose proof Hitems as Hmap.
  unfold initial_items, CodeMatrix.iterate_row in Hmap.
  inv_bind Hmap. inv_bind Ha. injection Ha as <-.
  apply py_getitem_nat in Ha0. rewrite Hrow0 in Ha0. injection Ha0 as <-.
  apply mapM_OK in Hmap.
  destruct (Forall2_In_l _ _ _ (col_idx c0, value c0) Hmap)
    as (point & Hpoint & Hitem); [apply In_enumerate; exact Hv0 |].
  exists point. split; [eapply reachable_initial; eauto |].
  unfold initial_item in Hitem. rewrite Hseq in Hitem. simpl in Hitem.
  inv_bind Hitem. inv_bind Ha. injection Ha as <-. injection Hitem as <-.
  unfold path. simpl. split.
  - rewrite <- Hfirst. destruct c0; reflexivity.
  - unfold initial_incomplete, UploadSequence.getitem in Ha0.
    simpl in Hvalues. rewrite <- Hvalues in Ha0.
    assert (Hget : py_getitem (value c0 :: map value rest) (Z.of_nat 0)
                   = OK (value c0))
      by (apply py_getitem_nat; reflexivity).
    change (Z.of_nat 0) with 0 in Hget. rewrite Hget in Ha0. simpl in Ha0.
    rewrite String.eqb_refl in Ha0. injection Ha0 as <-. reflexivity.
Qed.

Lemma direct_next (k : nat) point :
  (1 <= k < length p)%nat ->
  reachable spec point ->
  path point = firstn k p ->
  incomplete_sequence_length point = [UploadSequence.len s - Z.of_nat k] ->
  exists child,
    reachable spec child
    /\ path child = firstn (S k) p
    /\ incomplete_sequence_length child
       = [UploadSequence.len s - Z.of_nat (S k)].
Proof.
  intros Hk Hreach Hpath Hcounts.
  pose proof (reachable_ok _ _ Hreach) as Hok.
  assert (Hlen : length (item_steps point) = k).
  { transitivity (length (path point)).
    - unfold path, StepDict.keys. symmetry. apply length_map.
    - rewrite Hpath. apply firstn_length_le. lia. }
  destruct (nth_error p k) as [c |] eqn:Hc;
    [| apply nth_error_None in Hc; lia].
  destruct (nth_error p (k - 1)) as [cur |] eqn:Hcur;
    [| apply nth_error_None in Hcur; lia].
  assert (Hcurrent : current_step point = cur).
  { destruct (ok_current _ _ Hok) as [before Hbefore].
    assert (E : nth_error (path point) (k - 1) = Some (current_step point)).
    { rewrite Hbefore.
      assert (Hb : length before = (k - 1)%nat).
      { apply (f_equal (@length _)) in Hbefore.
        rewrite length_app, Hpath, firstn_length_le in Hbefore by lia.
        simpl in Hbefore. lia. }
      rewrite nth_error_app2, Hb, Nat.sub_diag by lia. reflexivity. }
    rewrite Hpath, nth_error_firstn in E.
    destruct (Nat.ltb_spec (k - 1) k); [| lia]. congruence. }
  assert (Hexp : is_expanded spec point = true).
  { unfold is_expanded. rewrite Hcounts. simpl.
    unfold StepDict.len. rewrite Hlen, Z.add_0_r.
    pose proof direct_len.
    apply andb_true_iff. split; apply negb_true_iff.
    - apply Z.eqb_neq. lia.
    - apply Z.ltb_ge. lia. }
  destruct (expand_total spec Hwf _ Hreach) as [children Hchildren].
  pose proof Hchildren as Hmap. unfold expand in Hmap. inv_bind Hmap.
  destruct a as [candidates direction]. simpl in Hmap.
  rewrite push_next_steps_mapM in Hmap. apply mapM_OK in Hmap.
  assert (Hcin : In c (all_cells spec))
    by (apply Hcells; eapply nth_error_In; exact Hc).
  assert (Hcurin : In cur (all_cells spec))
    by (apply Hcells; eapply nth_error_In; exact Hcur).
  assert (Hne : c <> cur).
  { intros ->. pose proof (proj1 (NoDup_nth_error p) Hnodup) as Hnd.
    specialize (Hnd k (k - 1)%nat ltac:(lia)).
    rewrite Hc, Hcur in Hnd. specialize (Hnd eq_refl). lia. }
  assert (Hcand : In c candidates).
  { eapply next_steps_candidate; [exact Ha | exact Hcin |].
    rewrite (ok_direction _ _ Hok), Hcurrent.
    unfold path, StepDict.keys. rewrite length_map, Hlen.
    destruct Halt as [_ Hnext].
    specialize (Hnext (k - 1)%nat cur c Hcur).
    replace (S (k - 1)) with k in Hnext by lia. specialize (Hnext Hc).
    destruct (Nat.odd k); (split; [exact Hnext |]); intros Hsame;
      apply Hne; apply (all_cells_same_place spec); congruence. }
  assert (Hfresh : StepDict.contains (item_steps point) c = false).
  { destruct (StepDict.contains (item_steps point) c) eqn:E; [| reflexivity].
    apply StepDict_contains_In in E. fold (path point) in E.
    rewrite Hpath in E. apply In_nth_error in E. destruct E as [i Hi].
    rewrite nth_error_firstn in Hi.
    destruct (Nat.ltb_spec i k); [| discriminate].
    pose proof (proj1 (NoDup_nth_error p) Hnodup) as Hnd.
    specialize (Hnd i k ltac:(lia)). rewrite Hi, Hc in Hnd.
    specialize (Hnd eq_refl). lia. }
  destruct (Forall2_In_l _ _ _ c Hmap) as (child & Hchild & Hbuilt).
  { apply filter_In. split; [exact Hcand |]. rewrite Hfresh. reflexivity. }
  exists child.
  split; [eapply reachable_next; eauto |].
  unfold next_search_point in Hbuilt. rewrite Hseq, Hcounts in Hbuilt.
  simpl in Hbuilt. inv_bind Hbuilt. inv_bind Ha0. injection Ha0 as <-.
  injection Hbuilt as <-. unfold path. simpl. split.
  - rewrite StepDict_set_fresh by exact Hfresh.
    unfold StepDict.keys. rewrite map_app. fold (StepDict.keys (item_steps point)).
    fold (path point). rewrite Hpath. simpl. symmetry.
    apply firstn_succ_nth_error. exact Hc.
  - pose proof direct_len as Hl.
    unfold next_incomplete, UploadSequence.getitem in Ha1.
    destruct (Z.eqb_spec (UploadSequence.len s - Z.of_nat k) 0); [lia |].
    inv_bind Ha1. apply py_getitem_neg in Ha0; [| lia].
    destruct Ha0 as [_ Hnth]. fold (UploadSequence.len s) in Hnth.
    replace (Z.to_nat (UploadSequence.len s
                       - (UploadSequence.len s - Z.of_nat k)))
      with k in Hnth by lia.
    rewrite <- Hvalues, nth_error_map, Hc in Hnth. injection Hnth as <-.
    rewrite String.eqb_refl in Ha1. injection Ha1 as <-. f_equal. lia.
Qed.

Lemma direct_prefix (k : nat) :
  (1 <= k <= length p)%nat ->
  exists point,
    reachable spec point
    /\ path point = firstn k p
    /\ incomplete_sequence_length point = [UploadSequence.len s - Z.of_nat k].
Proof.
  induction k as [| k IH]; intros Hk; [lia |].
  destruct k as [| k]; [apply direct_first; lia |].
  destruct IH as (point & Hreach & Hpath & Hcounts); [lia |].
  eapply direct_next; eauto. lia.
Qed.

Lemma direct_path_in_result :
  exists sols,
    _solve_internal spec FIND_ALL_SOLUTIONS = OK sols
    /\ In (mkSolution p) sols.
Proof.
  destruct (_solve_internal_total spec Hwf FIND_ALL_SOLUTIONS) as [sols Hsols].
  exists sols. split; [exact Hsols |].
  assert (Hlen : (1 <= length p)%nat).
  { destruct Hwf as (_ & _ & Hne). specialize (Hne s).
    rewrite Hseq in Hne. specialize (Hne (or_introl eq_refl)).
    rewrite <- Hvalues in Hne. destruct p; [contradiction | simpl; lia]. }
  destruct (direct_prefix (length p)) as (point & Hreach & Hpath & Hcounts);
    [lia |].
  rewrite firstn_all in Hpath. rewrite <- Hpath.
  eapply _solve_internal_complete; eauto.
  rewrite Hcounts, direct_len. simpl. lia.
Qed.

End DirectPath.

(** X10. With one upload sequence on well-formed input: a path of distinct
    cells of the matrix that starts in row 0, alternates between column and
    row moves, spells the sequence and fits the buffer is one of the
    solutions of the exhaustive strategy, and the first-solution strategy
    returns a solution. *)
Theorem direct_path_found spec s p :
  well_formed spec ->
  upload_sequences spec = [s] ->
  map value p = UploadSequence.cells s ->
  (forall c, In c p ->
     CodeMatrix.getitem (code_matrix spec) (row_idx c, col_idx c)
     = OK (value c)) ->
  NoDup p ->
  alternates p ->
  Z.of_nat (length p) <= buffer_size spec ->
  (exists sols,
     solve spec FIND_ALL_SOLUTIONS = OK sols /\ In (mkSolution p) sols)
  /\ (exists sol, solve spec FIND_FIRST_SOLUTION = OK [sol]).
Proof.
  intros Hwf Hseq Hvalues Hcells Hnodup Halt Hbuf.
  destruct (direct_path_in_result spec s p) as (sols & Hsols & Hin);
    try assumption.
  { intros c Hc. apply getitem_all_cells. apply Hcells. exact Hc. }
  assert (Hall : solve spec FIND_ALL_SOLUTIONS = OK sols).
  { rewrite solve_unfold, Hsols. simpl.
    destruct sols; [contradiction | reflexivity]. }
  split; [exists sols; auto |].
  destruct (_solve_internal_found _ _ _ Hsols) as (found & Hfound & ->).
  pose proof (_solve_internal_first_of_all _ _ Hfound) as Hfirst.
  destruct found as [| sol rest]; [contradiction |].
  exists sol. rewrite solve_unfold, Hfirst. reflexivity.
Qed.


Local Open Scope string_scope.

Lemma direct_path_found_witness :
  (exists sols,
     solve easy_spec FIND_ALL_SOLUTIONS = OK sols
     /\ In (mkSolution [mkSolutionStep "55" 0 1; mkSolutionStep "1C" 1 1]) sols)
  /\ (exists sol, solve easy_spec FIND_FIRST_SOLUTION = OK [sol]).
Proof.
  apply (direct_path_found easy_spec (UploadSequence.mk ["55"; "1C"] 1)
           [mkSolutionStep "55" 0 1; mkSolutionStep "1C" 1 1]).
  - split; [discriminate |]. split.
    + intros row row' [<- | [<- | []]] [<- | [<- | []]]; reflexivity.
    + intros s [<- | []]; discriminate.
  - reflexivity.
  - reflexivity.
  - intros c [<- | [<- | []]]; reflexivity.
  - constructor; [intros [E | []]; discriminate E |].
    constructor; [intros [] | constructor].
  - split.
    + intros s E. injection E as <-. reflexivity.
    + intros k a b Ha Hb.
      destruct k as [| k]; [| destruct k; discriminate Hb].
      injection Ha as <-. injection Hb as <-. reflexivity.
  - simpl. lia.
Defined.

Lemma solutions_distinct_witness :
  NoDup
    [mkSolution [mkSolutionStep "55" 0 0; mkSolutionStep "1C" 1 0];
     mkSolution [mkSolutionStep "1C" 0 1; mkSolutionStep "55" 1 1;
                 mkSolutionStep "1C" 1 0]]
  /\ forall sol1 sol2,
       In sol1
         [mkSolution [mkSolutionStep "55" 0 0; mkSolutionStep "1C" 1 0];
          mkSolution [mkSolutionStep "1C" 0 1; mkSolutionStep "55" 1 1;
                      mkSolutionStep "1C" 1 0]] ->
       In sol2
         [mkSolution [mkSolutionStep "55" 0 0; mkSolutionStep "1C" 1 0];
          mkSolution [mkSolutionStep "1C" 0 1; mkSolutionStep "55" 1 1;
                      mkSolutionStep "1C" 1 0]] ->
       is_prefix (steps sol1) (steps sol2) ->
       sol1 = sol2.
Proof.
  apply (solutions_distinct mirrored_spec FIND_ALL_SOLUTIONS).
  vm_compute. reflexivity.
Defined.

Local Close Scope string_scope.


(** ** What [print_solution] prints *)

Lemma py_index_absent (l : list SolutionStep) (x : SolutionStep) :
  ~ In x l -> py_index l x = Raise ValueError.
Proof.
  induction l as [| y l IH]; simpl; intros H; [reflexivity |].
  destruct (SolutionStep_eqb y x) eqn:E.
  - apply SolutionStep_eqb_eq in E. tauto.
  - rewrite IH by tauto. reflexivity.
Qed.

Lemma py_index_bound (l : list SolutionStep) (x : SolutionStep) (k : nat) :
  py_index l x = OK k -> (k < length l)%nat.
Proof.
  revert k. induction l as [| y l IH]; simpl; intros k H; [discriminate |].
  destruct (SolutionStep_eqb y x).
  - injection H as <-. lia.
  - inv_bind H. injection H as <-. apply IH in Ha. lia.
Qed.

Lemma py_index_NoDup (l : list SolutionStep) (x : SolutionStep) (k : nat) :
  NoDup l -> nth_error l k = Some x -> py_index l x = OK k.
Proof.
  intros Hnd. revert k. induction Hnd as [| y l Hy _ IH]; intros k Hk.
  - destruct k; discriminate.
  - simpl. destruct k as [| k]; simpl in Hk.
    + injection Hk as ->.
      replace (SolutionStep_eqb x x) with true
        by (symmetry; apply SolutionStep_eqb_eq; reflexivity).
      reflexivity.
    + destruct (SolutionStep_eqb y x) eqn:E.
      * apply SolutionStep_eqb_eq in E. subst y.
        apply nth_error_In in Hk. contradiction.
      * rewrite (IH k Hk). reflexivity.
Qed.

(** X17. In the matrix printed for a solution [solve] returns, the cell of the
    step at position [k] carries the number [k + 1], and a cell that is not
    on the path is printed as its value padded to nine characters. *)
Theorem printed_labels spec strategy sols sol :
  solve spec strategy = OK sols ->
  In sol sols ->
  (forall k c,
     nth_error (steps sol) k = Some c ->
     formatted_value sol (value c) (row_idx c) (col_idx c)
     = (value c ++ " "
        ++ py_ljust 6 ("(" ++ py_str_int (Z.of_nat k + 1) ++ ")"))%string)
  /\ (forall v i j,
        ~ In (mkSolutionStep v i j) (steps sol) ->
        formatted_value sol v i j = py_ljust 9 v).
Proof.
  intros H Hsol.
  destruct (solve_solution _ _ _ _ H Hsol)
    as (final & point & _ & _ & Hok & _ & Hsteps).
  pose proof (ok_nodup _ _ Hok) as Hnd. rewrite <- Hsteps in Hnd. split.
  - intros k c Hk. unfold formatted_value.
    replace (mkSolutionStep (value c) (row_idx c) (col_idx c)) with c
      by (destruct c; reflexivity).
    rewrite (py_index_NoDup _ _ _ Hnd Hk). reflexivity.
  - intros v i j Hnot. unfold formatted_value.
    rewrite (py_index_absent _ _ Hnot). reflexivity.
Qed.

Local Open Scope string_scope.

Lemma printed_labels_witness :
  formatted_value
    (mkSolution [mkSolutionStep "55" 0 1; mkSolutionStep "1C" 1 1])
    "1C" 1 1
  = "1C" ++ " " ++ py_ljust 6 ("(" ++ py_str_int (Z.of_nat 1 + 1) ++ ")")
  /\ formatted_value
       (mkSolution [mkSolutionStep "55" 0 1; mkSolutionStep "1C" 1 1])
       "BD" 0 0
     = py_ljust 9 "BD".
Proof.
  destruct (printed_labels easy_spec FIND_FIRST_SOLUTION
              [mkSolution [mkSolutionStep "55" 0 1; mkSolutionStep "1C" 1 1]]
              (mkSolution [mkSolutionStep "55" 0 1; mkSolutionStep "1C" 1 1]))
    as [Hon Hoff].
  - vm_compute. reflexivity.
  - left. reflexivity.
  - split.
    + apply (Hon 1%nat (mkSolutionStep "1C" 1 1)). reflexivity.
    + apply Hoff. intros [E | [E | []]]; discriminate E.
Defined.

Local Close Scope string_scope.

Lemma string_length_append (a b : string) :
  String.length (a ++ b) = (String.length a + String.length b)%nat.
Proof. induction a as [| c a IH]; simpl; [reflexivity | rewrite IH; reflexivity]. Qed.

Lemma spaces_length (n : nat) : String.length (spaces n) = n.
Proof. induction n as [| n IH]; simpl; [reflexivity | rewrite IH; reflexivity]. Qed.

Lemma py_ljust_length (width : nat) (s : string) :
  String.length (py_ljust width s) = Nat.max width (String.length s).
Proof.
  unfold py_ljust. rewrite string_length_append, spaces_length. lia.
Qed.

(** The decimal numeral of a number below ten thousand has at most four
    digits. *)
Lemma py_str_int_short (n : nat) :
  (n < 100 * 100)%nat ->
  (String.length (py_str_int (Z.of_nat n)) <= 4)%nat.
Proof.
  intros Hn.
  assert (Hall : forallb
                   (fun n => Nat.leb (String.length (py_str_int (Z.of_nat n))) 4)
                   (seq 0 (100 * 100)) = true)
    by (vm_compute; reflexivity).
  rewrite forallb_forall in Hall. apply Nat.leb_le. apply Hall.
  apply in_seq. lia.
Qed.

(** X18. With values of two characters and fewer than ten thousand steps, every
    cell of the matrix is printed in nine characters, so that the columns of
    the printed matrix are aligned. *)
Theorem formatted_value_width (solution : Solution) (v : CellValueType)
  (i j : nat) :
  String.length v = 2%nat ->
  (length (steps solution) < 100 * 100)%nat ->
  String.length (formatted_value solution v i j) = 9%nat.
Proof.
  intros Hv Hsteps. unfold formatted_value.
  destruct (py_index (steps solution) (mkSolutionStep v i j)) as [k |] eqn:E.
  - apply py_index_bound in E.
    rewrite !string_length_append, py_ljust_length, !string_length_append, Hv.
    replace (Z.of_nat k + 1) with (Z.of_nat (S k)) by lia.
    pose proof (py_str_int_short (S k) ltac:(lia)) as Hk.
    change (String.length " "%string) with 1%nat.
    change (String.length "("%string) with 1%nat.
    change (String.length ")"%string) with 1%nat.
    lia.
  - rewrite py_ljust_length, Hv. reflexivity.
Qed.

Local Open Scope string_scope.

Lemma formatted_value_width_witness :
  String.length
    (formatted_value
       (mkSolution [mkSolutionStep "55" 0 1; mkSolutionStep "1C" 1 1])
       "1C" 1 1)
  = 9%nat.
Proof.
  apply formatted_value_width.
  - reflexivity.
  - simpl. lia.
Defined.

Local Close Scope string_scope.

(** X19. [print_solution] raises nothing, whatever the matrix and the solution
    are: each row it iterates exists, and the [ValueError] of [index] is
    caught. *)
Theorem print_solution_no_exception (m : CodeMatrix.t) (solution : Solution) :
  exists lines,
    length lines = CodeMatrix.size m
    /\ print_solution m solution
       = OK (solution_line solution ++ newline
             ++ path_line solution ++ newline
             ++ String.concat "" lines ++ newline)%string.
Proof.
  unfold print_solution.
  destruct (mapM_total (matrix_line m solution) (seq 0 (CodeMatrix.size m)))
    as [lines Hlines].
  - intros i Hi. apply in_seq in Hi. unfold matrix_line, CodeMatrix.iterate_row.
    destruct (nth_error (CodeMatrix.cells m) i) as [row |] eqn:E.
    + apply py_getitem_nat in E. rewrite E. simpl. eauto.
    + apply nth_error_None in E. unfold CodeMatrix.size in Hi. lia.
  - exists lines. rewrite Hlines. simpl.
    split; [| reflexivity].
    rewrite (mapM_length _ _ _ Hlines). apply length_seq.
Qed.


(** ** The warnings tell which sequences a solution contains *)

Lemma solve_printing_rec_kept (calls : nat) spec strategy printed sols :
  solve_printing_rec calls spec strategy = (printed, OK sols) ->
  exists final,
    code_matrix final = code_matrix spec
    /\ buffer_size final = buffer_size spec
    /\ _solve_internal final strategy = OK sols
    /\ forall s,
         In s (upload_sequences spec) ->
         ~ In (warning (UploadSequence.priority s)) printed ->
         In s (upload_sequences final).
Proof.
  revert spec printed. induction calls as [| calls IH]; intros spec printed;
    simpl; destruct (_solve_internal spec strategy) as [[| sol found] |] eqn:E;
    try discriminate;
    try (intros H; injection H as <- <-; exists spec; auto);
    destruct (unique_priorities spec) as [| lowest [| second rest]] eqn:Hu;
    try (intros H; injection H as <- <-; exists spec; auto).
  destruct (solve_printing_rec calls (updated_spec spec lowest) strategy)
    as [printed' result] eqn:Hrec.
  intros H. injection H as <- ->.
  destruct (IH _ _ Hrec) as (final & Hm & Hb & Hfinal & Hkept).
  exists final. repeat (split; [assumption |]).
  intros s Hs Hnot. apply Hkept.
  - unfold updated_spec. simpl. apply filter_In. split; [exact Hs |].
    apply Z.ltb_lt.
    destruct (unique_priorities_lowest _ _ _ Hu) as [_ Hmin].
    specialize (Hmin s Hs).
    assert (UploadSequence.priority s <> lowest).
    { intros Heq. apply Hnot. left. rewrite Heq. reflexivity. }
    lia.
  - intros Hin. apply Hnot. right. exact Hin.
Qed.

(** X15. Every solution [solve] returns contains, as a contiguous run, every
    upload sequence whose priority is not named in a warning printed on the
    way; with no warning it contains all of them. *)
Theorem warnings_explain_coverage spec strategy printed sols sol s :
  solve_printing spec strategy = (printed, OK sols) ->
  In sol sols ->
  In s (upload_sequences spec) ->
  ~ In (warning (UploadSequence.priority s)) printed ->
  contiguous_run (UploadSequence.cells s) (map value (steps sol)).
Proof.
  intros H Hsol Hs Hnot. apply solve_printing_rec_kept in H.
  destruct H as (final & _ & _ & Hint & Hkept).
  pose proof (_solve_internal_ok _ _ _ Hint) as Hall.
  rewrite Forall_forall in Hall.
  destruct (Hall sol Hsol) as (point & Hreach & Hsum & ->).
  apply reachable_ok in Hreach. simpl.
  rewrite (ordered_steps_path final point Hreach).
  apply (accepted_covers final); auto.
Qed.

Local Open Scope string_scope.

Lemma warnings_explain_coverage_witness :
  contiguous_run ["55"; "1C"]
    (map value [mkSolutionStep "55" 0 1; mkSolutionStep "1C" 1 1]).
Proof.
  apply (warnings_explain_coverage relaxing_spec FIND_FIRST_SOLUTION
           [warning 1]
           [mkSolution [mkSolutionStep "55" 0 1; mkSolutionStep "1C" 1 1]]
           (mkSolution [mkSolutionStep "55" 0 1; mkSolutionStep "1C" 1 1])
           (UploadSequence.mk ["55"; "1C"] 2)).
  - vm_compute. reflexivity.
  - left. reflexivity.
  - right. left. reflexivity.
  - intros [E | []]. vm_compute in E. discriminate E.
Defined.

Local Close Scope string_scope.

(** ** The length of a solution for any buffer size *)

(** X16. Whatever the buffer size, a solution [solve] returns has at least one
    step and at most [max(1, buffer_size)] steps: the search points of the
    initial row are accepted without a look at the buffer. *)
Theorem solution_length_any_buffer spec strategy sols sol :
  solve spec strategy = OK sols ->
  In sol sols ->
  1 <= Z.of_nat (length (steps sol)) <= Z.max 1 (buffer_size spec).
Proof.
  intros H Hsol.
  destruct (solve_solution _ _ _ _ H Hsol)
    as (final & point & Hatt & _ & Hok & _ & ->).
  apply attempts_same in Hatt. destruct Hatt as [_ Hbuf].
  pose proof (ok_buffer _ _ Hok) as Hlen. rewrite Hbuf in Hlen.
  split; [| exact Hlen].
  destruct (ok_current _ _ Hok) as [before ->].
  rewrite length_app. simpl. lia.
Qed.

Local Open Scope string_scope.

Lemma solution_length_any_buffer_witness :
  1 <= Z.of_nat (length (steps (mkSolution [mkSolutionStep "55" 0 1])))
    <= Z.max 1 (buffer_size zero_buffer_spec).
Proof.
  apply (solution_length_any_buffer zero_buffer_spec FIND_ALL_SOLUTIONS
           [mkSolution [mkSolutionStep "55" 0 1]]).
  - vm_compute. reflexivity.
  - left. reflexivity.
Defined.

(** The engine misses a path that contains the sequence: with
    [repeated_start_spec] and a buffer of three, the path (A,0,0), (A,1,0),
    (B,1,1) spells A, A, B within the buffer, and nothing is found. *)
Example repeated_start_missed :
  solve {| code_matrix := code_matrix repeated_start_spec;
           upload_sequences := upload_sequences repeated_start_spec;
           buffer_size := 3 |} FIND_ALL_SOLUTIONS
  = OK [].
Proof. vm_compute. reflexivity. Qed.

Local Close Scope string_scope.


(** ** Relaxation of a specification built by the command line *)

Lemma skipn_S_tl {A : Type} (k : nat) (l : list A) :
  skipn (S k) l = tl (skipn k l).
Proof.
  revert l. induction k as [| k IH]; intros l.
  - destruct l; reflexivity.
  - destruct l as [| x l]; [reflexivity |].
    rewrite skipn_cons, IH. reflexivity.
Qed.

Lemma Sorted_skipn {A : Type} (R : A -> A -> Prop) (k : nat) (l : list A) :
  Sorted R l -> Sorted R (skipn k l).
Proof.
  revert l. induction k as [| k IH]; intros l H; [exact H |].
  destruct l as [| x l]; [constructor |].
  simpl. apply IH. inversion H; assumption.
Qed.

Lemma Sorted_lt_from (start n : nat) :
  Sorted Z.lt (map (fun i => Z.of_nat i + 1) (seq start n)).
Proof.
  revert start. induction n as [| n IH]; intros start; simpl; constructor.
  - apply IH.
  - destruct n; simpl; constructor. lia.
Qed.

Lemma cli_priorities_ascending (lines : list (list CellValueType)) (k : nat) :
  Sorted Z.lt
    (map UploadSequence.priority (skipn k (cli_upload_sequences lines))).
Proof.
  rewrite <- skipn_map. apply Sorted_skipn.
  unfold cli_upload_sequences. rewrite map_map. simpl.
  rewrite <- (map_map fst (fun i => Z.of_nat i + 1)), enumerate_fst.
  apply Sorted_lt_from.
Qed.

Lemma ascending_above (x : Z) (l : list Z) :
  Sorted Z.lt (x :: l) -> Forall (fun y => x < y) l.
Proof.
  intros H. apply Sorted_StronglySorted in H.
  - inversion H; assumption.
  - intros a b c. lia.
Qed.

Lemma ascending_NoDup (l : list Z) : Sorted Z.lt l -> NoDup l.
Proof.
  induction l as [| x l IH]; intros H; constructor.
  - intros Hin. apply ascending_above in H. rewrite Forall_forall in H.
    specialize (H x Hin). lia.
  - apply IH. inversion H; assumption.
Qed.

Lemma ascending_unique_priorities spec :
  Sorted Z.lt (map UploadSequence.priority (upload_sequences spec)) ->
  unique_priorities spec
  = map UploadSequence.priority (upload_sequences spec).
Proof.
  intros H. unfold unique_priorities, py_set.
  rewrite (nodup_fixed_point Z.eq_dec (ascending_NoDup _ H)).
  apply sorted_by_id. eapply Sorted_weaken; [| exact H].
  intros a b. unfold key_le. lia.
Qed.

Lemma ascending_filter (s0 : UploadSequence.t) (l : list UploadSequence.t) :
  Sorted Z.lt (map UploadSequence.priority (s0 :: l)) ->
  filter (fun s => UploadSequence.priority s0 <? UploadSequence.priority s)
    (s0 :: l)
  = l.
Proof.
  intros H. simpl. rewrite Z.ltb_irrefl.
  apply ascending_above in H. apply forallb_filter_id.
  apply forallb_forall. intros s Hs. apply Z.ltb_lt.
  rewrite Forall_forall in H. apply H. apply in_map. exact Hs.
Qed.

Lemma nth_error_enumerate_from {A : Type} (l : list A) (start i : nat) :
  nth_error (combine (seq start (length l)) l) i
  = option_map (fun x => ((start + i)%nat, x)) (nth_error l i).
Proof.
  revert start i. induction l as [| x l IH]; intros start [| i]; simpl;
    try reflexivity.
  - rewrite Nat.add_0_r. reflexivity.
  - rewrite IH. destruct (nth_error l i); simpl; [| reflexivity].
    do 2 f_equal. lia.
Qed.

Lemma nth_error_cli_upload_sequences (lines : list (list CellValueType))
  (k : nat) :
  nth_error (cli_upload_sequences lines) k
  = option_map (fun line => UploadSequence.mk line (Z.of_nat k + 1))
      (nth_error lines k).
Proof.
  unfold cli_upload_sequences, enumerate.
  rewrite nth_error_map, nth_error_enumerate_from.
  destruct (nth_error lines k); reflexivity.
Qed.

Lemma solve_printing_first_warning spec strategy lowest second rest :
  _solve_internal spec strategy = OK [] ->
  unique_priorities spec = lowest :: second :: rest ->
  fst (solve_printing spec strategy)
  = warning lowest
    :: fst (solve_printing_rec (Nat.pred (length (upload_sequences spec)))
              (updated_spec spec lowest) strategy).
Proof.
  intros Hnone Hu. unfold solve_printing.
  destruct (length (upload_sequences spec)) as [| calls] eqn:Hlen.
  - apply length_zero_iff_nil in Hlen. unfold unique_priorities in Hu.
    rewrite Hlen in Hu. discriminate Hu.
  - simpl. rewrite Hnone, Hu.
    destruct (solve_printing_rec calls (updated_spec spec lowest) strategy).
    reflexivity.
Qed.

(** X20. For a specification whose upload sequences were built by [solve_file]
    from the lines of the file (or remain of them after [k] relaxations) and
    for which the engine finds nothing: the lowest priority is that of line
    [k], the first remaining line, and the specification [solve] retries
    with is the one given without the sequence of that line, the others kept
    in the order of the file.  [solve] prints the warning for priority
    [k + 1] first and returns what its run on that specification returns: the
    solutions the engine finds there, or the exception it raises. *)
Theorem cli_relaxation_order spec strategy lines (k : nat) :
  upload_sequences spec = skipn k (cli_upload_sequences lines) ->
  (2 <= length (upload_sequences spec))%nat ->
  _solve_internal spec strategy = OK [] ->
  exists line relaxed,
    nth_error lines k = Some line
    /\ nth_error (upload_sequences spec) 0
       = Some (UploadSequence.mk line (Z.of_nat k + 1))
    /\ (forall s, In s (upload_sequences spec) ->
                  Z.of_nat k + 1 <= UploadSequence.priority s)
    /\ relaxed
       = {| code_matrix := code_matrix spec;
            upload_sequences := skipn (S k) (cli_upload_sequences lines);
            buffer_size := buffer_size spec |}
    /\ upload_sequences relaxed = tl (upload_sequences spec)
    /\ upload_sequences relaxed
       = filter (fun s => Z.of_nat k + 1 <? UploadSequence.priority s)
           (upload_sequences spec)
    /\ solve spec strategy = solve relaxed strategy
    /\ (forall e,
          _solve_internal relaxed strategy = Raise e ->
          solve spec strategy = Raise e)
    /\ (forall sol sols,
          _solve_internal relaxed strategy = OK (sol :: sols) ->
          solve spec strategy = OK (sol :: sols))
    /\ exists printed,
         fst (solve_printing spec strategy)
         = warning (Z.of_nat k + 1) :: printed.
Proof.
  intros Hseqs Hlen Hnone.
  pose proof (cli_priorities_ascending lines k) as Hasc.
  rewrite <- Hseqs in Hasc.
  pose proof (ascending_unique_priorities _ Hasc) as Hu.
  assert (Hrelaxed : skipn (S k) (cli_upload_sequences lines)
                     = tl (upload_sequences spec))
    by (rewrite skipn_S_tl, <- Hseqs; reflexivity).
  assert (Hfirst : nth_error (upload_sequences spec) 0
                   = option_map
                       (fun line => UploadSequence.mk line (Z.of_nat k + 1))
                       (nth_error lines k)).
  { rewrite Hseqs, nth_error_skipn, Nat.add_0_r.
    apply nth_error_cli_upload_sequences. }
  destruct (upload_sequences spec) as [| s0 [| s1 rest]] eqn:E;
    try (simpl in Hlen; lia).
  destruct (nth_error lines k) as [line |]; [| discriminate Hfirst].
  simpl in Hfirst. injection Hfirst as Hs0. subst s0.
  exists line, (replace_upload_sequences spec
                  (skipn (S k) (cli_upload_sequences lines))).
  assert (Hfilter : filter
                      (fun s => Z.of_nat k + 1 <? UploadSequence.priority s)
                      (UploadSequence.mk line (Z.of_nat k + 1) :: s1 :: rest)
                    = s1 :: rest).
  { exact (ascending_filter _ (s1 :: rest) Hasc). }
  assert (Hupdated : updated_spec spec (Z.of_nat k + 1)
                     = replace_upload_sequences spec
                         (skipn (S k) (cli_upload_sequences lines))).
  { unfold updated_spec. rewrite E, Hfilter, Hrelaxed. reflexivity. }
  assert (Hu' : unique_priorities spec
                = (Z.of_nat k + 1) :: UploadSequence.priority s1
                  :: map UploadSequence.priority rest)
    by (rewrite Hu; reflexivity).
  destruct (solve_retries _ _ _ _ _ Hnone Hu')
    as (Hsolve & Hraise & Hfound & _).
  rewrite Hupdated in Hsolve, Hraise, Hfound.
  split; [reflexivity |].
  split; [reflexivity |].
  split.
  { intros s Hs. rewrite <- E in Hs.
    apply (proj2 (unique_priorities_lowest _ _ _ Hu')). exact Hs. }
  split; [reflexivity |].
  split; [exact Hrelaxed |].
  split; [rewrite Hfilter; exact Hrelaxed |].
  split; [exact Hsolve |].
  split; [exact Hraise |].
  split; [exact Hfound |].
  eexists. apply (solve_printing_first_warning _ _ _ _ _ Hnone Hu').
Qed.

Local Open Scope string_scope.

Lemma cli_relaxation_order_witness :
  exists line relaxed,
    nth_error [["7A"; "1C"]; ["55"; "1C"]] 0 = Some line
    /\ nth_error (upload_sequences relaxing_spec) 0
       = Some (UploadSequence.mk line (Z.of_nat 0 + 1))
    /\ (forall s, In s (upload_sequences relaxing_spec) ->
                  (Z.of_nat 0 + 1 <= UploadSequence.priority s)%Z)
    /\ relaxed
       = {| code_matrix := code_matrix relaxing_spec;
            upload_sequences :=
              skipn 1 (cli_upload_sequences [["7A"; "1C"]; ["55"; "1C"]]);
            buffer_size := buffer_size relaxing_spec |}
    /\ upload_sequences relaxed = tl (upload_sequences relaxing_spec)
    /\ upload_sequences relaxed
       = filter (fun s => (Z.of_nat 0 + 1 <? UploadSequence.priority s)%Z)
           (upload_sequences relaxing_spec)
    /\ solve relaxing_spec FIND_FIRST_SOLUTION
       = solve relaxed FIND_FIRST_SOLUTION
    /\ (forall e,
          _solve_internal relaxed FIND_FIRST_SOLUTION = Raise e ->
          solve relaxing_spec FIND_FIRST_SOLUTION = Raise e)
    /\ (forall sol sols,
          _solve_internal relaxed FIND_FIRST_SOLUTION = OK (sol :: sols) ->
          solve relaxing_spec FIND_FIRST_SOLUTION = OK (sol :: sols))
    /\ exists printed,
         fst (solve_printing relaxing_spec FIND_FIRST_SOLUTION)
         = warning (Z.of_nat 0 + 1) :: printed.
Proof.
  apply (cli_relaxation_order relaxing_spec FIND_FIRST_SOLUTION
           [["7A"; "1C"]; ["55"; "1C"]] 0).
  - reflexivity.
  - simpl. lia.
  - vm_compute. reflexivity.
Defined.

(** The command line on the two lines of [relaxing_spec]: the first line is
    given up, the warning names priority 1, and the solution spells the
    second line. *)
Example cli_relaxation_evaluated :
  cli_upload_sequences [["7A"; "1C"]; ["55"; "1C"]]
  = upload_sequences relaxing_spec
  /\ solve_printing relaxing_spec FIND_FIRST_SOLUTION
     = ([warning 1],
        OK [mkSolution [mkSolutionStep "55" 0 1; mkSolutionStep "1C" 1 1]]).
Proof. split; vm_compute; reflexivity. Qed.

Local Close Scope string_scope.

(** ** The tests' scenarios, evaluated *)

Local Open Scope string_scope.

Example test_solve_single_sequence_easy_matrix :
  solve easy_spec FIND_FIRST_SOLUTION
  = OK [mkSolution [mkSolutionStep "55" 0 1; mkSolutionStep "1C" 1 1]].
Proof. vm_compute. reflexivity. Qed.

Example test_no_solutions :
  solve unsolvable_spec FIND_FIRST_SOLUTION = OK [].
Proof. vm_compute. reflexivity. Qed.

Example test_solve_one_unique_cell_value :
  exists sols,
    solve uniform_spec FIND_ALL_SOLUTIONS = OK sols
    /\ length sols = 12%nat
    /\ Forall (fun sol => length (steps sol) = 3%nat) sols.
Proof.
  eexists. split; [vm_compute; reflexivity |].
  split; [reflexivity | repeat constructor].
Qed.

Example test_solve_single_sequence_easy_matrix_multiple_solutions :
  exists sols,
    solve multiple_spec FIND_ALL_SOLUTIONS = OK sols /\ length sols = 2%nat.
Proof. eexists. split; [vm_compute; reflexivity | reflexivity]. Qed.

Example test_solve_must_consume_irrelevant_cells_in_the_beginning :
  exists sols,
    solve beginning_spec FIND_ALL_SOLUTIONS = OK sols /\ length sols = 3%nat.
Proof. eexists. split; [vm_compute; reflexivity | reflexivity]. Qed.

Example test_solve_must_consume_irrelevant_cells_in_the_middle :
  solve middle_spec FIND_ALL_SOLUTIONS
  = OK [mkSolution
          [mkSolutionStep "BD" 0 0; mkSolutionStep "55" 2 0;
           mkSolutionStep "1C" 2 2; mkSolutionStep "7A" 3 2;
           mkSolutionStep "C8" 3 0; mkSolutionStep "1C" 1 0;
           mkSolutionStep "55" 1 1; mkSolutionStep "E9" 2 1;
           mkSolutionStep "FF" 2 3]].
Proof. vm_compute. reflexivity. Qed.

(** The warnings checked by [test_partial_solution_find_all] of
    [test_cli.py], and its thirteen solutions. *)
Example test_solve_partial_must_discard_lower_priorities :
  exists sols,
    solve_printing partial_spec FIND_ALL_SOLUTIONS
    = (["Warning: Could not find a solution that satisfies all upload sequences. Discarding all sequences with priority <= 1.";
        "Warning: Could not find a solution that satisfies all upload sequences. Discarding all sequences with priority <= 2."],
       OK sols)
    /\ length sols = 13%nat.
Proof. eexists. split; [vm_compute; reflexivity | reflexivity]. Qed.

(** The lines checked by [test_single_solution_filename_only] of
    [test_cli.py]. *)
Example test_single_solution_printed :
  print_solution easy_matrix
    (mkSolution [mkSolutionStep "55" 0 1; mkSolutionStep "1C" 1 1])
  = OK ("Solution: 55 1C" ++ newline
        ++ "Path: (0 1) > (1 1)" ++ newline
        ++ "BD       55 (1)   " ++ newline
        ++ "E9       1C (2)   " ++ newline
        ++ newline).
Proof. vm_compute. reflexivity. Qed.

Local Close Scope string_scope.

